(** * Brain Trip planner: the trivia and suggestion pipeline of the server

    A shallow embedding of the validation, shuffling, hashing, ranking and
    caching code of [server/routes.ts], with the properties the
    specification states about it.

    Conventions of the embedding:
    - a JavaScript string is a [string]: a sequence of code units below 256
      (the Latin-1 range), on which [toLowerCase], [trim] and the regular
      expression classes are given as the language defines them;
    - a JavaScript number is a rational [Q], the value of the double; a
      32-bit integer is a [Z] with its wrap-around written out ([toInt32]);
    - a value of type [any] is a [value];
    - an exception is the [Throw] case of [result]; [Math.random] reads an
      explicit stream of draws. *)

From Stdlib Require Import ZArith QArith Qround Lqa String Ascii List Lia Permutation Sorted.
From stdpp Require Import gmap strings list.

Set Warnings "-register-all".

Local Open Scope string_scope.
Local Open Scope Z_scope.

(** ** Code units and strings *)

Module Str.

Definition code (c : ascii) : Z := Z.of_N (N_of_ascii c).

Definition chr (n : Z) : ascii := ascii_of_N (Z.to_N n).

Definition between (lo hi : Z) (c : ascii) : bool :=
  (lo <=? code c) && (code c <=? hi).

Definition is_digit (c : ascii) : bool := between 48 57 c.
Definition is_upper (c : ascii) : bool := between 65 90 c.
Definition is_lower (c : ascii) : bool := between 97 122 c.

(** [\w] of a regular expression without the [u] flag: [A-Za-z0-9_]. *)
Definition is_word (c : ascii) : bool :=
  is_digit c || is_upper c || is_lower c || (code c =? 95).

(** White space of [String.prototype.trim] and of [\s], below 256:
    TAB, LF, VT, FF, CR, SPACE and NBSP. *)
Definition is_space (c : ascii) : bool :=
  between 9 13 c || (code c =? 32) || (code c =? 160).

(** [toLowerCase] on one code unit: A-Z, and the Latin-1 capitals
    U+00C0..U+00DE without the multiplication sign U+00D7. *)
Definition lower_char (c : ascii) : ascii :=
  if is_upper c || (between 192 222 c && negb (code c =? 215))
  then chr (code c + 32) else c.

(** The canonical form the [i] flag compares: the upper-case letter for
    a-z, every other code unit below 128 itself (a code unit of 128 or more
    never folds onto one below 128). *)
Definition upper_ascii (c : ascii) : ascii :=
  if is_lower c then chr (code c - 32) else c.

Fixpoint toLowerCase (s : string) : string :=
  match s with
  | EmptyString => EmptyString
  | String c r => String (lower_char c) (toLowerCase r)
  end.

Fixpoint trimStart (s : string) : string :=
  match s with
  | EmptyString => EmptyString
  | String c r => if is_space c then trimStart r else s
  end.

(** [trimEnd] keeps a character when it is not white space or when something
    that is kept follows it. *)
Fixpoint trimEnd (s : string) : string :=
  match s with
  | EmptyString => EmptyString
  | String c r =>
      match trimEnd r with
      | EmptyString => if is_space c then EmptyString else String c EmptyString
      | r' => String c r'
      end
  end.

Definition trim (s : string) : string := trimEnd (trimStart s).

Definition len (s : string) : Z := Z.of_nat (String.length s).

(** A string is truthy when it is not empty. *)
Definition non_empty (s : string) : bool := negb (String.eqb s EmptyString).

(** [s.toLowerCase().trim()], the form in which titles, options and cache
    keys are compared. *)
Definition normalize (s : string) : string := trim (toLowerCase s).

Fixpoint startsWith (p s : string) : bool :=
  match p, s with
  | EmptyString, _ => true
  | String a p', String b s' => Ascii.eqb a b && startsWith p' s'
  | String _ _, EmptyString => false
  end.

(** [s.includes(sub)] *)
Fixpoint includes (s sub : string) : bool :=
  startsWith sub s ||
  match s with
  | EmptyString => false
  | String _ r => includes r sub
  end.

(** [s.indexOf(sub)] on strings, [-1] when [sub] does not occur. *)
Fixpoint str_indexOf_from (i : Z) (s sub : string) : Z :=
  if startsWith sub s then i
  else match s with
       | EmptyString => -1
       | String _ r => str_indexOf_from (i + 1) r sub
       end.

Definition str_indexOf (s sub : string) : Z := str_indexOf_from 0 s sub.

Fixpoint drop (n : nat) (s : string) : string :=
  match n, s with
  | O, _ => s
  | S n', String _ r => drop n' r
  | S _, EmptyString => EmptyString
  end.

Fixpoint take (n : nat) (s : string) : string :=
  match n, s with
  | S n', String c r => String c (take n' r)
  | _, _ => EmptyString
  end.

(** [s.slice(start)]: a negative [start] counts from the end. *)
Definition slice_from (s : string) (start : Z) : string :=
  let k := if start <? 0 then Z.max 0 (len s + start) else start in
  drop (Z.to_nat k) s.

Fixpoint codes (s : string) : list Z :=
  match s with
  | EmptyString => []
  | String c r => code c :: codes r
  end.

(** [s.split(/[cls]+/)] for a character class [cls]: the pieces between the
    maximal runs of class characters, the empty pieces at both ends
    included. [cur] is the piece being read, in reverse; [in_run] tells
    whether the previous character belonged to a separator. *)
Fixpoint rev_string (acc s : string) : string :=
  match s with
  | EmptyString => acc
  | String c r => rev_string (String c acc) r
  end.

Fixpoint split_go (cls : ascii -> bool) (cur : string) (in_run : bool)
    (s : string) : list string :=
  match s with
  | EmptyString => [rev_string EmptyString cur]
  | String c r =>
      if cls c then
        if in_run then split_go cls cur true r
        else rev_string EmptyString cur :: split_go cls EmptyString true r
      else split_go cls (String c cur) false r
  end.

Definition split_runs (cls : ascii -> bool) (s : string) : list string :=
  split_go cls EmptyString false s.

End Str.

(** ** 32-bit integers *)

Module Int32.

(** [ToInt32]: reduction modulo 2^32 into [-2^31, 2^31). *)
Definition toInt32 (z : Z) : Z :=
  let m := z mod 2 ^ 32 in
  if m <? 2 ^ 31 then m else m - 2 ^ 32.

(** [x << k] *)
Definition shl (x k : Z) : Z := toInt32 (Z.shiftl (toInt32 x) (k mod 32)).

(** [x | y] *)
Definition bor (x y : Z) : Z := toInt32 (Z.lor (toInt32 x) (toInt32 y)).

End Int32.

(** ** Regular expressions

    The fragment of [RegExp] the server uses: classes, sequence,
    alternation, the greedy star and the word boundary. [run r st] lists the
    cursors a match of [r] started in [st] can end in, in the order
    backtracking tries them, so its head is the match [exec] reports and its
    being non-empty is what [test] returns. A cursor is the character before
    the position (for [\b]) and the input that is left. *)

Module Regex.
Import Str.

Inductive regex : Type :=
| Eps
| Class (p : ascii -> bool)
| Seq (r1 r2 : regex)
| Alt (r1 r2 : regex)
| Star (r : regex)
| WordBoundary.

Definition cursor : Type := option ascii * string.

Definition word_before (st : cursor) : bool :=
  match fst st with Some c => is_word c | None => false end.

Definition word_after (st : cursor) : bool :=
  match snd st with String c _ => is_word c | EmptyString => false end.

Definition shorter (st st' : cursor) : bool :=
  (String.length (snd st') <? String.length (snd st))%nat.

Fixpoint run (r : regex) (st : cursor) : list cursor :=
  match r with
  | Eps => [st]
  | Class p =>
      match snd st with
      | String c rest => if p c then [(Some c, rest)] else []
      | EmptyString => []
      end
  | Seq r1 r2 => flat_map (run r2) (run r1 st)
  | Alt r1 r2 => (run r1 st ++ run r2 st)%list
  | Star r1 =>
      (fix iter (n : nat) (st : cursor) {struct n} : list cursor :=
         match n with
         | O => [st]
         | S n' =>
             (flat_map (iter n') (List.filter (shorter st) (run r1 st)) ++ [st])%list
         end) (String.length (snd st)) st
  | WordBoundary => if xorb (word_before st) (word_after st) then [st] else []
  end.

(** The text of the leftmost match, [match[0]] of [s.match(r)]. *)
Fixpoint exec_from (r : regex) (prev : option ascii) (s : string) : option string :=
  match run r (prev, s) with
  | (_, rest) :: _ => Some (take (String.length s - String.length rest) s)
  | [] =>
      match s with
      | String c t => exec_from r (Some c) t
      | EmptyString => None
      end
  end.

Definition exec (r : regex) (s : string) : option string := exec_from r None s.

(** [r.test(s)] *)
Definition test (r : regex) (s : string) : bool :=
  match exec r s with Some _ => true | None => false end.

(** [s.replace(r, empty)] for a global [r]: every match is deleted; [skip]
    counts the characters of the current match still to drop. *)
Fixpoint delete_go (r : regex) (skip : nat) (prev : option ascii) (s : string) : string :=
  match s with
  | EmptyString => EmptyString
  | String c t =>
      match skip with
      | S k => delete_go r k (Some c) t
      | O =>
          match run r (prev, s) with
          | (_, rest) :: _ =>
              match (String.length s - String.length rest)%nat with
              | O => String c (delete_go r O (Some c) t)
              | S k => delete_go r k (Some c) t
              end
          | [] => String c (delete_go r O (Some c) t)
          end
      end
  end.

Definition delete_all (r : regex) (s : string) : string := delete_go r O None s.

(** Abbreviations of the concrete syntax. *)
Definition char (c : ascii) : regex := Class (Ascii.eqb c).
Definition char_i (c : ascii) : regex :=
  Class (fun x => Ascii.eqb (upper_ascii x) (upper_ascii c)).
Definition digit : regex := Class is_digit.
Definition any : regex := Class (fun _ => true).
(** [.]: any character but a line terminator. *)
Definition dot : regex := Class (fun c => negb ((code c =? 10) || (code c =? 13))).
Definition plus (r : regex) : regex := Seq r (Star r).
Definition opt (r : regex) : regex := Alt r Eps.

Fixpoint rep (n : nat) (r : regex) : regex :=
  match n with
  | O => Eps
  | S n' => Seq r (rep n' r)
  end.

Fixpoint lit (s : string) : regex :=
  match s with
  | EmptyString => Eps
  | String c t => Seq (char c) (lit t)
  end.

Fixpoint lit_i (s : string) : regex :=
  match s with
  | EmptyString => Eps
  | String c t => Seq (char_i c) (lit_i t)
  end.

Fixpoint alts (rs : list regex) : regex :=
  match rs with
  | [] => Class (fun _ => false)
  | [r] => r
  | r :: rs' => Alt r (alts rs')
  end.

End Regex.

(** ** The fun-fact validator *)

Module FunFact.
Import Str Regex.

Definition BANNED_FUNFACT_PHRASES : list string :=
  [ "popular spot"; "notable"; "destination"; "must-visit"; "must visit";
    "perfect for"; "great place"; "visitors"; "atmosphere"; "a popular";
    "well-known"; "well known"; "famous for being"; "worth a visit";
    "must-see"; "must see" ].

(** [/\b\d{1,}/] *)
Definition re_number : regex := Seq WordBoundary (plus digit).

(** [/\b(1[0-9]{3}|2[0-9]{3})\b/] *)
Definition re_year : regex :=
  Seq WordBoundary
    (Seq (Alt (Seq (char "1") (rep 3 digit)) (Seq (char "2") (rep 3 digit)))
         WordBoundary).

(** [/\b\d+[\s-]?(meter|metre|foot|feet|ton|kilo|mile|acre|year|centur|inch|pound|hectare|square|cubic)/i] *)
Definition re_measurement : regex :=
  Seq WordBoundary
    (Seq (plus digit)
       (Seq (opt (Class (fun c => is_space c || Ascii.eqb c "-")))
          (alts (map lit_i
             [ "meter"; "metre"; "foot"; "feet"; "ton"; "kilo"; "mile"; "acre";
               "year"; "centur"; "inch"; "pound"; "hectare"; "square";
               "cubic" ])))).

(** [/\b[A-Z][a-z]{2,}\b/] *)
Definition re_proper_noun : regex :=
  Seq WordBoundary
    (Seq (Class is_upper)
       (Seq (rep 2 (Class is_lower)) (Seq (Star (Class is_lower)) WordBoundary))).

Definition sentence_end (c : ascii) : bool :=
  Ascii.eqb c "." || Ascii.eqb c "!" || Ascii.eqb c "?".

Definition isValidFunFact (fact : string) : bool :=
  if negb (non_empty fact) || (len fact <? 10) then false
  else
    let lower := toLowerCase fact in
    if existsb (fun phrase => includes lower phrase) BANNED_FUNFACT_PHRASES then false
    else
      let words := List.filter non_empty (split_runs is_space fact) in
      if (Z.of_nat (length words) <? 12) || (25 <? Z.of_nat (length words)) then false
      else
        let sentences :=
          List.filter (fun s => 0 <? len (trim s)) (split_runs sentence_end fact) in
        if 1 <? Z.of_nat (length sentences) then false
        else
          let hasNumber := test re_number fact in
          let hasYear := test re_year fact in
          let hasMeasurement := test re_measurement fact in
          let hasProperNoun :=
            test re_proper_noun (slice_from fact (str_indexOf fact " " + 1)) in
          hasNumber || hasYear || hasMeasurement || hasProperNoun.

(** The words the validator counts. *)
Definition words (fact : string) : list string :=
  List.filter non_empty (split_runs is_space fact).

End FunFact.


(** ** Values, exceptions and the random source *)

Module JS.
Import Str.

Inductive exn : Type :=
| TypeError
| SyntaxError
| AbortError
| OtherError (name : string).

Inductive result (A : Type) : Type :=
| Return (a : A)
| Throw (e : exn).
Arguments Return {A} a.
Arguments Throw {A} e.

(** A value of type [any], as [JSON.parse] and object literals build it. *)
Inductive value : Type :=
| VUndefined
| VNull
| VBool (b : bool)
| VNum (x : Q)
| VStr (s : string)
| VArr (elems : list value)
| VObj (fields : list (string * value)).

Definition truthy (v : value) : bool :=
  match v with
  | VUndefined | VNull => false
  | VBool b => b
  | VNum x => negb (Qeq_bool x 0)
  | VStr s => negb (String.eqb s EmptyString)
  | VArr _ | VObj _ => true
  end.

Definition isArray (v : value) : bool :=
  match v with VArr _ => true | _ => false end.

Definition is_string (v : value) : bool :=
  match v with VStr _ => true | _ => false end.

Fixpoint lookup_field (k : string) (fields : list (string * value)) : value :=
  match fields with
  | [] => VUndefined
  | (k', v) :: rest => if String.eqb k k' then v else lookup_field k rest
  end.

(** [o.k] for a data property [k]. Reading a property of [undefined] or
    [null] throws; [length] is the only property of arrays and strings that
    is a value here (their methods are given as functions below). *)
Definition get_prop (o : value) (k : string) : result value :=
  match o with
  | VUndefined | VNull => Throw TypeError
  | VObj fields => Return (lookup_field k fields)
  | VArr elems =>
      Return (if String.eqb k "length"
              then VNum (inject_Z (Z.of_nat (length elems))) else VUndefined)
  | VStr s =>
      Return (if String.eqb k "length" then VNum (inject_Z (len s)) else VUndefined)
  | VBool _ | VNum _ => Return VUndefined
  end.

(** [o?.k] *)
Definition get_prop_opt (o : value) (k : string) : value :=
  match get_prop o k with
  | Return v => v
  | Throw _ => VUndefined
  end.

(** [a || b] *)
Definition or_else (a b : value) : value := if truthy a then a else b.

Definition is_integer (x : Q) : bool := Qeq_bool x (inject_Z (Qfloor x)).

(** [o[k]]. The server indexes arrays by numbers only: every caller passes a
    validated or curated question. The access is exact for those and for a
    receiver that is [undefined] or [null]; other receivers and keys are
    outside the embedding and read as [undefined]. *)
Definition index (o k : value) : result value :=
  match o with
  | VUndefined | VNull => Throw TypeError
  | VArr elems =>
      match k with
      | VNum x =>
          if is_integer x && Qle_bool 0 x
          then Return (nth (Z.to_nat (Qfloor x)) elems VUndefined)
          else Return VUndefined
      | _ => Return VUndefined
      end
  | _ => Return VUndefined
  end.

(** [arr[i]] for an integer [i], as [index] reads it. *)
Definition elem (arr : list value) (i : Z) : value :=
  if 0 <=? i then nth (Z.to_nat i) arr VUndefined else VUndefined.

(** [a === b]. Two arrays, or two objects, are [===] when they are the same
    object; the embedding has no identity of objects and compares their
    contents. The values the server compares are strings and numbers. *)
Fixpoint strict_eq (a b : value) : bool :=
  match a, b with
  | VUndefined, VUndefined => true
  | VNull, VNull => true
  | VBool x, VBool y => Bool.eqb x y
  | VNum x, VNum y => Qeq_bool x y
  | VStr x, VStr y => String.eqb x y
  | VArr xs, VArr ys =>
      (fix go (xs ys : list value) : bool :=
         match xs, ys with
         | [], [] => true
         | x :: xs', y :: ys' => strict_eq x y && go xs' ys'
         | _, _ => false
         end) xs ys
  | VObj fs, VObj gs =>
      (fix go (fs gs : list (string * value)) : bool :=
         match fs, gs with
         | [], [] => true
         | (k, x) :: fs', (k', y) :: gs' =>
             String.eqb k k' && strict_eq x y && go fs' gs'
         | _, _ => false
         end) fs gs
  | _, _ => false
  end.

(** [arr.indexOf(x)] *)
Fixpoint indexOf_from (i : Z) (arr : list value) (x : value) : Z :=
  match arr with
  | [] => -1
  | y :: rest => if strict_eq y x then i else indexOf_from (i + 1) rest x
  end.

Definition indexOf (arr : list value) (x : value) : Z := indexOf_from 0 arr x.

(** [v.toLowerCase()] and [v.trim()]: methods of strings alone, so the call
    throws on any other value. *)
Definition call_toLowerCase (v : value) : result string :=
  match v with
  | VStr s => Return (toLowerCase s)
  | _ => Throw TypeError
  end.

Definition call_trim (v : value) : result string :=
  match v with
  | VStr s => Return (trim s)
  | _ => Throw TypeError
  end.

(** The digit [d] of a base up to 36: [0-9], then [a-z]. *)
Definition digit_char (d : Z) : ascii :=
  if d <? 10 then chr (48 + d) else chr (87 + d).

(** Digits of [n > 0] in base [radix], most significant first, in front of
    [acc]; [fuel] bounds their number. *)
Fixpoint digits (radix : Z) (fuel : nat) (n : Z) (acc : string) : string :=
  match fuel with
  | O => acc
  | S fuel' =>
      if n <=? 0 then acc
      else digits radix fuel' (n / radix) (String (digit_char (n mod radix)) acc)
  end.

(** [n.toString(radix)] for an integer [n]. *)
Definition Z_toString (radix n : Z) : string :=
  if n =? 0 then "0"
  else if n <? 0
       then String "-" (digits radix (Z.to_nat (Z.log2 (- n)) + 1) (- n) EmptyString)
       else digits radix (Z.to_nat (Z.log2 n) + 1) n EmptyString.

(** [{...q, k: v}]: the own properties of [q], then [k] set. *)
Definition spread (q : value) : list (string * value) :=
  match q with VObj fields => fields | _ => [] end.

Fixpoint set_field (k : string) (v : value) (fields : list (string * value))
    : list (string * value) :=
  match fields with
  | [] => [(k, v)]
  | (k', v') :: rest =>
      if String.eqb k k' then (k, v) :: rest else (k', v') :: set_field k v rest
  end.

(** *** The random source and the monad of effects

    [Math.random()] returns some number of [[0, 1)]: the embedding reads the
    next element of a stream of rationals and keeps its fractional part, so
    that every stream is a run of the generator and every run is a stream. *)
Definition Rand : Type := nat -> Q.

Definition M (A : Type) : Type := Rand -> result A * Rand.

Definition ret {A} (a : A) : M A := fun g => (Return a, g).

Definition throw {A} (e : exn) : M A := fun g => (Throw e, g).

Definition bind {A B} (m : M A) (f : A -> M B) : M B :=
  fun g =>
    match m g with
    | (Return a, g') => f a g'
    | (Throw e, g') => (Throw e, g')
    end.

Definition lift {A} (r : result A) : M A := fun g => (r, g).

(** [try { m } catch (e) { h e }] *)
Definition try_catch {A} (m : M A) (h : exn -> M A) : M A :=
  fun g =>
    match m g with
    | (Return a, g') => (Return a, g')
    | (Throw e, g') => h e g'
    end.

Definition frac (x : Q) : Q := (x - inject_Z (Qfloor x))%Q.

Definition Math_random : M Q :=
  fun g => (Return (frac (g O)), fun n => g (S n)).

Definition Math_floor (x : Q) : Z := Qfloor x.

Fixpoint mapM {A B} (f : A -> M B) (l : list A) : M (list B) :=
  match l with
  | [] => ret []
  | x :: rest => bind (f x) (fun y => bind (mapM f rest) (fun ys => ret (y :: ys)))
  end.

(** The exception-only part of [M], for code that draws no random number. *)
Definition rbind {A B} (r : result A) (f : A -> result B) : result B :=
  match r with
  | Return a => f a
  | Throw e => Throw e
  end.

Fixpoint rmap {A B} (f : A -> result B) (l : list A) : result (list B) :=
  match l with
  | [] => Return []
  | x :: rest => rbind (f x) (fun y => rbind (rmap f rest) (fun ys => Return (y :: ys)))
  end.

(** [try { r } catch { d }] *)
Definition catch {A} (r : result A) (d : A) : A :=
  match r with
  | Return a => a
  | Throw _ => d
  end.

(** *** Numbers as texts

    A number of the engine is a double, and [VNum x] is the number of value
    [x]. [Number::toString] prints the shortest decimal that reads back as
    the double. A rational that is no double is printed as the double
    nearest to it (the one with the even significand of two), which is the
    number [JSON.parse] reads from a text of that value. *)

(** [b ^ e] for an exponent of either sign. *)
Definition power (b e : Z) : Q :=
  if 0 <=? e then inject_Z (b ^ e) else Qinv (inject_Z (b ^ (- e))).

(** The [e] with [2^e <= x < 2^(e+1)], for [x > 0]. *)
Definition binary_exponent (x : Q) : Z :=
  let e := Z.log2 (Qnum x) - Z.log2 (Zpos (Qden x)) in
  if Qle_bool (power 2 e) x then e else e - 1.

(** The nearest integer, the even one of two. *)
Definition nearest_even (x : Q) : Z :=
  let f := Qfloor x in
  match Qcompare (x - inject_Z f)%Q (1 # 2)%Q with
  | Lt => f
  | Gt => f + 1
  | Eq => if Z.even f then f else f + 1
  end.

(** The double nearest to [x > 0]: 53 bits, exponents from -1022 (below
    them the subnormal numbers) to 1023 (above them [Infinity], here
    [None]). *)
Definition to_double (x : Q) : option Q :=
  let ulp := power 2 (Z.max (binary_exponent x) (-1022) - 52) in
  let v := Qred (inject_Z (nearest_even (x / ulp)%Q) * ulp)%Q in
  if Qle_bool (power 2 1024) v then None else Some v.

Definition same_double (x : option Q) (v : Q) : bool :=
  match x with Some y => Qeq_bool y v | None => false end.

(** The [n] with [10^(n-1) <= v < 10^n], for [v > 0]. *)
Definition decimal_exponent (v : Q) : Z :=
  (fix up (fuel : nat) (n : Z) {struct fuel} : Z :=
     match fuel with
     | O => n
     | S fuel' => if Qle_bool (power 10 n) v then up fuel' (n + 1) else n
     end) 4%nat (binary_exponent v * 30103 / 100000).

(** The digits [s], their number [k] and the exponent [n] of the shortest
    decimal [s * 10^(n-k)] that reads back as the double [v > 0]: of two of
    one length the nearer, of two as near the even one. Seventeen digits
    tell any two doubles apart. *)
Fixpoint shortest (fuel : nat) (k n : Z) (v : Q) : Z * Z * Z :=
  let scale := power 10 (k - n) in
  let t := (v * scale)%Q in
  let lo := Qfloor t in
  let hi := lo + 1 in
  let below := same_double (to_double (inject_Z lo / scale)%Q) v in
  let above := same_double (to_double (inject_Z hi / scale)%Q) v in
  let up := if hi =? 10 ^ k then (10 ^ (k - 1), k, n + 1) else (hi, k, n) in
  let down := (lo, k, n) in
  match fuel with
  | O => down
  | S fuel' =>
      if below && above then
        match Qcompare (t - inject_Z lo)%Q (inject_Z hi - t)%Q with
        | Lt => down
        | Gt => up
        | Eq => if Z.even lo then down else up
        end
      else if below then down
      else if above then up
      else shortest fuel' (k + 1) n v
  end.

Fixpoint zeros (n : nat) : string :=
  match n with
  | O => EmptyString
  | S n' => String "0" (zeros n')
  end.

(** [Number::toString] of a double [v > 0]: plain digits up to 21 of them
    before the point and 6 zeros after it, the exponent form beyond. *)
Definition positive_toString (v : Q) : string :=
  let '(s, k, n) := shortest 17 1 (decimal_exponent v) v in
  let ds := Z_toString 10 s in
  if (k <=? n) && (n <=? 21) then (ds ++ zeros (Z.to_nat (n - k)))%string
  else if (0 <? n) && (n <=? 21)
  then (take (Z.to_nat n) ds ++ "." ++ drop (Z.to_nat n) ds)%string
  else if (-6 <? n) && (n <=? 0) then ("0." ++ zeros (Z.to_nat (- n)) ++ ds)%string
  else
    let e := n - 1 in
    let sign := if e <? 0 then "e-" else "e+" in
    let exponent := (sign ++ Z_toString 10 (Z.abs e))%string in
    if k =? 1 then (ds ++ exponent)%string
    else (take 1 ds ++ "." ++ drop 1 ds ++ exponent)%string.

(** [String(x)] for the number of value [x]. *)
Definition Number_toString (x : Q) : string :=
  let print (x : Q) : string :=
    match to_double x with
    | None => "Infinity"
    | Some v => if Qeq_bool v 0 then "0" else positive_toString v
    end in
  match Qcompare x 0 with
  | Eq => "0"
  | Gt => print x
  | Lt =>
      match to_double (- x)%Q with
      | Some v => if Qeq_bool v 0 then "0" else ("-" ++ print (- x)%Q)%string
      | None => ("-" ++ print (- x)%Q)%string
      end
  end.

(** [o.hasOwnProperty(k)] *)
Definition has_own (k : string) (fields : list (string * value)) : bool :=
  existsb (fun field => String.eqb k (fst field)) fields.

(** [String(v)], what [RegExp.prototype.test] and a template literal apply
    to a value that is no string. An array joins the texts of its elements
    (nothing for [undefined] and [null]). An object is asked for its
    [toString], then its [valueOf]: an object of [JSON.parse] inherits both
    from [Object.prototype], which print [[object Object]], unless a
    property [toString] of its own hides the first; such a property is no
    function, the inherited [valueOf] gives the object back, and the
    conversion throws a [TypeError]. *)
Fixpoint ToString (v : value) : result string :=
  match v with
  | VUndefined => Return "undefined"
  | VNull => Return "null"
  | VBool true => Return "true"
  | VBool false => Return "false"
  | VNum x => Return (Number_toString x)
  | VStr s => Return s
  | VArr elems =>
      (fix join (first : bool) (elems : list value) : result string :=
         match elems with
         | [] => Return EmptyString
         | e :: rest =>
             rbind (match e with
                    | VUndefined | VNull => Return EmptyString
                    | _ => ToString e
                    end) (fun text =>
             rbind (join false rest) (fun texts =>
             Return ((if first then EmptyString else ",") ++ text ++ texts)%string))
         end) true elems
  | VObj fields =>
      if has_own "toString" fields then Throw TypeError else Return "[object Object]"
  end.

(** *** Answers of the HTTP handlers *)

Record response : Type := { status : Z; body : value }.

(** [res.json(b)] answers with status 200, [res.status(n).json(b)] with [n]. *)
Definition json (b : value) : response := {| status := 200; body := b |}.
Definition status_json (n : Z) (b : value) : response := {| status := n; body := b |}.

End JS.

(** ** The stable question id *)

Module QuestionId.
Import Str Int32.

(** One turn of the loop: [hash = ((hash << 5) - hash) + chr; hash |= 0]. *)
Definition hash_step (hash chr : Z) : Z :=
  bor ((shl hash 5 - hash) + chr) 0.

Definition hash_of (raw : string) : Z := fold_left hash_step (codes raw) 0.

Definition generateQuestionId (cityPlaceId difficulty questionText : string) : string :=
  let raw := cityPlaceId ++ "|" ++ difficulty ++ "|" ++ questionText in
  JS.Z_toString 36 (Z.abs (hash_of raw)).

(** The hash in the words of the specification: [h = h*31 + charCode],
    wrapped to 32 bits, over the code units of the text. *)
Fixpoint rolling_hash (h : Z) (charCodes : list Z) : Z :=
  match charCodes with
  | [] => h
  | c :: rest => rolling_hash (toInt32 (h * 31 + c)) rest
  end.

(** The value of a text of base-36 digits, read from the left. *)
Definition digit_value (c : ascii) : Z :=
  if is_digit c then code c - 48 else code c - 87.

Fixpoint parse36_from (acc : Z) (s : string) : Z :=
  match s with
  | EmptyString => acc
  | String c rest => parse36_from (acc * 36 + digit_value c) rest
  end.

Definition parse36 (s : string) : Z := parse36_from 0 s.

Definition is_digit36 (c : ascii) : bool := is_digit c || is_lower c.

Fixpoint all_chars (p : ascii -> bool) (s : string) : bool :=
  match s with
  | EmptyString => true
  | String c rest => p c && all_chars p rest
  end.

End QuestionId.

(** ** Trivia questions: validation, shuffling, the distribution guard *)

Module Quiz.
Import Str Regex JS.

Notation "'let*' x ':=' m 'in' k" := (bind m (fun x => k))
  (at level 10, x name, m at level 100, k at level 200).
Notation "'let?' x ':=' r 'in' k" := (rbind r (fun x => k))
  (at level 10, x name, r at level 100, k at level 200).

(** [[indices[i], indices[j]] = [indices[j], indices[i]]]. Both reads are in
    range whenever [j <= i < indices.length], which the loop below ensures;
    out of range the list is left as it is. *)
Definition swap (indices : list Z) (i j : nat) : list Z :=
  match indices !! i, indices !! j with
  | Some a, Some b => <[j := a]> (<[i := b]> indices)
  | _, _ => indices
  end.

(** [for (let i = indices.length - 1; i > 0; i--) { ... }], from [i] down. *)
Fixpoint fisher_yates (i : nat) (indices : list Z) : M (list Z) :=
  match i with
  | O => ret indices
  | S i' =>
      let* r := Math_random in
      let j := Math_floor (r * inject_Z (Z.of_nat i + 1)) in
      fisher_yates i' (swap indices i (Z.to_nat j))
  end.

Definition shuffleOptions (q : value) : M value :=
  let* options := lift (get_prop q "options") in
  let* correctIndex := lift (get_prop q "correctIndex") in
  let* correctAnswer := lift (index options correctIndex) in
  let* indices := fisher_yates 3 [0; 1; 2; 3] in
  let* shuffled := lift (rmap (fun i => index options (VNum (inject_Z i))) indices) in
  ret (VObj (set_field "correctIndex" (VNum (inject_Z (indexOf shuffled correctAnswer)))
            (set_field "options" (VArr shuffled) (spread q)))).

Definition elements (v : value) : list value :=
  match v with VArr elems => elems | _ => [] end.

(** [new Set(xs).size] *)
Definition set_size (xs : list string) : Z :=
  Z.of_nat (size (list_to_set xs : gset string)).

Definition GENERIC_PATTERNS : list regex :=
  [ lit_i "what is the capital";
    lit_i "which currency";
    Seq (lit_i "what language") (Seq (Star dot) (lit_i "spoken"));
    lit_i "what continent";
    lit_i "what is the population";
    Seq (lit_i "which country") (Seq (Star dot) (lit_i "located")) ].

(** The body of the [try] of the filter of [validateTriviaQuestions]. *)
Definition trivia_checks (q : value) : result bool :=
  let? question := get_prop q "question" in
  let? options := get_prop q "options" in
  if negb (truthy question) || negb (isArray options)
     || negb (Z.of_nat (length (elements options)) =? 4)
  then Return false
  else
    let? correctIndex := get_prop q "correctIndex" in
    match correctIndex with
    | VNum x =>
        if negb (Qle_bool 0 x) || negb (Qle_bool x 3) then Return false
        else
          let? normalized :=
            rmap (fun o => let? l := call_toLowerCase o in call_trim (VStr l))
                 (elements options) in
          if negb (set_size normalized =? 4) then Return false
          else
            let? funFact := get_prop q "funFact" in
            if negb (truthy funFact) then Return false
            else
              let? trimmed := call_trim funFact in
              if len trimmed <? 5 then Return false
              else
                let? text := ToString question in
                if existsb (fun pat => test pat text) GENERIC_PATTERNS
                then Return false
                else Return true
    | _ => Return false
    end.

Definition trivia_filter (q : value) : bool := catch (trivia_checks q) false.

Definition validateTriviaQuestions (questions : list value) (poiNames : list string)
    : M (list value) :=
  let poiNamesLower := map toLowerCase poiNames in
  mapM shuffleOptions (List.filter trivia_filter questions).

(** [questions.every((q) => q.correctIndex === 0)] *)
Fixpoint every_index_zero (questions : list value) : result bool :=
  match questions with
  | [] => Return true
  | q :: rest =>
      let? correctIndex := get_prop q "correctIndex" in
      if strict_eq correctIndex (VNum 0) then every_index_zero rest else Return false
  end.

Definition checkAnswerDistribution (questions : list value) : result bool :=
  if Z.of_nat (length questions) <? 4 then Return true
  else
    let? allZero := every_index_zero questions in
    if allZero then Return false else Return true.

(** [if (!checkAnswerDistribution(questions)) questions = questions.map(shuffleOptions);] *)
Definition distribution_guard (questions : list value) : M (list value) :=
  let* ok := lift (checkAnswerDistribution questions) in
  if negb ok then mapM shuffleOptions questions else ret questions.

(** *** What the specification asks of a served question

    Exactly four options, pairwise distinct after lowering and trimming, a
    numeric [correctIndex] among [lo..3] (the specification has [lo = 0]) and
    a fun fact of at least five characters once trimmed. *)

Definition valid_question_from (lo : Z) (r : value) : Prop :=
  exists (texts : list string) (k : Z) (funFact : string),
    get_prop r "options" = Return (VArr (map VStr texts))
    /\ length texts = 4%nat
    /\ NoDup (map normalize texts)
    /\ get_prop r "correctIndex" = Return (VNum (inject_Z k))
    /\ lo <= k <= 3
    /\ get_prop r "funFact" = Return (VStr funFact)
    /\ 5 <= len (trim funFact).

Definition valid_question : value -> Prop := valid_question_from 0.

(** A candidate the model may send: well formed but for its index [3/2]. *)
Definition fractional_candidate : value :=
  VObj [ ("question", VStr "Which tower opened in 1889?");
         ("options", VArr [VStr "Eiffel Tower"; VStr "Tokyo Tower";
                           VStr "Willis Tower"; VStr "CN Tower"]);
         ("correctIndex", VNum (3 # 2));
         ("funFact", VStr "It opened in 1889.") ].

(** *** The curated questions and the fallback *)

Definition mk_question (question : string) (options : list string)
    (correctIndex : Z) (funFact : string) : value :=
  VObj [ ("question", VStr question);
         ("options", VArr (map VStr options));
         ("correctIndex", VNum (inject_Z correctIndex));
         ("funFact", VStr funFact) ].

Definition CURATED_QUESTIONS : list (string * list value) :=
  [
  ("new york",
    [
      mk_question "What year was the Statue of Liberty dedicated?"
        ["1876"; "1886"; "1896"; "1906"] 1
        "The statue was a gift from France to the United States.";
      mk_question "Which borough of New York is the most populous?"
        ["Manhattan"; "Queens"; "Brooklyn"; "The Bronx"] 2
        "Brooklyn would be the fourth-largest city in the US if it were independent.";
      mk_question "What was Times Square originally called?"
        ["Herald Square"; "Longacre Square"; "Madison Square"; "Union Square"] 1
        "It was renamed in 1904 after The New York Times moved its headquarters there.";
      mk_question "How long is the Brooklyn Bridge?"
        ["1,825 feet"; "3,460 feet"; "5,989 feet"; "8,120 feet"] 2
        "When completed in 1883, it was the longest suspension bridge in the world.";
      mk_question "Which park is the largest in Manhattan?"
        ["Central Park"; "Riverside Park"; "Inwood Hill Park"; "Battery Park"] 0
        "Central Park spans 843 acres and was the first public park in America.";
      mk_question "What style of pizza is New York famous for?"
        ["Deep dish"; "Thin crust foldable slices"; "Sicilian square"; "Stuffed crust"] 1
        "New York-style pizza is characterized by its large, foldable slices with a thin, crispy crust.";
      mk_question "Which museum has the Temple of Dendur?"
        ["MoMA"; "The Met"; "Guggenheim"; "Whitney"] 1
        "The temple is over 2,000 years old and was gifted by Egypt in 1965.";
      mk_question "How many islands make up New York City?"
        ["1"; "3"; "5"; "Over 40"] 3
        "NYC sits on over 40 islands, including Manhattan, Staten Island, and Roosevelt Island." ]);
  ("paris",
    [
      mk_question "In what year was the Eiffel Tower completed?"
        ["1879"; "1889"; "1899"; "1909"] 1
        "The tower was built for the 1889 World's Fair and was initially criticized by many Parisians.";
      mk_question "How many artworks does the Louvre house?"
        ["38,000"; "100,000"; "280,000"; "Over 380,000"] 3
        "It would take about 200 days to see every piece spending 30 seconds on each.";
      mk_question "What river runs through Paris?"
        ["Rhine"; "Loire"; "Seine"; "Danube"] 2
        "The Seine divides Paris into the Left Bank and Right Bank.";
      mk_question "When did construction of Notre-Dame begin?"
        ["963 AD"; "1063 AD"; "1163 AD"; "1263 AD"] 2
        "It took nearly 200 years to complete the cathedral.";
      mk_question "What keeps Sacre-Coeur white?"
        ["Annual painting"; "Calcite in the stone"; "Marble cladding"; "Regular bleaching"] 1
        "The stone exudes calcite when it rains, naturally whitening the basilica.";
      mk_question "Who created the Jardin du Luxembourg?"
        ["Louis XIV"; "Napoleon"; "Marie de Medici"; "Baron Haussmann"] 2
        "The gardens were inspired by the Boboli Gardens in Florence.";
      mk_question "Which arrondissement is the Latin Quarter in?"
        ["1st"; "5th"; "10th"; "16th"] 1
        "It is called the Latin Quarter because Latin was the language of learning there for centuries.";
      mk_question "How tall is the Eiffel Tower?"
        ["224 meters"; "270 meters"; "330 meters"; "400 meters"] 2
        "The tower grows about 15 cm taller in summer due to thermal expansion of the iron." ]);
  ("rome",
    [
      mk_question "How many spectators could the Colosseum hold?"
        ["25,000"; "50,000"; "80,000"; "120,000"] 1
        "The Colosseum could even be flooded for mock naval battles.";
      mk_question "Who painted the Sistine Chapel ceiling?"
        ["Leonardo da Vinci"; "Raphael"; "Michelangelo"; "Caravaggio"] 2
        "Michelangelo painted it while standing, not lying on his back as commonly believed.";
      mk_question "How much money is thrown into the Trevi Fountain daily?"
        ["About 300 euros"; "About 1,000 euros"; "About 3,000 euros"; "About 10,000 euros"] 2
        "The collected coins are donated to Caritas, a Catholic charity.";
      mk_question "What is the hole at the top of the Pantheon called?"
        ["Cupola"; "Oculus"; "Rotunda"; "Atrium"] 1
        "The oculus is the Pantheon's only source of natural light and lets in rain and sunlight.";
      mk_question "What does 'Trastevere' mean?"
        ["Old town"; "Beyond the Tiber"; "Holy ground"; "Market place"] 1
        "Trastevere was historically home to Rome's working class.";
      mk_question "How old is the Pantheon approximately?"
        ["1,000 years"; "1,500 years"; "2,000 years"; "2,500 years"] 2
        "It has the world's largest unreinforced concrete dome, a feat of ancient engineering.";
      mk_question "Which hill is NOT one of the seven hills of Rome?"
        ["Palatine"; "Aventine"; "Capitoline"; "Vatican"] 3
        "Vatican Hill is west of the Tiber and was not part of the original seven hills.";
      mk_question "What is a traditional Roman pasta dish?"
        ["Pesto Genovese"; "Cacio e Pepe"; "Bolognese"; "Puttanesca"] 1
        "Cacio e Pepe means 'cheese and pepper' and uses just three ingredients." ]);
  ("tokyo",
    [
      mk_question "How old is Senso-ji Temple?"
        ["About 500 years"; "About 900 years"; "About 1,400 years"; "About 2,000 years"] 2
        "Senso-ji was founded in 645 AD, making it Tokyo's oldest temple.";
      mk_question "How many trees are in Meiji Shrine's forest?"
        ["10,000"; "50,000"; "120,000"; "300,000"] 2
        "All 120,000 trees were donated from across Japan when the shrine was built.";
      mk_question "How many people cross Shibuya Crossing at once?"
        ["500"; "1,000"; "3,000"; "5,000"] 2
        "It is often called 'The Scramble' and is one of the most filmed locations in the world.";
      mk_question "What was the original name of Tokyo?"
        ["Osaka"; "Kyoto"; "Edo"; "Nara"] 2
        "Edo was renamed Tokyo, meaning 'Eastern Capital,' in 1868.";
      mk_question "Why is Tokyo Tower painted orange and white?"
        ["Cultural tradition"; "Aviation safety"; "Imperial decree"; "Artistic choice"] 1
        "The colors comply with international aviation safety regulations.";
      mk_question "When did Shinjuku Gyoen open to the public?"
        ["1889"; "1919"; "1949"; "1969"] 2
        "It was originally a private garden for the Imperial family.";
      mk_question "What is the busiest train station in the world?"
        ["Tokyo Station"; "Shibuya Station"; "Shinjuku Station"; "Ikebukuro Station"] 2
        "Shinjuku Station handles over 3.5 million passengers daily.";
      mk_question "Which traditional market moved to Toyosu?"
        ["Ameyoko"; "Tsukiji inner market"; "Nakamise"; "Omotesando"] 1
        "The outer market at Tsukiji still operates with over 400 shops." ]);
  ("chicago",
    [
      mk_question "What is Cloud Gate commonly known as?"
        ["The Mirror"; "The Bean"; "The Drop"; "The Orb"] 1
        "Cloud Gate is made of 168 stainless steel plates welded together with no visible seams.";
      mk_question "When was Willis Tower the world's tallest building?"
        ["1963-1988"; "1973-1998"; "1983-2008"; "1993-2010"] 1
        "Willis Tower held the record for 25 years until the Petronas Towers surpassed it.";
      mk_question "What color is the Chicago River dyed on St. Patrick's Day?"
        ["Blue"; "Orange"; "Green"; "Gold"] 2
        "The tradition of dyeing the river green has been going on since 1962.";
      mk_question "What style of pizza is Chicago famous for?"
        ["Thin crust"; "Deep dish"; "Neapolitan"; "Flatbread"] 1
        "Deep dish pizza was invented at Pizzeria Uno in Chicago in 1943.";
      mk_question "When was Navy Pier originally built?"
        ["1896"; "1906"; "1916"; "1926"] 2
        "Navy Pier served as a Navy training center during World War II.";
      mk_question "What is Chicago's nickname?"
        ["The Big Apple"; "The Windy City"; "Motor City"; "The Gateway"] 1
        "The nickname may refer to boastful politicians rather than actual wind.";
      mk_question "Which famous architect designed many buildings in Chicago?"
        ["Frank Gehry"; "Frank Lloyd Wright"; "I.M. Pei"; "Zaha Hadid"] 1
        "Wright's Home and Studio in Oak Park is one of Chicago's most visited landmarks.";
      mk_question "What body of water borders Chicago?"
        ["Lake Erie"; "Lake Huron"; "Lake Michigan"; "Lake Superior"] 2
        "Chicago's lakefront trail stretches 18 miles along the shores of Lake Michigan." ])
  ].


Definition generic_questions (city : string) : list value :=
  [ mk_question ("What is a common way to explore " ++ city ++ "?")
      ["Walking tour"; "Submarine ride"; "Private helicopter"; "Hot air balloon"] 0
      "Walking tours are one of the best ways to discover hidden gems in any city.";
    mk_question ("What should travelers try when visiting " ++ city ++ "?")
      ["Local cuisine"; "Only chain restaurants"; "Only hotel food"; "Packaged snacks"] 0
      "Trying local food is often the highlight of any trip.";
    mk_question ("Which is the best way to learn about " ++ city ++ "'s culture?")
      ["Visit local museums"; "Stay at the hotel"; "Only read guidebooks"; "Watch TV"] 0
      "Museums offer fascinating insights into a city's culture and heritage.";
    mk_question ("What makes " ++ city ++ " a popular travel destination?")
      ["Rich history and culture"; "Free hotels"; "No other cities nearby";
       "Mandatory visits"] 0
      "Cities with diverse cultural offerings tend to attract the most visitors.";
    mk_question ("What is often found in " ++ city ++ "'s historic districts?")
      ["Traditional architecture"; "Only modern buildings"; "Empty lots";
       "Parking garages"] 0
      "Historic districts preserve the architectural heritage that tells a city's story." ].

Fixpoint first_curated (key : string) (table : list (string * list value))
    : option (list value) :=
  match table with
  | [] => None
  | (name, questions) :: rest =>
      if includes key name || includes name key then Some questions
      else first_curated key rest
  end.

Definition getFallbackQuestions (city : string) : list value :=
  let key := trim (toLowerCase city) in
  match first_curated key CURATED_QUESTIONS with
  | Some questions => questions
  | None => generic_questions city
  end.

(** The shape every fallback question has, as a test: an object with four
    texts as options, pairwise distinct once normalized, an integral index
    among 0..3 and a fun fact of five characters or more. *)
Fixpoint texts_of (elems : list value) : option (list string) :=
  match elems with
  | [] => Some []
  | VStr s :: rest =>
      match texts_of rest with
      | Some texts => Some (s :: texts)
      | None => None
      end
  | _ :: _ => None
  end.

Definition fallback_shape (q : value) : bool :=
  match q with
  | VObj fields =>
      match lookup_field "options" fields, lookup_field "correctIndex" fields,
            lookup_field "funFact" fields with
      | VArr elems, VNum x, VStr funFact =>
          match texts_of elems with
          | Some texts =>
              (length texts =? 4)%nat
              && (set_size (map normalize texts) =? 4)
              && is_integer x && Qle_bool 0 x && Qle_bool x 3
              && (5 <=? len (trim funFact))
          | None => false
          end
      | _, _, _ => false
      end
  | _ => false
  end.

(** A question of the fallback list asks a text. *)
Definition asks_text (q : value) : bool :=
  match q with
  | VObj fields => is_string (lookup_field "question" fields)
  | _ => false
  end.

(** *** The handler of [POST /api/quiz/generate] *)

Section Handler.

(** What follows the check of [city] in the [try] block: resolving the
    city, the caches, the call of the language model, validation and the
    answer. It is the environment's, and it may throw. *)
Variable generation : value -> M response.

Definition quiz_try (req_body : value) : M response :=
  let* city := lift (get_prop req_body "city") in
  if negb (truthy city) || negb (is_string city)
  then ret (status_json 400 (VObj [("error", VStr "City is required")]))
  else generation req_body.

Definition quiz_catch (req_body : value) : M response :=
  let city := or_else (get_prop_opt req_body "city") (VStr "the city") in
  let reqCityPlaceId := get_prop_opt req_body "cityPlaceId" in
  if truthy reqCityPlaceId then
    ret (status_json 503
           (VObj [ ("error", VStr "Quiz generation temporarily unavailable. Please try again.");
                   ("questions", VArr []);
                   ("questionIds", VArr []);
                   ("poolExhausted", VBool false);
                   ("source", VStr "error") ]))
  else
    let* fallback :=
      lift (match city with
            | VStr c => Return (getFallbackQuestions c)
            | _ => Throw TypeError
            end) in
    let* questions := mapM shuffleOptions fallback in
    ret (json (VObj [ ("questions", VArr questions);
                      ("questionIds", VArr []);
                      ("poolExhausted", VBool false);
                      ("source", VStr "fallback") ])).

Definition quiz_generate (req_body : value) : M response :=
  try_catch (quiz_try req_body) (fun _ => quiz_catch req_body).

End Handler.

End Quiz.

(** ** Defensive parsing of the model's output *)

Module Parse.
Import Str Regex JS.

Definition LF : ascii := chr 10.

(** [/```json\n?/g] and [/```\n?/g] *)
Definition re_fence_json : regex := Seq (lit "```json") (opt (char LF)).
Definition re_fence : regex := Seq (lit "```") (opt (char LF)).

(** [/\[[\s\S]*\]/] and [/\{[\s\S]*\}/] *)
Definition re_array : regex := Seq (char "[") (Seq (Star any) (char "]")).
Definition re_object : regex := Seq (char "{") (Seq (Star any) (char "}")).

(** [try { r } catch { h }] *)
Definition try_or {A} (r h : result A) : result A :=
  match r with
  | Return a => Return a
  | Throw _ => h
  end.

Section SafeJsonParse.

(** [JSON.parse] of the engine: a value, or a [SyntaxError]. *)
Variable JSON_parse : string -> result value.

Definition safeJsonParse (text : string) : result value :=
  try_or
    (let cleaned := trim (delete_all re_fence (delete_all re_fence_json text)) in
     JSON_parse cleaned)
    (match exec re_array text with
     | Some m => try_or (JSON_parse m) (Return VNull)
     | None =>
         match exec re_object text with
         | Some m => try_or (JSON_parse m) (Return VNull)
         | None => Return VNull
         end
     end).

(** The quiz path: [let parsed = safeJsonParse(content);
    if (!Array.isArray(parsed)) parsed = parsed?.questions || [];] and the
    list [validateTriviaQuestions] then filters ([parsed.filter] throws on
    a value that is no array). *)
Definition parsed_questions (content : string) : result (list value) :=
  rbind (safeJsonParse content) (fun parsed =>
    let parsed :=
      if isArray parsed then parsed
      else or_else (get_prop_opt parsed "questions") (VArr []) in
    match parsed with
    | VArr questions => Return questions
    | _ => Throw TypeError
    end).

End SafeJsonParse.

(** *** What the specification says of the parsing, in its words

    "Strip code-fence markers": the text without the markers [```json] and
    [```], each taken with the line feed behind it when there is one, and
    without the white space at its ends. "The first array or object": the
    text from the first opening bracket to the last closing bracket behind
    it. *)

(** What is left behind a marker: the text behind it and behind the line
    feed that follows it, if one does. *)
Definition behind (marker s : string) : string :=
  match drop (String.length marker) s with
  | String c t => if Ascii.eqb c LF then t else String c t
  | EmptyString => EmptyString
  end.

(** [s] read from the left, every marker found left out; [fuel] bounds the
    length of [s]. *)
Fixpoint without_marker (fuel : nat) (marker s : string) : string :=
  match fuel with
  | O => s
  | S fuel' =>
      if startsWith marker s then without_marker fuel' marker (behind marker s)
      else
        match s with
        | EmptyString => EmptyString
        | String c t => String c (without_marker fuel' marker t)
        end
  end.

Definition without (marker s : string) : string :=
  without_marker (String.length s) marker s.

Definition strip_fences (text : string) : string :=
  trim (without "```" (without "```json" text)).

(** The text behind the first [c]. *)
Fixpoint from_first (c : ascii) (s : string) : option string :=
  match s with
  | EmptyString => None
  | String x t => if Ascii.eqb c x then Some t else from_first c t
  end.

(** The text up to the last [c], that [c] included. *)
Fixpoint up_to_last (c : ascii) (s : string) : option string :=
  match s with
  | EmptyString => None
  | String x t =>
      match up_to_last c t with
      | Some p => Some (String x p)
      | None => if Ascii.eqb c x then Some (String x EmptyString) else None
      end
  end.

Definition first_bracketed (opening closing : ascii) (text : string) : option string :=
  match from_first opening text with
  | Some t =>
      match up_to_last closing t with
      | Some p => Some (String opening p)
      | None => None
      end
  | None => None
  end.

(** The two shapes of the expressions of [safeJsonParse], and what their
    runs go through: the cursors behind [s], the last one first, and the
    character read last by a literal. *)
Definition fence (marker : string) : regex := Seq (lit marker) (opt (char LF)).

Definition bracket (opening closing : ascii) : regex :=
  Seq (char opening) (Seq (Star any) (char closing)).

Fixpoint ends (prev : option ascii) (s : string) : list cursor :=
  match s with
  | EmptyString => [(prev, EmptyString)]
  | String c t => (ends (Some c) t ++ [(prev, s)])%list
  end.

Fixpoint last_read (prev : option ascii) (m : string) : option ascii :=
  match m with
  | EmptyString => prev
  | String c m' => last_read (Some c) m'
  end.

(** A stand-in for [JSON.parse] in examples: it knows the empty array and
    the empty object and throws on every other text. *)
Definition parse_empty_only (s : string) : result value :=
  if String.eqb s "[]" then Return (VArr [])
  else if String.eqb s "{}" then Return (VObj [])
  else Throw SyntaxError.

(** A stand-in that knows, besides, the object [{"questions":[]}]. *)
Definition double_quote : string := String (chr 34) EmptyString.

Definition questions_text : string := "{" ++ double_quote ++ "questions" ++ double_quote ++ ":[]}".

Definition parse_questions_object (s : string) : result value :=
  if String.eqb s questions_text then Return (VObj [("questions", VArr [])])
  else parse_empty_only s.

(** The object above between code fences. *)
Definition fenced_questions : string :=
  "```json" ++ String LF questions_text ++ String LF "```".

End Parse.

(** ** Suggestions: validation and ranking *)

Module Suggestions.
Import Str JS.

(** [set.has(v)] for a set of strings *)
Definition has (set : gset string) (v : value) : bool :=
  match v with
  | VStr s => bool_decide (s ∈ set)
  | _ => false
  end.

(** The body of the [try] of the filter of [validateSuggestions], with the
    set [seen] it reads and, when the entry is kept, extends. *)
Definition suggestion_checks (titleSet placeIdSet seen : gset string) (s : value)
    : result (bool * gset string) :=
  rbind (get_prop s "title") (fun title =>
  rbind (get_prop s "description") (fun description =>
  rbind (get_prop s "category") (fun category =>
  if negb (truthy title) || negb (truthy description) || negb (truthy category)
  then Return (false, seen)
  else
    rbind (call_toLowerCase title) (fun lower =>
    let key := trim lower in
    if bool_decide (key ∈ titleSet) || bool_decide (key ∈ seen)
    then Return (false, seen)
    else
      rbind (get_prop s "placeId") (fun placeId =>
      if truthy placeId && has placeIdSet placeId then Return (false, seen)
      else Return (true, {[key]} ∪ seen)))))).

Fixpoint filter_seen (titleSet placeIdSet seen : gset string) (suggestions : list value)
    : list value :=
  match suggestions with
  | [] => []
  | s :: rest =>
      let '(keep, seen') := catch (suggestion_checks titleSet placeIdSet seen s) (false, seen) in
      if keep then s :: filter_seen titleSet placeIdSet seen' rest
      else filter_seen titleSet placeIdSet seen' rest
  end.

Definition titleSet_of (excludeTitles : list string) : gset string :=
  list_to_set (map (fun t => trim (toLowerCase t)) excludeTitles).

Definition placeIdSet_of (excludePlaceIds : list string) : gset string :=
  list_to_set (List.filter non_empty excludePlaceIds).

Definition validateSuggestions (suggestions : list value)
    (excludeTitles excludePlaceIds : list string) : list value :=
  filter_seen (titleSet_of excludeTitles) (placeIdSet_of excludePlaceIds) ∅ suggestions.

(** What the specification asks of an entry [s] that is returned, whose
    title is [t]: a non-empty title, a description and a category that are
    not empty (truthy), a normalized title outside the excluded titles and a
    [placeId] outside the excluded place ids. *)
Definition kept_entry (titleSet placeIdSet : gset string) (s : value) (t : string) : Prop :=
  get_prop s "title" = Return (VStr t)
  /\ t <> EmptyString
  /\ (exists d, get_prop s "description" = Return d /\ truthy d = true)
  /\ (exists c, get_prop s "category" = Return c /\ truthy c = true)
  /\ (normalize t ∉ titleSet)
  /\ (forall p, get_prop s "placeId" = Return (VStr p) -> p ∉ placeIdSet).

(** *** Ranking *)

Record GooglePlaceResult : Type := {
  title : string;
  lat : Q;
  lng : Q;
  category : string;
  address : string;
  placeId : string;
  rating : Q;
  userRatingCount : Q
}.

(** An element of [ranked]: [{ ...p, distanceKm, popularityScore }], where
    [distanceKm] is [null] when no hotel was located. *)
Record Ranked : Type := {
  place : GooglePlaceResult;
  distanceKm : option Q;
  popularityScore : Q
}.

(** [arr.sort(cmp)]: the sort of the engine is stable; it is given here as
    the insertion sort that puts an element in front of the first element
    it does not follow. *)
Fixpoint insert_by {A} (cmp : A -> A -> Q) (x : A) (sorted : list A) : list A :=
  match sorted with
  | [] => [x]
  | y :: rest =>
      if Qle_bool (cmp x y) 0 then x :: y :: rest else y :: insert_by cmp x rest
  end.

Fixpoint sort_by {A} (cmp : A -> A -> Q) (arr : list A) : list A :=
  match arr with
  | [] => []
  | x :: rest => insert_by cmp x (sort_by cmp rest)
  end.

(** [arr.findIndex(p)] *)
Fixpoint findIndex_from {A} (i : Z) (p : A -> bool) (arr : list A) : Z :=
  match arr with
  | [] => -1
  | x :: rest => if p x then i else findIndex_from (i + 1) p rest
  end.

Definition findIndex {A} (p : A -> bool) (arr : list A) : Z := findIndex_from 0 p arr.

Definition popValues_of (ranked : list Ranked) : list Q :=
  sort_by (fun a b => a - b)%Q (map popularityScore ranked).

Definition getBucket (popValues : list Q) (score : Q) : Z :=
  let idx := findIndex (fun v => Qle_bool score v) popValues in
  let n := Z.of_nat (length popValues) in
  Math_floor (inject_Z (if idx =? -1 then n else idx) / inject_Z n * 10)%Q.

(** The comparator of [ranked.sort]. *)
Definition compare_ranked (popValues : list Q) (a b : Ranked) : Q :=
  let bucketA := getBucket popValues (popularityScore a) in
  let bucketB := getBucket popValues (popularityScore b) in
  if negb (bucketB =? bucketA) then inject_Z (bucketB - bucketA)
  else
    match distanceKm a, distanceKm b with
    | Some da, Some db => (da - db)%Q
    | _, _ => 0%Q
    end.

Definition rank (ranked : list Ranked) : list Ranked :=
  sort_by (compare_ranked (popValues_of ranked)) ranked.

(** [a] is not after [b] for the comparator [cmp]. *)
Definition not_after {A} (cmp : A -> A -> Q) (a b : A) : Prop := (cmp a b <= 0)%Q.

(** The distance of a place is known when a hotel was located, and then it
    is known for every place of the pool. *)
Definition known (r : Ranked) : Prop := exists d, distanceKm r = Some d.
Definition unknown (r : Ranked) : Prop := distanceKm r = None.

End Suggestions.

(** ** The geocode endpoint and its cache

    The handler is asynchronous: it runs up to its [await fetch(...)], other
    requests may be handled while the provider works, and it resumes when
    the fetch settles. The embedding is the transition system of these two
    kinds of step over the cache and the requests in flight. *)

Module Geocode.
Import Str JS.

(** A coordinate is what [parseFloat] returns: a number, or [NaN] ([None]). *)
Record coords : Type := { lat : option Q; lng : option Q }.

Definition number_json (x : option Q) : value :=
  match x with
  | Some q => VNum q
  | None => VNull
  end.

Definition coords_json (c : coords) : value :=
  VObj [("lat", number_json (lat c)); ("lng", number_json (lng c))].

(** A request waiting for the provider: the key it will store under. *)
Record inflight : Type := { cacheKey : string; asked : string }.

Record state : Type := {
  geocodeCache : gmap string (option coords);
  waiting : list inflight
}.

(** [Arrive b t]: a request with body [b] arrives at time [t].
    [Settle i r t]: at time [t] the fetch of the [i]-th waiting request
    settles with [r], the parsed JSON of the answer or the exception of
    [fetch] or [response.json()]. The handler has no clock: no step reads
    [t]. *)
Inductive event : Type :=
| Arrive (req_body : value) (time : Z)
| Settle (i : nat) (outcome : result value) (time : Z).

(** What a step does to the outside: the answer sent, if one is, and the
    query sent to the provider, if one is. *)
Record effect : Type := {
  answer : option response;
  query : option string
}.

Definition answers (r : response) : effect := {| answer := Some r; query := None |}.

Definition not_found : response :=
  status_json 404 (VObj [("error", VStr "Location not found")]).

Definition address_required : response :=
  status_json 400 (VObj [("error", VStr "Address is required")]).

(** The [catch] of the handler. *)
Definition on_error (e : exn) : response :=
  match e with
  | AbortError => status_json 504 (VObj [("error", VStr "Geocoding timed out")])
  | _ => status_json 500 (VObj [("error", VStr "Geocoding failed")])
  end.

(** What a cache entry answers. *)
Definition cached_answer (entry : option coords) : response :=
  match entry with
  | Some cached => json (coords_json cached)
  | None => not_found
  end.

(** The entry of [key] is stored and no request for [key] waits for the
    provider. *)
Definition settled (key : string) (entry : option coords) (st : state) : Prop :=
  geocodeCache st !! key = Some entry
  /\ Forall (fun w => cacheKey w <> key) (waiting st).

Section Handler.

(** [parseFloat] of the engine. *)
Variable parseFloat : value -> option Q.

(** The handler up to its first [await]. *)
Definition arrive (st : state) (req_body : value) : state * effect :=
  match get_prop req_body "address" with
  | Throw e => (st, answers (on_error e))
  | Return address =>
      match address with
      | VStr a =>
          if negb (truthy address) then (st, answers address_required)
          else
            let key := trim (toLowerCase a) in
            match geocodeCache st !! key with
            | Some entry => (st, answers (cached_answer entry))
            | None =>
                ({| geocodeCache := geocodeCache st;
                    waiting := (waiting st ++ [{| cacheKey := key; asked := a |}])%list |},
                 {| answer := None; query := Some a |})
            end
      | _ => (st, answers address_required)
      end
  end.

(** The handler from the settled fetch on, for the waiting request [w]. *)
Definition resume (cache : gmap string (option coords)) (w : inflight)
    (outcome : result value) : gmap string (option coords) * response :=
  match outcome with
  | Throw e => (cache, on_error e)
  | Return results =>
      match results with
      | VArr (first :: _) =>
          match get_prop first "lat", get_prop first "lon" with
          | Return la, Return lo =>
              let c := {| lat := parseFloat la; lng := parseFloat lo |} in
              (<[cacheKey w := Some c]> cache, json (coords_json c))
          | Throw e, _ | _, Throw e => (cache, on_error e)
          end
      | _ => (<[cacheKey w := None]> cache, not_found)
      end
  end.

Definition step (st : state) (ev : event) : state * effect :=
  match ev with
  | Arrive req_body _ => arrive st req_body
  | Settle i outcome _ =>
      match waiting st !! i with
      | Some w =>
          let '(cache, r) := resume (geocodeCache st) w outcome in
          ({| geocodeCache := cache; waiting := delete i (waiting st) |}, answers r)
      | None => (st, {| answer := None; query := None |})
      end
  end.

(** The state after a sequence of events. *)
Definition run_events (st : state) (evs : list event) : state :=
  fold_left (fun st ev => fst (step st ev)) evs st.

End Handler.

End Geocode.


(** ** The plain validator and the count of grounded questions *)

Module Validators.
Import Str Regex JS Quiz.

(** The body of the [try] of the filter of [validateQuestions]. *)
Definition questions_checks (q : value) : result bool :=
  rbind (get_prop q "question") (fun question =>
  rbind (get_prop q "options") (fun options =>
  if negb (truthy question) || negb (isArray options)
     || negb (Z.of_nat (length (elements options)) =? 4)
  then Return false
  else
    rbind (get_prop q "correctIndex") (fun correctIndex =>
    match correctIndex with
    | VNum x =>
        if negb (Qle_bool 0 x) || negb (Qle_bool x 3) then Return false
        else
          rbind (rmap (fun o => rbind (call_toLowerCase o) (fun l => call_trim (VStr l)))
                      (elements options)) (fun normalized =>
          if negb (set_size normalized =? 4) then Return false
          else
            rbind (get_prop q "funFact") (fun funFact =>
            if negb (truthy funFact) then Return false
            else
              rbind (call_trim funFact) (fun trimmed =>
              if len trimmed <? 5 then Return false else Return true)))
    | _ => Return false
    end))).

Definition questions_filter (q : value) : bool := catch (questions_checks q) false.

Definition validateQuestions (questions : list value) : M (list value) :=
  mapM shuffleOptions (List.filter questions_filter questions).

(** Whether the loop over [GENERIC_PATTERNS] stops the candidate [q]: a
    pattern matches the text of its question, or the question has no text,
    [pat.test] throws and the [catch] of the filter answers false. *)
Definition stopped_by_patterns (q : value) : bool :=
  match get_prop q "question" with
  | Return question =>
      match ToString question with
      | Return text => existsb (fun pat => test pat text) GENERIC_PATTERNS
      | Throw _ => true
      end
  | Throw _ => false
  end.

(** The patterns of [GENERIC_PATTERNS] that are one phrase. *)
Definition GENERIC_PHRASES : list string :=
  [ "what is the capital"; "which currency"; "what continent"; "what is the population" ].

(** [countPOIReferences]: the text of a question is its question and its
    options, lowered and joined by spaces; [q.question.toLowerCase()] and
    [o.toLowerCase()] throw on what is no string, [q.options.map] on what is
    no array. *)
Fixpoint join_space (ss : list string) : string :=
  match ss with
  | [] => EmptyString
  | [s] => s
  | s :: rest => s ++ " " ++ join_space rest
  end.

Definition all_text (q : value) : result string :=
  rbind (get_prop q "question") (fun question =>
  rbind (call_toLowerCase question) (fun qLower =>
  rbind (get_prop q "options") (fun options =>
  match options with
  | VArr elems =>
      rbind (rmap call_toLowerCase elems) (fun lowered =>
      Return (qLower ++ " " ++ join_space lowered))
  | _ => Throw TypeError
  end))).

Fixpoint count_references (poiNamesLower : list string) (questions : list value) (count : Z)
    : result Z :=
  match questions with
  | [] => Return count
  | q :: rest =>
      rbind (all_text q) (fun allText =>
      if existsb (fun name => includes allText (toLowerCase name)) poiNamesLower
      then count_references poiNamesLower rest (count + 1)
      else count_references poiNamesLower rest count)
  end.

Definition countPOIReferences (questions : list value) (poiNames : list string) : result Z :=
  let poiNamesLower := map toLowerCase poiNames in
  count_references poiNamesLower questions 0.

(** [w] is [phrase] but for the case of the letters a-z: what the [i] flag
    lets a phrase of a pattern match. *)
Fixpoint ci_eq (phrase w : string) : bool :=
  match phrase, w with
  | EmptyString, EmptyString => true
  | String c phrase', String x w' =>
      Ascii.eqb (upper_ascii x) (upper_ascii c) && ci_eq phrase' w'
  | _, _ => false
  end.

Definition contains_ci (text phrase : string) : Prop :=
  exists pre w post, text = (pre ++ w ++ post)%string /\ ci_eq phrase w = true.

Fixpoint every_char (p : ascii -> bool) (s : string) : bool :=
  match s with
  | EmptyString => true
  | String c rest => p c && every_char p rest
  end.

Definition no_line_break (c : ascii) : bool := negb ((code c =? 10) || (code c =? 13)).

(** [text] holds [a], then [b] later on the same line, up to case. *)
Definition spans_ci (text a b : string) : Prop :=
  exists pre wa mid wb post,
    text = (pre ++ wa ++ mid ++ wb ++ post)%string
    /\ ci_eq a wa = true /\ ci_eq b wb = true /\ every_char no_line_break mid = true.

(** The iteration of the greedy star, by name: [run (Star r) st] is
    [star_iter r (String.length (snd st)) st]. *)
Fixpoint star_iter (r : regex) (n : nat) (st : cursor) : list cursor :=
  match n with
  | O => [st]
  | S n' => (flat_map (star_iter r n') (List.filter (shorter st) (run r st)) ++ [st])%list
  end.

End Validators.


(** ** The answer of [POST /api/quiz/generate]

    The [try] block of the handler from the cache of trivia pools on: the
    city is resolved, and its label, place id and places are at hand. The
    world of the handler is the random source, the cache, the clock and the
    language model, which answers each call with a text or an exception
    after some time. *)

Module QuizAnswer.
Import Str Regex JS Quiz Parse QuestionId.

Definition TRIVIA_POOL_TTL : Z := 24 * 60 * 60 * 1000.

(** An entry of [triviaPoolCache]: [{ questions, ts }]. *)
Record pool_entry : Type := { pool_questions : list value; pool_ts : Z }.

Record world : Type := {
  rand : Rand;
  triviaPoolCache : gmap string pool_entry;
  now : Z;
  model_calls : nat
}.

Definition W (A : Type) : Type := world -> result A * world.

Definition wret {A} (a : A) : W A := fun w => (Return a, w).

Definition wbind {A B} (m : W A) (f : A -> W B) : W B :=
  fun w =>
    match m w with
    | (Return a, w') => f a w'
    | (Throw e, w') => (Throw e, w')
    end.

Notation "'do' x '<-' m ';' k" := (wbind m (fun x => k))
  (at level 10, x name, m at level 100, k at level 200).

(** A computation that only draws random numbers, and one that only may
    throw. *)
Definition of_M {A} (m : M A) : W A :=
  fun w =>
    let '(r, g) := m (rand w) in
    (r, {| rand := g; triviaPoolCache := triviaPoolCache w; now := now w;
           model_calls := model_calls w |}).

Definition of_result {A} (r : result A) : W A := fun w => (r, w).

Definition cache_set (key : string) (questions : list value) : W unit :=
  fun w =>
    (Return tt,
     {| rand := rand w;
        triviaPoolCache :=
          <[key := {| pool_questions := questions; pool_ts := now w |}]> (triviaPoolCache w);
        now := now w; model_calls := model_calls w |}).

Definition cache_delete (key : string) : W unit :=
  fun w =>
    (Return tt,
     {| rand := rand w; triviaPoolCache := delete key (triviaPoolCache w);
        now := now w; model_calls := model_calls w |}).

(** What the handler has after the resolution of the city. [count] is the
    integer of the request (8 when none is sent), [excludeQuestionIds] its
    list of strings (empty when none is sent). *)
Record quiz_request : Type := {
  city : string;
  difficulty : string;
  count : Z;
  excludeQuestionIds : list string;
  cityLabel : string;
  cityPlaceId : string;
  poiNames : list string
}.

(** [arr.slice(0, count)] for an integer [count]. *)
Definition slice_to {A} (arr : list A) (count : Z) : list A :=
  let n := Z.of_nat (length arr) in
  let last := if count <? 0 then Z.max (n + count) 0 else Z.min count n in
  firstn (Z.to_nat last) arr.

(** [arr.filter(p)] for a test [p] that may throw. *)
Fixpoint rfilter {A} (p : A -> result bool) (arr : list A) : result (list A) :=
  match arr with
  | [] => Return []
  | x :: rest =>
      rbind (p x) (fun keep =>
      rbind (rfilter p rest) (fun kept =>
      Return (if keep then x :: kept else kept)))
  end.

Section Handler.

Variable JSON_parse : string -> result value.

(** The [n]-th call of the language model: its outcome and the time at
    which it is known. *)
Variable replies : nat -> result string * Z.

(** [await openai.chat.completions.create(...)], then
    [response.choices[0]?.message?.content], the empty text when there is
    none: the text, or the exception of the call. *)
Definition ask : W string :=
  fun w =>
    let '(reply, t) := replies (model_calls w) in
    (reply,
     {| rand := rand w; triviaPoolCache := triviaPoolCache w; now := t;
        model_calls := S (model_calls w) |}).

Variable rq : quiz_request.

Definition triviaCacheKey : string :=
  ((if non_empty (cityPlaceId rq) then cityPlaceId rq else toLowerCase (city rq))
   ++ "|" ++ difficulty rq)%string.

Definition excludeSet : gset string := list_to_set (excludeQuestionIds rq).

(** [generateQuestionId(cityPlaceId, difficulty, q.question)]: the
    template literal of [generateQuestionId] takes the text of the question,
    and throws when it has none. *)
Definition question_id (q : value) : result string :=
  rbind (get_prop q "question") (fun question =>
  rbind (ToString question) (fun questionText =>
  Return (generateQuestionId (cityPlaceId rq) (difficulty rq) questionText))).

(** [questions.filter(q => !excludeSet.has(generateQuestionId(...)))] *)
Definition not_excluded (questions : list value) : result (list value) :=
  rfilter (fun q => rbind (question_id q) (fun qId =>
                    Return (negb (bool_decide (qId ∈ excludeSet))))) questions.

(** The call of the model, the parse of its answer and the validation, and
    the store of a batch of four questions or more. *)
Definition generate : W (list value) :=
  do content <- ask;
  do parsed <- of_result (parsed_questions JSON_parse content);
  do questions <- of_M (validateTriviaQuestions parsed (poiNames rq));
  do _ <- (if 4 <=? Z.of_nat (length questions)
           then cache_set triviaCacheKey questions else wret tt);
  wret questions.

(** The questions of the cache when they are fresh, else generated ones. *)
Definition load : W (list value * string) :=
  fun w =>
    match triviaPoolCache w !! triviaCacheKey with
    | Some cachedTrivia =>
        if (now w - pool_ts cachedTrivia <? TRIVIA_POOL_TTL)
           && (0 <? Z.of_nat (length (pool_questions cachedTrivia)))
        then (Return (pool_questions cachedTrivia, "cache"), w)
        else
          (do _ <- (if Z.of_nat (length (pool_questions cachedTrivia)) =? 0
                    then cache_delete triviaCacheKey else wret tt);
           do questions <- generate;
           wret (questions, "openai")) w
    | None => (do questions <- generate; wret (questions, "openai")) w
    end.

(** The cached questions were all seen: the entry is dropped and the model
    asked once more. *)
Definition recover (questions : list value) (triviaSource : string)
    : W (list value * string) :=
  if (Z.of_nat (length questions) <? Z.min (count rq) 4)
     && String.eqb triviaSource "cache" && non_empty (cityPlaceId rq)
  then
    do _ <- cache_delete triviaCacheKey;
    do freshQuestions <- generate;
    do unseen <- of_result (not_excluded freshQuestions);
    wret (if Z.of_nat (length unseen) =? 0 then freshQuestions else unseen, "openai")
  else wret (questions, triviaSource).

Definition fall_back (questions : list value) (triviaSource : string)
    : W (list value * string) :=
  if Z.of_nat (length questions) <? Z.min (count rq) 4 then
    if negb (non_empty (cityPlaceId rq)) then
      let fallback := getFallbackQuestions (city rq) in
      if Z.of_nat (length questions) <? Z.of_nat (length fallback)
      then do shuffled <- of_M (mapM shuffleOptions fallback); wret (shuffled, "fallback")
      else wret (questions, triviaSource)
    else wret (questions, triviaSource)
  else wret (questions, triviaSource).

(** The [n]-th call of the model fails with [e]: the call throws, or the
    [questions] of its answer are no array. *)
Definition failed (n : nat) (e : exn) : Prop :=
  fst (replies n) = Throw e
  \/ exists content,
       fst (replies n) = Return content
       /\ parsed_questions JSON_parse content = Throw e.

(** The questions served and their source: the cached or generated ones
    without those the client has seen, regenerated or replaced by the
    fallback when too few are left. *)
Definition select (allQuestions : list value) (triviaSource : string)
    : W (list value * string) :=
  do questions <- of_result (if non_empty (cityPlaceId rq)
                             then not_excluded allQuestions else Return allQuestions);
  do recovered <- recover questions triviaSource;
  fall_back (fst recovered) (snd recovered).

Definition quiz_body (final : list value) (questionIds : list string)
    (poolExhausted : bool) (triviaSource : string) : value :=
  VObj [ ("questions", VArr final);
         ("questionIds", VArr (map VStr questionIds));
         ("cityLabel", VStr (cityLabel rq));
         ("cityPlaceId", if non_empty (cityPlaceId rq)
                         then VStr (cityPlaceId rq) else VUndefined);
         ("poolExhausted", VBool poolExhausted);
         ("source", VStr triviaSource) ].

Definition respond (questions : list value) (triviaSource : string) : W response :=
  do questions <- of_M (distribution_guard questions);
  let final := slice_to questions (count rq) in
  do questionIds <- of_result (if non_empty (cityPlaceId rq)
                               then rmap question_id final else Return []);
  let poolExhausted :=
    (30 <? Z.of_nat (size excludeSet))
    && (Z.of_nat (length final) <? Z.min (count rq) 4) in
  wret (json (quiz_body final questionIds poolExhausted triviaSource)).

Definition quiz_answer : W response :=
  do loaded <- load;
  do selected <- select (fst loaded) (snd loaded);
  respond (fst selected) (snd selected).

End Handler.

(** A question [shuffleOptions] can be computed of: an object with an array
    of four options. *)
Definition four_options (q : value) : Prop :=
  exists fields opts,
    q = VObj fields /\ lookup_field "options" fields = VArr opts /\ length opts = 4%nat.

(** A question that [shuffleOptions] and the id can be computed of: an
    object with an array of four options and a question that has a text. *)
Definition servable (q : value) : Prop :=
  exists fields opts,
    q = VObj fields /\ lookup_field "options" fields = VArr opts /\ length opts = 4%nat
    /\ exists text, ToString (lookup_field "question" fields) = Return text.

(** [r] is servable and asks the question of [q]. *)
Definition keeps_question (q r : value) : Prop :=
  servable r /\ get_prop r "question" = get_prop q "question".

(** The id of a question is among the ids the client excludes, or not. *)
Definition seen (rq : quiz_request) (q : value) : Prop :=
  exists qId, question_id rq q = Return qId /\ qId ∈ excludeSet rq.

Definition unseen (rq : quiz_request) (q : value) : Prop :=
  exists qId, question_id rq q = Return qId /\ qId ∉ excludeSet rq.

(** Every batch of the cache has four questions or more, all servable. *)
Definition cache_ok (cache : gmap string pool_entry) : Prop :=
  forall key entry,
    cache !! key = Some entry ->
    (4 <= length (pool_questions entry))%nat /\ Forall servable (pool_questions entry).

End QuizAnswer.

(** ** The places of the provider

    [mapGoogleCategory], the pool of places of a city with its cache, and
    the context of a city. The entries are taken with the types their
    interfaces declare ([GooglePlaceResult], [CityContextPOI]). *)

Module Places.
Import Str JS Suggestions.

Definition mapGoogleCategory (types : list string) : string :=
  let has := fun t => existsb (String.eqb t) types in
  if has "museum" || has "art_gallery" then "Culture"
  else if has "restaurant" || has "cafe" || has "bakery" || has "bar"
          || has "meal_takeaway" then "Food"
  else if has "park" || has "natural_feature" || has "campground" then "Nature"
  else if has "shopping_mall" || has "store" || has "clothing_store"
          || has "department_store" then "Shopping"
  else if has "amusement_park" || has "stadium" || has "movie_theater"
          || has "night_club" then "Entertainment"
  else if has "church" || has "hindu_temple" || has "mosque" || has "synagogue"
          || has "place_of_worship" then "Landmark"
  else if has "tourist_attraction" || has "point_of_interest" || has "establishment"
       then "Landmark"
  else "Landmark".

(** The tags that lead to a category other than the default. *)
Definition CATEGORY_TAGS : list string :=
  [ "museum"; "art_gallery";
    "restaurant"; "cafe"; "bakery"; "bar"; "meal_takeaway";
    "park"; "natural_feature"; "campground";
    "shopping_mall"; "store"; "clothing_store"; "department_store";
    "amusement_park"; "stadium"; "movie_theater"; "night_club" ].

Definition CATEGORIES : list string :=
  [ "Culture"; "Food"; "Nature"; "Shopping"; "Entertainment"; "Landmark" ].

(** *** A [Map] with string keys, in insertion order

    [deduped.has(k)], and [deduped.set(k, v)] for a key that is not there;
    [Array.from(deduped.values())] is the list of the second components. *)
Definition map_has {V} (m : list (string * V)) (k : string) : bool :=
  existsb (fun entry => String.eqb (fst entry) k) m.

Definition map_add {V} (m : list (string * V)) (k : string) (v : V) : list (string * V) :=
  (m ++ [(k, v)])%list.

Section Dedupe.

Context {A : Type} (key : A -> string) (keep : A -> bool).

(** [for (const x of all) if (keep(x) && !deduped.has(key(x))) deduped.set(key(x), x);] *)
Definition dedupe_step (deduped : list (string * A)) (x : A) : list (string * A) :=
  if keep x && negb (map_has deduped (key x)) then map_add deduped (key x) x
  else deduped.

Definition dedupe_by (all : list A) : list A :=
  map snd (fold_left dedupe_step all []).

(** The first occurrences of the keys outside [seen], among the elements
    kept. *)
Fixpoint firsts (seen : list string) (all : list A) : list A :=
  match all with
  | [] => []
  | x :: rest =>
      if keep x && negb (existsb (fun k => String.eqb k (key x)) seen)
      then x :: firsts (seen ++ [key x]) rest
      else firsts seen rest
  end.

End Dedupe.

(** *** [fetchGooglePlacesPool] *)

Definition POOL_CACHE_TTL : Z := 60 * 60 * 1000.

Definition pool_queries (city : string) : list string :=
  [ "top attractions in " ++ city;
    "best landmarks in " ++ city;
    "best museums in " ++ city;
    "best parks and gardens in " ++ city;
    "best restaurants in " ++ city;
    "best viewpoints in " ++ city ]%string.

(** The server at one moment: the cache of pools, the clock, and the
    number of text searches sent to the provider so far. *)
Record pools : Type := {
  poolCache : gmap string (list GooglePlaceResult * Z);
  time : Z;
  searches : nat
}.

Section Pool.

(** [fetchGooglePlacesTextSearch], which answers every query with a list
    (the empty one on every failure). *)
Variable fetchGooglePlacesTextSearch : string -> list GooglePlaceResult.

(** [fetchGooglePlacesPool(city)]. The call reads the cache when it starts
    and, without a fresh entry, waits for its six searches; other requests
    are served meanwhile, and they read and store too. [w] is the server
    when the call starts, [settled] the server when the searches have
    returned: its cache is what the pool is stored in, its clock the [ts]
    of the entry. *)
Definition fetchGooglePlacesPool (city : string) (w settled : pools)
    : list GooglePlaceResult * pools :=
  let cacheKey := trim (toLowerCase city) in
  let fetch :=
    let results := map fetchGooglePlacesTextSearch (pool_queries city) in
    let all := concat results in
    let places := dedupe_by placeId (fun _ => true) all in
    (places,
     {| poolCache := <[cacheKey := (places, time settled)]> (poolCache settled);
        time := time settled;
        searches := searches settled + length (pool_queries city) |}) in
  match poolCache w !! cacheKey with
  | Some (places, ts) => if time w - ts <? POOL_CACHE_TTL then (places, w) else fetch
  | None => fetch
  end.

End Pool.

(** *** [getCityContext] *)

(** [s.split(sep)] for a separator of one character. *)
Fixpoint split_on (sep : ascii) (s : string) : list string :=
  match s with
  | EmptyString => [EmptyString]
  | String c rest =>
      if Ascii.eqb c sep then EmptyString :: split_on sep rest
      else match split_on sep rest with
           | first :: others => String c first :: others
           | [] => [String c EmptyString]
           end
  end.

Record CityContextPOI : Type := {
  poi_placeId : string;
  name : string;
  types : list string;
  poi_rating : Q;
  userRatingsTotal : Q
}.

Record CityContext : Type := {
  context_label : string;
  context_placeId : string;
  pois : list CityContextPOI
}.

Definition CITY_CACHE_TTL : Z := 24 * 60 * 60 * 1000.

(** [for (const poi of results.flat())
       if (poi.name && poi.name.length >= 3 && !deduped.has(poi.placeId)) ...;
     Array.from(deduped.values()).slice(0, 20)] *)
Definition context_pois (results : list (list CityContextPOI)) : list CityContextPOI :=
  firstn 20
    (dedupe_by poi_placeId (fun poi => non_empty (name poi) && (3 <=? len (name poi)))
       (concat results)).

(** The server at one moment, for the contexts of cities. *)
Record contexts : Type := {
  cityContextCache : gmap string (CityContext * Z);
  context_time : Z;
  context_searches : nat
}.

Definition context_queries (cityLabel : string) : list string :=
  let shortName := trim (nth 0 (split_on "," cityLabel) EmptyString) in
  [ shortName ++ " top attractions landmarks";
    shortName ++ " museums parks historical sites" ]%string.

Section Context.

(** Whether [GOOGLE_PLACES_API_KEY] is set, and the text search of the
    provider, mapped to [CityContextPOI]s (the empty list on every
    failure). *)
Variable apiKey : bool.
Variable search : string -> list CityContextPOI.

(** [getCityContext(placeId, cityLabel)]: [w] is the server when the call
    starts, [settled] the server when its two searches have returned, as
    for [fetchGooglePlacesPool]. Without an API key the call does not
    wait. *)
Definition getCityContext (placeId cityLabel : string) (w settled : contexts)
    : CityContext * contexts :=
  let fetch :=
    let queries := context_queries cityLabel in
    if negb apiKey
    then ({| context_label := cityLabel; context_placeId := placeId; pois := [] |}, w)
    else
      let results := map search queries in
      let ctx := {| context_label := cityLabel; context_placeId := placeId;
                    pois := context_pois results |} in
      (ctx,
       {| cityContextCache := <[placeId := (ctx, context_time settled)]>
                                (cityContextCache settled);
          context_time := context_time settled;
          context_searches := context_searches settled + length queries |}) in
  match cityContextCache w !! placeId with
  | Some (data, ts) =>
      if context_time w - ts <? CITY_CACHE_TTL then (data, w) else fetch
  | None => fetch
  end.

End Context.

(** What holds of the places of a context: at most twenty, with distinct
    place ids, each with a name of three characters or more. *)
Definition context_ok (ctx : CityContext) : Prop :=
  (length (pois ctx) <= 20)%nat
  /\ NoDup (map poi_placeId (pois ctx))
  /\ Forall (fun poi => 3 <= len (name poi)) (pois ctx).

End Places.

(** ** The suggestions of [POST /api/suggestions/generate]

    The handler from the pool of places on: the hotel is located (or not)
    and the pool of the city is fetched. The request is taken with the
    types the handler casts it to: [exclude] and [excludePlaceIds] are
    arrays of strings. *)

Module Suggest.
Import Str JS Suggestions.

Definition mk_place (title description category funFact address : string) (lat lng : Q)
    : value :=
  VObj [ ("title", VStr title); ("description", VStr description);
         ("category", VStr category); ("funFact", VStr funFact);
         ("address", VStr address); ("lat", VNum lat); ("lng", VNum lng) ].

Definition CURATED_PLACES : list (string * list value) :=
  [ ("new york",
     [ mk_place "Central Park"
         "An iconic 843-acre urban oasis in the heart of Manhattan, perfect for walks, boat rides, and people-watching."
         "Nature"
         "Central Park was the first public park in America, designed by Olmsted and Vaux in 1858."
         "Central Park, New York, NY"
         (407829 # 10000) ((-739654) # 10000);
       mk_place "The Metropolitan Museum of Art"
         "One of the world's largest art museums with over 2 million works spanning 5,000 years of history."
         "Culture"
         "The Met's collection includes an entire Egyptian temple, the Temple of Dendur."
         "1000 5th Ave, New York, NY 10028"
         (407794 # 10000) ((-739632) # 10000);
       mk_place "Statue of Liberty"
         "A colossal neoclassical sculpture on Liberty Island, a universal symbol of freedom and democracy."
         "Landmark"
         "The Statue of Liberty was a gift from France, dedicated in 1886."
         "Liberty Island, New York, NY 10004"
         (406892 # 10000) ((-740445) # 10000);
       mk_place "Times Square"
         "The dazzling commercial intersection known for its bright lights, Broadway theaters, and vibrant energy."
         "Entertainment"
         "Times Square was originally called Longacre Square before being renamed in 1904."
         "Manhattan, NY 10036"
         (40758 # 1000) ((-739855) # 10000);
       mk_place "Brooklyn Bridge"
         "A historic suspension bridge connecting Manhattan and Brooklyn with stunning skyline views."
         "Landmark"
         "When completed in 1883, the Brooklyn Bridge was the longest suspension bridge in the world."
         "Brooklyn Bridge, New York, NY 10038"
         (407061 # 10000) ((-739969) # 10000);
       mk_place "Joe's Pizza"
         "A legendary Greenwich Village pizza spot serving classic New York slices since 1975."
         "Food"
         "Joe's Pizza gained extra fame after appearing in Spider-Man 2."
         "7 Carmine St, New York, NY 10014"
         (407306 # 10000) ((-740021) # 10000) ]);
    ("chicago",
     [ mk_place "Millennium Park"
         "A stunning lakefront park featuring Cloud Gate (The Bean), Crown Fountain, and beautiful gardens."
         "Landmark"
         "Cloud Gate is made of 168 stainless steel plates welded together with no visible seams."
         "201 E Randolph St, Chicago, IL 60602"
         (418827 # 10000) ((-876233) # 10000);
       mk_place "Art Institute of Chicago"
         "One of the oldest and largest art museums in the United States, home to iconic Impressionist works."
         "Culture"
         "The museum's collection includes Grant Wood's American Gothic and Seurat's A Sunday on La Grande Jatte."
         "111 S Michigan Ave, Chicago, IL 60603"
         (418796 # 10000) ((-876237) # 10000);
       mk_place "Willis Tower Skydeck"
         "Offers breathtaking views from 1,353 feet up, including the famous glass-floor Ledge experience."
         "Landmark"
         "Willis Tower was the tallest building in the world from 1973 to 1998."
         "233 S Wacker Dr, Chicago, IL 60606"
         (418789 # 10000) ((-876359) # 10000);
       mk_place "Navy Pier"
         "A 3,300-foot pier on Lake Michigan featuring rides, restaurants, shops, and stunning lakefront views."
         "Entertainment"
         "Navy Pier was originally built in 1916 and served as a Navy training center during WWII."
         "600 E Grand Ave, Chicago, IL 60611"
         (418917 # 10000) ((-876086) # 10000);
       mk_place "Chicago Riverwalk"
         "A pedestrian waterfront path along the Chicago River with dining, kayaking, and architectural views."
         "Nature"
         "The Chicago River is famously dyed green every St. Patrick's Day."
         "Chicago Riverwalk, Chicago, IL"
         (418882 # 10000) ((-876198) # 10000);
       mk_place "Lou Malnati's Pizzeria"
         "Iconic deep-dish pizza destination that has been a Chicago institution since 1971."
         "Food"
         "Lou Malnati's uses a butter crust recipe that has remained unchanged since opening."
         "439 N Wells St, Chicago, IL 60654"
         (418905 # 10000) ((-876340) # 10000) ]);
    ("paris",
     [ mk_place "Eiffel Tower"
         "The iconic iron lattice tower offering panoramic views of Paris from three observation levels."
         "Landmark"
         "The Eiffel Tower was originally intended to be dismantled after 20 years."
         "Champ de Mars, 5 Av. Anatole France, 75007 Paris"
         (488584 # 10000) (22945 # 10000);
       mk_place "Louvre Museum"
         "The world's largest art museum, home to the Mona Lisa and over 380,000 objects."
         "Culture"
         "It would take 200 days to see every piece in the Louvre if you spent 30 seconds on each."
         "Rue de Rivoli, 75001 Paris"
         (488606 # 10000) (23376 # 10000);
       mk_place "Notre-Dame Cathedral"
         "A medieval Catholic cathedral known for its French Gothic architecture and stunning rose windows."
         "Landmark"
         "Construction of Notre-Dame began in 1163 and took nearly 200 years to complete."
         "6 Parvis Notre-Dame, 75004 Paris"
         (48853 # 1000) (23499 # 10000);
       mk_place "Sacre-Coeur Basilica"
         "A stunning white-domed basilica atop Montmartre hill with sweeping views of the city."
         "Landmark"
         "Sacre-Coeur's stone exudes calcite when it rains, keeping the basilica perpetually white."
         "35 Rue du Chevalier de la Barre, 75018 Paris"
         (488867 # 10000) (23431 # 10000);
       mk_place "Jardin du Luxembourg"
         "Beautiful formal gardens perfect for leisurely strolls, with fountains, statues, and a palace."
         "Nature"
         "The gardens were created in 1612 by Marie de Medici, inspired by the Boboli Gardens in Florence."
         "Rue de Medicis, 75006 Paris"
         (488462 # 10000) (23372 # 10000);
       mk_place "Le Comptoir du Pantheon"
         "A charming Parisian brasserie near the Pantheon serving classic French cuisine."
         "Food"
         "The Latin Quarter where this restaurant sits has been the center of Parisian academic life since the Middle Ages."
         "5 Rue Soufflot, 75005 Paris"
         (488463 # 10000) (23461 # 10000) ]);
    ("rome",
     [ mk_place "Colosseum"
         "The largest ancient amphitheater ever built, once hosting gladiatorial contests for 50,000 spectators."
         "Landmark"
         "The Colosseum could be filled with water for mock naval battles called naumachiae."
         "Piazza del Colosseo, 1, 00184 Roma"
         (418902 # 10000) (124922 # 10000);
       mk_place "Vatican Museums"
         "A vast collection of art and historical artifacts, culminating in the breathtaking Sistine Chapel."
         "Culture"
         "Michelangelo painted the Sistine Chapel ceiling while standing, not lying on his back."
         "Viale Vaticano, 00165 Roma"
         (419065 # 10000) (124536 # 10000);
       mk_place "Trevi Fountain"
         "Rome's most famous baroque fountain where visitors toss coins to ensure a return to the city."
         "Landmark"
         "About 3,000 euros are thrown into the Trevi Fountain every day."
         "Piazza di Trevi, 00187 Roma"
         (419009 # 10000) (124833 # 10000);
       mk_place "Pantheon"
         "A remarkably preserved 2,000-year-old Roman temple with the world's largest unreinforced concrete dome."
         "Landmark"
         "The Pantheon's dome has an open hole (oculus) at the top that lets in rain and sunlight."
         "Piazza della Rotonda, 00186 Roma"
         (418986 # 10000) (124769 # 10000);
       mk_place "Trastevere"
         "A charming medieval neighborhood with cobblestone streets, authentic trattorias, and vibrant nightlife."
         "Food"
         "Trastevere means 'beyond the Tiber' and was historically home to Rome's working class."
         "Trastevere, Roma"
         (418869 # 10000) (124693 # 10000);
       mk_place "Villa Borghese Gardens"
         "Rome's third-largest public park with museums, a lake, and beautiful landscaped gardens."
         "Nature"
         "The park contains the Borghese Gallery, which houses works by Bernini, Caravaggio, and Raphael."
         "Piazzale Napoleone I, 00197 Roma"
         (419142 # 10000) (124853 # 10000) ]);
    ("tokyo",
     [ mk_place "Senso-ji Temple"
         "Tokyo's oldest and most significant Buddhist temple, located in the colorful Asakusa district."
         "Culture"
         "Senso-ji was founded in 645 AD, making it nearly 1,400 years old."
         "2 Chome-3-1 Asakusa, Taito City, Tokyo 111-0032"
         (357148 # 10000) (1397967 # 10000);
       mk_place "Meiji Shrine"
         "A serene Shinto shrine surrounded by a lush forest, dedicated to Emperor Meiji and Empress Shoken."
         "Culture"
         "The shrine's forest contains 120,000 trees donated from all over Japan."
         "1-1 Yoyogikamizonocho, Shibuya City, Tokyo 151-8557"
         (356764 # 10000) (1396993 # 10000);
       mk_place "Shibuya Crossing"
         "The world's busiest pedestrian crossing, where up to 3,000 people cross simultaneously."
         "Landmark"
         "Shibuya Crossing is often called 'The Scramble' and appears in countless films."
         "Shibuya, Tokyo 150-0041"
         (356595 # 10000) (1397004 # 10000);
       mk_place "Tsukiji Outer Market"
         "A bustling marketplace offering the freshest sushi, street food, and Japanese culinary delights."
         "Food"
         "While the inner wholesale market moved to Toyosu, the outer market retains over 400 shops."
         "4 Chome-16-2 Tsukiji, Chuo City, Tokyo 104-0045"
         (356654 # 10000) (1397707 # 10000);
       mk_place "Shinjuku Gyoen"
         "A spacious national garden blending Japanese, English, and French landscaping styles."
         "Nature"
         "Shinjuku Gyoen was originally a private garden for the Imperial family before opening to the public in 1949."
         "11 Naitomachi, Shinjuku City, Tokyo 160-0014"
         (356852 # 10000) (13971 # 100);
       mk_place "Tokyo Tower"
         "An iconic communications and observation tower inspired by the Eiffel Tower, with sweeping city views."
         "Landmark"
         "Tokyo Tower is painted in white and international orange to comply with aviation safety regulations."
         "4 Chome-2-8 Shibakoen, Minato City, Tokyo 105-0011"
         (356586 # 10000) (1397454 # 10000) ]) ].

(** [getCuratedFallback]: the places of the first curated city whose name
    holds the key or is held by it. *)
Definition getCuratedFallback (city : string) : list value :=
  let key := trim (toLowerCase city) in
  match Quiz.first_curated key CURATED_PLACES with
  | Some places => places
  | None => []
  end.

Definition ENRICHMENT_CACHE_TTL : Z := 30 * 24 * 60 * 60 * 1000.

(** An entry of [enrichmentCache]: [{ data: { description, funFact }, ts }]. *)
Record enrichment : Type := {
  description : value;
  funFact : value;
  enriched_at : Z
}.

(** The description of a place that is not enriched yet. Its last
    character is the ellipsis U+2026 in the source; it is written with
    three dots here. *)
Definition LOADING_DETAILS : string := "Loading details...".

Section Handler.

(** [haversineKm] on numbers ([None] when it gives [NaN]), and the score
    [(p.rating || 0) * Math.log10((p.userRatingCount || 0) + 1)]. *)
Variable haversineKm : Q -> Q -> Q -> Q -> option Q.
Variable popularity : GooglePlaceResult -> Q.

(** [ranked] after the filter on the distance. Without a hotel every
    distance is [null] and every place stays; with one, a place stays when
    its distance is at most 100, which a [NaN] is not. The coordinates of
    the hotel are those of [geocodeCached], where [parseFloat] may have
    given [NaN] ([None]). *)
Definition scored (hotelCoords : option Geocode.coords) (pool : list GooglePlaceResult)
    : list Ranked :=
  match hotelCoords with
  | None =>
      map (fun p => {| place := p; distanceKm := None; popularityScore := popularity p |})
          pool
  | Some coords =>
      flat_map
        (fun p =>
           match Geocode.lat coords, Geocode.lng coords with
           | Some hotelLat, Some hotelLng =>
               match haversineKm hotelLat hotelLng (lat p) (lng p) with
               | Some distKm =>
                   if Qle_bool distKm 100
                   then [ {| place := p; distanceKm := Some distKm;
                             popularityScore := popularity p |} ]
                   else []
               | None => []
               end
           | _, _ => []
           end)
        pool
  end.

(** The filter of [available]. *)
Definition is_available (titleExcludeSet pidExcludeSet : gset string) (p : Ranked) : bool :=
  if bool_decide (normalize (title (place p)) ∈ titleExcludeSet) then false
  else if non_empty (placeId (place p)) && bool_decide (placeId (place p) ∈ pidExcludeSet)
       then false
       else true.

Definition suggestion_of (enrichmentCache : gmap string enrichment) (now : Z) (p : Ranked)
    : value :=
  let cached := enrichmentCache !! placeId (place p) in
  let hasCache :=
    match cached with
    | Some entry => now - enriched_at entry <? ENRICHMENT_CACHE_TTL
    | None => false
    end in
  VObj [ ("title", VStr (title (place p)));
         ("description",
          match cached with
          | Some entry => if hasCache then description entry else VStr LOADING_DETAILS
          | None => VStr LOADING_DETAILS
          end);
         ("category", VStr (category (place p)));
         ("funFact",
          match cached with
          | Some entry => if hasCache then funFact entry else VStr EmptyString
          | None => VStr EmptyString
          end);
         ("address", VStr (address (place p)));
         ("placeId", VStr (placeId (place p)));
         ("lat", VNum (lat (place p)));
         ("lng", VNum (lng (place p)));
         ("enriched", VBool hasCache) ].

Definition suggestions_json (suggestions : list value) : response :=
  json (VObj [("suggestions", VArr suggestions)]).

(** [res.json({ suggestions: validateSuggestions(getCuratedFallback(city), ...).slice(0, 5) })] *)
Definition curated_answer (city : string) (excludeTitles excludePids : list string)
    : response :=
  suggestions_json
    (firstn 5 (validateSuggestions (getCuratedFallback city) excludeTitles excludePids)).

Definition available (hotelCoords : option Geocode.coords) (pool : list GooglePlaceResult)
    (excludeTitles excludePids : list string) : list Ranked :=
  List.filter (is_available (titleSet_of excludeTitles) (placeIdSet_of excludePids))
    (rank (scored hotelCoords pool)).

Definition suggest (city : string) (hotelCoords : option Geocode.coords)
    (pool : list GooglePlaceResult) (excludeTitles excludePids : list string)
    (enrichmentCache : gmap string enrichment) (now : Z) : response :=
  if (length pool =? 0)%nat then curated_answer city excludeTitles excludePids
  else
    let batch := firstn 5 (available hotelCoords pool excludeTitles excludePids) in
    if (length batch =? 0)%nat then curated_answer city excludeTitles excludePids
    else
      suggestions_json
        (validateSuggestions (map (suggestion_of enrichmentCache now) batch)
           excludeTitles excludePids).

End Handler.

(** What holds of a place served from the pool. *)
Definition served_from (hotelCoords : option Geocode.coords) (pool : list GooglePlaceResult)
    (excludeTitles excludePids : list string) (p : Ranked) : Prop :=
  In (place p) pool
  /\ (forall t, In t excludeTitles -> normalize t <> normalize (title (place p)))
  /\ (placeId (place p) <> EmptyString -> ~ In (placeId (place p)) excludePids)
  /\ match hotelCoords with
     | Some _ => exists distKm, distanceKm p = Some distKm /\ (distKm <= 100)%Q
     | None => distanceKm p = None
     end.

End Suggest.

(** ** [POST /api/suggestions/enrich-poi]

    The request is taken with the types the client sends: [name] and [city]
    are strings, [category], [address] and [placeId] are strings or
    absent. The answer of the language model is any text. *)

Module Enrich.
Import Str JS FunFact Parse Suggest.

Record enrich_request : Type := {
  city : string;
  name : string;
  category : option string;
  address : option string;
  placeId : option string
}.

(** [x || d] for a string that may be absent. *)
Definition or_default (x : option string) (d : string) : string :=
  match x with
  | Some s => if non_empty s then s else d
  | None => d
  end.

Definition optional (x : option string) : value :=
  match x with
  | Some s => VStr s
  | None => VUndefined
  end.

(** [`A ${(category || "landmark").toLowerCase()} in ${city}.`] *)
Definition generic_description (category : option string) (city : string) : string :=
  ("A " ++ toLowerCase (or_default category "landmark") ++ " in " ++ city ++ ".")%string.

Definition enriched_json (rq : enrich_request) (description funFact : value) : response :=
  json (VObj [ ("name", VStr (name rq)); ("placeId", optional (placeId rq));
               ("description", description); ("funFact", funFact) ]).

Section Handler.

Variable JSON_parse : string -> result value.

(** [v < 10] of the engine. *)
Variable less_than_10 : value -> bool.

(** [isValidFunFact(fact)] for a truthy value of any type: a text is
    validated; another value has no [toLowerCase], which throws unless
    [fact.length < 10] returned before. *)
Definition isValidFunFact_of (fact : value) : result bool :=
  match fact with
  | VStr s => Return (isValidFunFact s)
  | VArr elems =>
      if Z.of_nat (length elems) <? 10 then Return false else Throw TypeError
  | VObj fields =>
      if less_than_10 (lookup_field "length" fields) then Return false else Throw TypeError
  | _ => Throw TypeError
  end.

(** The [try] block. The handler reads the cache when the request arrives
    and, without a fresh entry, waits for the model; the handlers of other
    requests run meanwhile, and they read and store too. [enrichmentCache]
    is the cache at [now], the time of the request; [settled] is the cache
    at [later], the time of the answer of the model, and [reply] that
    answer or the exception of the call. The block returns the answer sent
    and the cache as the handler leaves it. *)
Definition enrich_try (rq : enrich_request) (reply : result string) (now later : Z)
    (enrichmentCache settled : gmap string enrichment)
    : result (response * gmap string enrichment) :=
  if negb (non_empty (name rq)) || negb (non_empty (city rq))
  then Return (status_json 400 (VObj [("error", VStr "name and city are required")]),
               enrichmentCache)
  else
    let key := or_default (placeId rq) EmptyString in
    let cached := if non_empty key then enrichmentCache !! key else None in
    let fresh :=
      match cached with
      | Some entry => now - enriched_at entry <? ENRICHMENT_CACHE_TTL
      | None => false
      end in
    match cached, fresh with
    | Some entry, true =>
        Return (enriched_json rq (description entry) (funFact entry), enrichmentCache)
    | _, _ =>
        rbind reply (fun content =>
        rbind (safeJsonParse JSON_parse content) (fun parsed =>
        let description :=
          or_else (get_prop_opt parsed "description")
                  (VStr (generic_description (category rq) (city rq))) in
        let given := get_prop_opt parsed "funFact" in
        rbind (if truthy given then isValidFunFact_of given else Return false) (fun valid =>
        let funFact := if valid then given else VStr EmptyString in
        Return
          (enriched_json rq description funFact,
           if non_empty key
           then <[key := {| description := description; funFact := funFact;
                            enriched_at := later |}]> settled
           else settled))))
    end.

(** The handler with its [catch]: what throws is the call of the model or
    what follows it, and the handler has stored nothing then. *)
Definition enrich (rq : enrich_request) (reply : result string) (now later : Z)
    (enrichmentCache settled : gmap string enrichment)
    : response * gmap string enrichment :=
  match enrich_try rq reply now later enrichmentCache settled with
  | Return answered => answered
  | Throw _ =>
      (json (VObj [ ("name", VStr (name rq));
                    ("placeId", VStr (or_default (placeId rq) EmptyString));
                    ("description",
                     VStr (generic_description (category rq)
                             (if non_empty (city rq) then city rq else "the city")));
                    ("funFact", VStr EmptyString) ]),
       settled)
  end.

End Handler.

(** A fun fact that may be shown: the empty text, or a text that
    [isValidFunFact] accepts. *)
Definition shown_fact (funFact : value) : Prop :=
  exists s, funFact = VStr s /\ (s = EmptyString \/ isValidFunFact s = true).

Definition enrichment_ok (entry : enrichment) : Prop :=
  truthy (description entry) = true /\ shown_fact (funFact entry).

End Enrich.

(** ** [geocodeCached], the geocoder of the suggestions *)

Module GeocodeInternal.
Import Str JS Geocode.

Section Cached.

Variable parseFloat : value -> option Q.

(** The [try] block from the parsed answer of the provider on. *)
Definition located (results : value) : result (option coords) :=
  match results with
  | VArr (first :: _) =>
      rbind (get_prop first "lat") (fun la =>
      rbind (get_prop first "lon") (fun lo =>
      Return (Some {| lat := parseFloat la; lng := parseFloat lo |})))
  | _ => Return None
  end.

(** The call from the answer of the provider on: what was found (null when
    nothing was, and when [fetch], [res.json()] or reading the result
    threw) is stored under [key] in the cache as it is at that moment, and
    returned. *)
Definition geocodeCached_store (key : string) (outcome : result value)
    (settled : gmap string (option coords))
    : option coords * gmap string (option coords) :=
  let found := catch (rbind outcome located) None in
  (found, <[key := found]> settled).

(** [geocodeCached(address)]. The call reads the cache when it starts and,
    on a miss, waits for the provider; the calls of other requests start
    and store meanwhile. [geocodeInternalCache] is the cache when the call
    starts, [settled] the cache when the provider has answered; [outcome]
    is the parsed JSON of that answer, or the exception of [fetch] or
    [res.json()]. The call returns what it found, the cache as it leaves
    it, and whether the provider was asked. *)
Definition geocodeCached (address : string) (outcome : result value)
    (geocodeInternalCache settled : gmap string (option coords))
    : option coords * gmap string (option coords) * bool :=
  let key := trim (toLowerCase address) in
  match geocodeInternalCache !! key with
  | Some entry => (entry, geocodeInternalCache, false)
  | None =>
      let '(found, cache) := geocodeCached_store key outcome settled in
      (found, cache, true)
  end.

(** What overlapping calls do to the cache, one piece of code run without
    interruption after the other: a call starts and reads the cache, or the
    provider answers a call that waited and the call stores. *)
Inductive segment : Type :=
| Started (address : string)
| Answered (address : string) (outcome : result value).

Definition segment_step (cache : gmap string (option coords)) (seg : segment)
    : gmap string (option coords) :=
  match seg with
  | Started _ => cache
  | Answered address outcome =>
      snd (geocodeCached_store (trim (toLowerCase address)) outcome cache)
  end.

Definition run_segments (cache : gmap string (option coords)) (segs : list segment)
    : gmap string (option coords) :=
  fold_left segment_step segs cache.

(** No call for [key] stores in [segs]. *)
Definition stores_not (key : string) (segs : list segment) : Prop :=
  Forall (fun seg =>
            match seg with
            | Started _ => True
            | Answered address _ => trim (toLowerCase address) <> key
            end) segs.

End Cached.

End GeocodeInternal.

(** ** [POST /api/trips/:id/spots]: the spots to add *)

Module Spots.
Import Str JS.

(** A row of [trip_spots]. *)
Record TripSpot : Type := {
  id : Z;
  tripId : Z;
  title : string;
  description : string;
  category : string;
  imageUrl : option string;
  funFact : option string;
  address : option string;
  placeId : option string;
  lat : option Q;
  lng : option Q;
  sortOrder : Z
}.

(** An element of [newSpots]: the fields are what the request holds. *)
Record NewSpot : Type := {
  new_tripId : Z;
  new_title : value;
  new_description : value;
  new_category : value;
  new_imageUrl : value;
  new_funFact : value;
  new_address : value;
  new_placeId : value;
  new_lat : value;
  new_lng : value;
  new_sortOrder : Z
}.

(** [a ?? b] *)
Definition nullish_or (a b : value) : value :=
  match a with
  | VUndefined | VNull => b
  | _ => a
  end.

(** [existingSpots.reduce((max, s) => Math.max(max, s.sortOrder), -1)] *)
Definition maxOrder_of (existingSpots : list TripSpot) : Z :=
  fold_left (fun max s => Z.max max (sortOrder s)) existingSpots (-1).

Definition existingTitles_of (existingSpots : list TripSpot) : gset string :=
  list_to_set (map (fun s => trim (toLowerCase (title s))) existingSpots).

(** [s.title?.toLowerCase().trim()]: [undefined] ([None]) for a title that
    is [null] or [undefined]; a title that is no text has no
    [toLowerCase]. *)
Definition title_key (s : value) : result (option string) :=
  rbind (get_prop s "title") (fun t =>
  match t with
  | VUndefined | VNull => Return None
  | VStr text => Return (Some (trim (toLowerCase text)))
  | _ => Throw TypeError
  end).

(** [!existingTitles.has(s.title?.toLowerCase().trim())] *)
Definition is_new (existingTitles : gset string) (s : value) : result bool :=
  rbind (title_key s) (fun key =>
  Return match key with
         | Some k => negb (bool_decide (k ∈ existingTitles))
         | None => true
         end).

Definition new_spot (tripId maxOrder : Z) (idx : Z) (s : value) : NewSpot :=
  {| new_tripId := tripId;
     new_title := get_prop_opt s "title";
     new_description := or_else (get_prop_opt s "description") (VStr EmptyString);
     new_category := or_else (get_prop_opt s "category") (VStr "Other");
     new_imageUrl := or_else (get_prop_opt s "imageUrl") VNull;
     new_funFact := or_else (get_prop_opt s "funFact") VNull;
     new_address := or_else (get_prop_opt s "address") VNull;
     new_placeId := or_else (get_prop_opt s "placeId") VNull;
     new_lat := nullish_or (get_prop_opt s "lat") VNull;
     new_lng := nullish_or (get_prop_opt s "lng") VNull;
     new_sortOrder := maxOrder + 1 + idx |}.

(** [arr.map((s, idx) => f(idx, s))], from the index [idx] on. *)
Fixpoint map_indexed {A B} (f : Z -> A -> B) (idx : Z) (arr : list A) : list B :=
  match arr with
  | [] => []
  | x :: rest => f idx x :: map_indexed f (idx + 1) rest
  end.

Definition newSpots_of (tripId : Z) (existingSpots : list TripSpot) (spots : list value)
    : result (list NewSpot) :=
  let existingTitles := existingTitles_of existingSpots in
  let maxOrder := maxOrder_of existingSpots in
  rbind (QuizAnswer.rfilter (is_new existingTitles) spots) (fun kept =>
  Return (map_indexed (new_spot tripId maxOrder) 0 kept)).

End Spots.

(** ** [fetchGooglePlacesTextSearch]: the places of one answer

    The places of the provider are taken with the types of its API: a
    display name, an id, an address and a list of types that are texts or
    absent, coordinates and ratings that are numbers or absent. *)

Module TextSearch.
Import Str JS Suggestions Places.

Record RawPlace : Type := {
  raw_id : option string;
  displayName_text : option string;
  formattedAddress : option string;
  latitude : option Q;
  longitude : option Q;
  raw_rating : option Q;
  raw_userRatingCount : option Q;
  raw_types : option (list string)
}.

Definition GENERIC_NAMES : list string :=
  [ "city center"; "main park"; "central park"; "downtown"; "town square";
    "main street"; "high street"; "market"; "the park"; "the mall";
    "church"; "old town"; "bus station"; "train station"; "airport" ].

(** [x || ""] and [x || 0] for a field that may be absent. *)
Definition text_or_empty (x : option string) : string :=
  match x with Some s => s | None => EmptyString end.

Definition number_or_zero (x : option Q) : Q :=
  match x with Some q => q | None => 0%Q end.

(** The filter on the name. *)
Definition is_named (p : RawPlace) : bool :=
  match displayName_text p with
  | Some name =>
      if negb (non_empty name) || (len name <? 3) then false
      else if existsb (String.eqb (trim (toLowerCase name))) GENERIC_NAMES then false
      else true
  | None => false
  end.

Definition place_of (p : RawPlace) : GooglePlaceResult :=
  {| title := text_or_empty (displayName_text p);
     lat := number_or_zero (latitude p);
     lng := number_or_zero (longitude p);
     category := mapGoogleCategory (match raw_types p with Some t => t | None => [] end);
     address := text_or_empty (formattedAddress p);
     placeId := text_or_empty (raw_id p);
     rating := number_or_zero (raw_rating p);
     userRatingCount := number_or_zero (raw_userRatingCount p) |}.

(** [data.places.filter(...).map(...)] *)
Definition places_of (places : list RawPlace) : list GooglePlaceResult :=
  map place_of (List.filter is_named places).

(** A place with a name of three characters or more that is no generic
    name, and one of the six categories. *)
Definition named (p : GooglePlaceResult) : Prop :=
  3 <= len (title p)
  /\ ~ In (normalize (title p)) GENERIC_NAMES
  /\ In (category p) CATEGORIES.

End TextSearch.

(** ** [resolveCity]: the label of a city *)

Module Resolve.
Import Str JS Places.

(** [parts.join(sep)] *)
Fixpoint join (sep : string) (parts : list string) : string :=
  match parts with
  | [] => EmptyString
  | [part] => part
  | part :: rest => (part ++ sep ++ join sep rest)%string
  end.

(** [addr.split(",").map((s) => s.trim())] *)
Definition parts_of (addr : string) : list string := map trim (split_on "," addr).

(** [parts.length >= 2 ? parts.slice(0, Math.min(parts.length, 3)).join(", ") : addr] *)
Definition cityLabel_of (addr : string) : string :=
  let parts := parts_of addr in
  if (2 <=? length parts)%nat
  then join ", " (firstn (Nat.min (length parts) 3) parts)
  else addr.

(** The country and the region, given what the address components held
    (the empty text when they held none). *)
Definition country_of (addr country : string) : string :=
  let parts := parts_of addr in
  if negb (non_empty country) && (2 <=? length parts)%nat
  then nth (length parts - 1) parts EmptyString else country.

Definition region_of (addr region : string) : string :=
  let parts := parts_of addr in
  if negb (non_empty region) && (3 <=? length parts)%nat
  then nth (length parts - 2) parts EmptyString else region.

(** [cityLabel.split(",")[0].trim()] of [getCityContext] *)
Definition shortName_of (cityLabel : string) : string :=
  trim (nth 0 (split_on "," cityLabel) EmptyString).

(** No character of [s] is [sep]. *)
Fixpoint free_of (sep : ascii) (s : string) : bool :=
  match s with
  | EmptyString => true
  | String c rest => negb (Ascii.eqb c sep) && free_of sep rest
  end.

End Resolve.

(** ** The curated cities *)

Module Curated.
Import Str.

(** The names under which [CURATED_QUESTIONS] and [CURATED_PLACES] hold a
    city. *)
Definition CURATED_CITIES : list string :=
  [ "new york"; "paris"; "rome"; "tokyo"; "chicago" ].

(** The test of [getFallbackQuestions] and of [getCuratedFallback]:
    [key.includes(name) || name.includes(key)]. *)
Definition matches_city (key name : string) : bool :=
  includes key name || includes name key.

End Curated.

(** ** Valid questions in the quiz handler *)

Module QuizValidity.
Import Str JS Quiz Parse QuizAnswer.

(** Every batch of the cache has four questions or more, all valid. *)
Definition cache_valid (cache : gmap string pool_entry) : Prop :=
  forall key entry,
    cache !! key = Some entry ->
    (4 <= length (pool_questions entry))%nat
    /\ Forall valid_question (pool_questions entry).

(** The candidates the model sends have integers as [correctIndex],
    whenever they have a number. *)
Definition integral_answers (JSON_parse : string -> result value)
    (replies : nat -> result string * Z) : Prop :=
  forall n content parsed,
    fst (replies n) = Return content ->
    parsed_questions JSON_parse content = Return parsed ->
    forall q x, In q parsed -> get_prop q "correctIndex" = Return (VNum x) ->
                is_integer x = true.

End QuizValidity.

(** ** Sample inputs, on which the theorems below are exercised *)

Module Samples.
Import Str JS Quiz Parse Suggestions Geocode.

Definition sample_rand : Rand := fun n => (Z.of_nat n # 7)%Q.

Definition tower_fields : list (string * value) :=
  [ ("question", VStr "How tall is the Eiffel Tower?");
    ("options", VArr (map VStr ["224 meters"; "270 meters"; "330 meters"; "400 meters"]));
    ("correctIndex", VNum 2);
    ("funFact", VStr "The tower grows about 15 cm taller in summer.") ].

Definition first_is_right : value :=
  mk_question "Which city hosts the Louvre?" ["Paris"; "Rome"; "Tokyo"; "Chicago"] 0
    "The Louvre houses over 380,000 objects.".

Definition third_is_right : value :=
  mk_question "What river runs through Paris?" ["Rhine"; "Loire"; "Seine"; "Danube"] 2
    "The Seine divides Paris into the Left Bank and Right Bank.".

(** A language model that is down. *)
Definition failing_generation : value -> M response :=
  fun _ => throw (OtherError "APIConnectionError").

Definition paris_request : value := VObj [("city", VStr "Paris")].

Definition grounded_request : value :=
  VObj [("city", VStr "Paris"); ("cityPlaceId", VStr "ChIJD7fiBh9u5kcRYJSMaMOCCwQ")].

Definition never_parses : string -> result value := fun _ => Throw SyntaxError.

Definition place (name : string) : GooglePlaceResult :=
  {| title := name; Suggestions.lat := 0; Suggestions.lng := 0; category := "Landmark";
     address := EmptyString; placeId := name; rating := 4; userRatingCount := 100 |}.

Definition far_place : Ranked :=
  {| Suggestions.place := place "Far"; distanceKm := Some 8%Q; popularityScore := 8%Q |}.

Definition near_place : Ranked :=
  {| Suggestions.place := place "Near"; distanceKm := Some 2%Q; popularityScore := 8%Q |}.

Definition nan_parseFloat : value -> option Q := fun _ => None.

(** A cache that holds the null marker of "atlantis", and the events of a
    later request for Paris that the provider answers with nothing. *)
Definition atlantis_cached : state :=
  {| geocodeCache := {[ "atlantis" := None ]}; waiting := [] |}.

Definition later_events : list event :=
  [ Arrive (VObj [("address", VStr "Paris")]) 1000;
    Settle 0 (Return (VArr [])) 6000 ].

Definition atlantis_request : value := VObj [("address", VStr "  Atlantis ")].

(** A [parseFloat] that reads numbers. *)
Definition number_parseFloat (v : value) : option Q :=
  match v with
  | VNum x => Some x
  | _ => None
  end.

Definition no_request_yet : state := {| geocodeCache := ∅; waiting := [] |}.

(** Two requests for Atlantis arrive before the provider has answered the
    first; it finds nothing for the first... *)
Definition atlantis_twice : list event :=
  [ Arrive atlantis_request 1000;
    Arrive atlantis_request 1001;
    Settle 0 (Return (VArr [])) 1500 ].

(** ... and a place for the second, which has waited meanwhile. *)
Definition atlantis_found : list event :=
  [ Settle 0 (Return (VArr [VObj [("lat", VNum 31); ("lon", VNum (-24))]])) 1600 ].

End Samples.

Module QuizSamples.
Import Str JS Quiz Parse QuizAnswer Samples.

(** A model that answers every call with an empty array, at time 5000. *)
Definition empty_replies : nat -> result string * Z := fun _ => (Return "[]", 5000).

(** A model that is down. *)
Definition no_replies : nat -> result string * Z :=
  fun _ => (Throw (OtherError "APIConnectionError"), 5000).

(** The text of a value of the samples, as [JSON.stringify] writes it: the
    strings of the samples hold nothing to escape. *)
Fixpoint json_text (v : value) : string :=
  match v with
  | VUndefined | VNull => "null"
  | VBool true => "true"
  | VBool false => "false"
  | VNum x => Number_toString x
  | VStr s => double_quote ++ s ++ double_quote
  | VArr elems =>
      "[" ++ (fix items (first : bool) (elems : list value) : string :=
                match elems with
                | [] => EmptyString
                | e :: rest =>
                    (if first then EmptyString else ",") ++ json_text e ++ items false rest
                end) true elems ++ "]"
  | VObj fields =>
      "{" ++ (fix members (first : bool) (fields : list (string * value)) : string :=
                match fields with
                | [] => EmptyString
                | (k, e) :: rest =>
                    (if first then EmptyString else ",")
                    ++ double_quote ++ k ++ double_quote ++ ":" ++ json_text e
                    ++ members false rest
                end) true fields ++ "}"
  end.

(** Four questions on the Louvre, the text of the model that holds them and
    a [JSON.parse] that reads this text. *)
Definition model_questions : list value :=
  [ mk_question "In which year did the Louvre Museum open to the public?"
      ["1693"; "1793"; "1893"; "1993"] 1
      "The Louvre opened on 10 August 1793 with 537 paintings.";
    mk_question "Which painting of the Louvre Museum was stolen in 1911?"
      ["The Raft of the Medusa"; "Liberty Leading the People"; "Mona Lisa";
       "The Wedding at Cana"] 2
      "The Mona Lisa was missing for more than two years.";
    mk_question "Who designed the glass pyramid of the Louvre Museum?"
      ["I. M. Pei"; "Gustave Eiffel"; "Le Corbusier"; "Jean Nouvel"] 0
      "The pyramid was completed in 1989.";
    mk_question "What was the Louvre Museum before it became a museum?"
      ["A railway station"; "A cathedral"; "A market hall"; "A royal palace"] 3
      "The Louvre was a fortress in the 12th century, then a royal palace." ].

Definition model_reply : string := json_text (VArr model_questions).

Definition parse_model (s : string) : result value :=
  if String.eqb s model_reply then Return (VArr model_questions) else parse_empty_only s.

Definition model_replies : nat -> result string * Z := fun _ => (Return model_reply, 5000).


Definition lyon : quiz_request :=
  {| city := "Lyon"; difficulty := "standard"; count := 3; excludeQuestionIds := [];
     cityLabel := "Lyon"; cityPlaceId := EmptyString; poiNames := [] |}.

Definition paris : quiz_request :=
  {| city := "Paris"; difficulty := "standard"; count := 3;
     excludeQuestionIds := ["zik0zj"];
     cityLabel := "Paris, France"; cityPlaceId := "ChIJD7fiBh9u5kcRYJSMaMOCCwQ";
     poiNames := ["Louvre Museum"] |}.

(** The same request once the first question of the pool below was seen. *)
Definition paris_again : quiz_request :=
  {| city := "Paris"; difficulty := "standard"; count := 3;
     excludeQuestionIds := ["elredx"];
     cityLabel := "Paris, France"; cityPlaceId := "ChIJD7fiBh9u5kcRYJSMaMOCCwQ";
     poiNames := ["Louvre Museum"] |}.

Definition paris_pool : pool_entry :=
  {| pool_questions := firstn 4 (generic_questions "Paris"); pool_ts := 1000 |}.

Definition cold_world : world :=
  {| rand := sample_rand; triviaPoolCache := ∅; now := 2000; model_calls := 0 |}.

Definition warm_world : world :=
  {| rand := sample_rand;
     triviaPoolCache := {[ triviaCacheKey paris := paris_pool ]};
     now := 2000; model_calls := 0 |}.

(** The answer of a run, when there is one. *)
Definition answer_of (run : result response * world) : response :=
  match fst run with
  | Return answer => answer
  | Throw _ => json VUndefined
  end.

Definition lyon_run : result response * world :=
  quiz_answer parse_empty_only empty_replies lyon cold_world.

Definition paris_run : result response * world :=
  quiz_answer parse_empty_only empty_replies paris warm_world.

Definition paris_again_run : result response * world :=
  quiz_answer parse_empty_only empty_replies paris_again warm_world.

Definition down_run : result response * world :=
  quiz_answer parse_empty_only no_replies lyon cold_world.

(** The request of a client that has seen two questions of the pool below
    and the first question of the model. *)
Definition paris_seen : quiz_request :=
  {| city := "Paris"; difficulty := "standard"; count := 3;
     excludeQuestionIds := ["elredx"; "991lf1"; "eqht0s"];
     cityLabel := "Paris, France"; cityPlaceId := "ChIJD7fiBh9u5kcRYJSMaMOCCwQ";
     poiNames := ["Louvre Museum"] |}.

Definition model_run : result response * world :=
  quiz_answer parse_model model_replies paris_seen warm_world.

End QuizSamples.

Module PlaceSamples.
Import Str JS Suggestions Geocode Places Suggest Samples.

Definition louvre : GooglePlaceResult :=
  {| title := "Louvre Museum"; Suggestions.lat := 488606 # 10000;
     Suggestions.lng := 23376 # 10000; category := "Culture";
     address := "Rue de Rivoli, 75001 Paris"; placeId := "ChIJD3uTd9hx5kcR1IQvGfr8dbk";
     rating := 47 # 10; userRatingCount := 300000 |}.

Definition tuileries : GooglePlaceResult :=
  {| title := "Tuileries Garden"; Suggestions.lat := 488635 # 10000;
     Suggestions.lng := 23275 # 10000; category := "Nature";
     address := "Place de la Concorde, 75001 Paris"; placeId := "ChIJAQAAMCxu5kcRx--_4QnbGcI";
     rating := 46 # 10; userRatingCount := 100000 |}.

(** A provider that answers the search for museums with the Louvre, the
    one for parks with the Tuileries and the Louvre, and every other with
    nothing. *)
Definition sample_search (query : string) : list GooglePlaceResult :=
  if String.eqb query "best museums in Paris" then [louvre]
  else if String.eqb query "best parks and gardens in Paris" then [tuileries; louvre]
  else [].

Definition no_pools : pools := {| poolCache := ∅; time := 1000; searches := 0 |}.

(** The server when the searches of the first call return: another city
    was fetched meanwhile. *)
Definition busy_pools : pools :=
  {| poolCache := {[ "lyon" := ([], 1200) ]}; time := 1800; searches := 6 |}.



Definition louvre_poi : CityContextPOI :=
  {| poi_placeId := "ChIJD3uTd9hx5kcR1IQvGfr8dbk"; name := "Louvre Museum";
     types := ["museum"; "tourist_attraction"]; poi_rating := 47 # 10;
     userRatingsTotal := 300000 |}.

Definition sample_context_search (query : string) : list CityContextPOI := [louvre_poi].

Definition no_contexts : contexts :=
  {| cityContextCache := ∅; context_time := 1000; context_searches := 0 |}.

(** The server when the searches of the first call return: the context of
    another city was stored meanwhile. *)
Definition lyon_context : CityContext :=
  {| context_label := "Lyon, France"; context_placeId := "ChIJl4foalHq9EcR8CG75CqrCAQ";
     pois := [ {| poi_placeId := "ChIJ2xJcTVTq9EcRzvaLGKANLAc";
                  name := "Basilica of Notre-Dame de Fourviere";
                  types := ["church"; "tourist_attraction"]; poi_rating := 47 # 10;
                  userRatingsTotal := 30000 |} ] |}.

Definition busy_contexts : contexts :=
  {| cityContextCache := {[ "ChIJl4foalHq9EcR8CG75CqrCAQ" := (lyon_context, 1200) ]};
     context_time := 1500; context_searches := 2 |}.

(** A distance and a score to run the ranking with. *)
Definition flat_distance (lat1 lng1 lat2 lng2 : Q) : option Q :=
  Some (((lat2 - lat1) * (lat2 - lat1) + (lng2 - lng1) * (lng2 - lng1)) * 12321)%Q.

Definition by_rating (p : GooglePlaceResult) : Q := (rating p * 10)%Q.

Definition paris_pool : list GooglePlaceResult := [tuileries; louvre].

End PlaceSamples.

Module SearchSamples.
Import Str JS Suggestions Places TextSearch PlaceSamples.

Definition raw_louvre : RawPlace :=
  {| raw_id := Some "ChIJD3uTd9hx5kcR1IQvGfr8dbk"; displayName_text := Some "Louvre Museum";
     formattedAddress := Some "Rue de Rivoli, 75001 Paris";
     latitude := Some (488606 # 10000); longitude := Some (23376 # 10000);
     raw_rating := Some (47 # 10); raw_userRatingCount := Some 300000%Q;
     raw_types := Some ["museum"; "tourist_attraction"] |}.

Definition raw_tuileries : RawPlace :=
  {| raw_id := Some "ChIJAQAAMCxu5kcRx--_4QnbGcI"; displayName_text := Some "Tuileries Garden";
     formattedAddress := None;
     latitude := Some (488635 # 10000); longitude := Some (23275 # 10000);
     raw_rating := Some (46 # 10); raw_userRatingCount := None;
     raw_types := Some ["park"] |}.

(** A place the filter on the name drops. *)
Definition raw_market : RawPlace :=
  {| raw_id := Some "ChIJmarket"; displayName_text := Some "Market";
     formattedAddress := None; latitude := None; longitude := None;
     raw_rating := None; raw_userRatingCount := None; raw_types := None |}.

Definition raw_answers : list (list RawPlace) :=
  [ [raw_tuileries; raw_market]; [raw_louvre; raw_tuileries] ].

Definition ranked_of (p : GooglePlaceResult) : Ranked :=
  {| place := p; distanceKm := None; popularityScore := by_rating p |}.

End SearchSamples.

Module EnrichSamples.
Import Str JS Parse Suggest Enrich.

Definition louvre_request : enrich_request :=
  {| city := "Paris"; name := "Louvre Museum"; category := Some "Culture";
     address := None; placeId := Some "ChIJD3uTd9hx5kcR1IQvGfr8dbk" |}.

Definition louvre_entry : enrichment :=
  {| description := VStr "The largest art museum of the world.";
     funFact := VStr EmptyString; enriched_at := 1000 |}.

Definition louvre_cache : gmap string enrichment :=
  {[ "ChIJD3uTd9hx5kcR1IQvGfr8dbk" := louvre_entry ]}.

Definition never_less (v : value) : bool := false.

(** An answer of the model for the Louvre, as the text it sends and as
    [JSON.parse] reads it. *)
Definition louvre_description : string := "The largest art museum of the world.".

Definition louvre_fact : string :=
  "The glass pyramid in the main courtyard was completed in 1989 and stands 21 meters tall.".

Definition louvre_reply : string :=
  "{" ++ double_quote ++ "description" ++ double_quote ++ ":"
      ++ double_quote ++ louvre_description ++ double_quote ++ ","
      ++ double_quote ++ "funFact" ++ double_quote ++ ":"
      ++ double_quote ++ louvre_fact ++ double_quote ++ "}".

Definition parse_louvre (s : string) : result value :=
  if String.eqb s louvre_reply
  then Return (VObj [("description", VStr louvre_description); ("funFact", VStr louvre_fact)])
  else parse_empty_only s.

(** The cache when that answer arrives: another place was enriched
    meanwhile. *)
Definition tuileries_entry : enrichment :=
  {| description := VStr "A public garden between the Louvre and the Place de la Concorde.";
     funFact := VStr EmptyString; enriched_at := 2500 |}.

Definition tuileries_cache : gmap string enrichment :=
  {[ "ChIJAQAAMCxu5kcRx--_4QnbGcI" := tuileries_entry ]}.

(** The run of the handler on the empty cache, and the cache an hour
    later, when one more place has been enriched. *)
Definition louvre_run : result (response * gmap string enrichment) :=
  enrich_try parse_louvre never_less louvre_request (Return louvre_reply) 2000 3000
    ∅ tuileries_cache.

Definition cache_after (run : result (response * gmap string enrichment))
    : gmap string enrichment :=
  match run with
  | Return (_, cache) => cache
  | Throw _ => ∅
  end.

Definition hour_later_cache : gmap string enrichment :=
  <[ "ChIJLU7jZClu5kcR4PcOOO6p3I0" :=
       {| description := VStr "A wrought-iron lattice tower on the Champ de Mars.";
          funFact := VStr EmptyString; enriched_at := 3600000 |} ]>
    (cache_after louvre_run).

End EnrichSamples.

Module SpotSamples.
Import Str JS Spots.

Definition row (n : Z) (name : string) (order : Z) : TripSpot :=
  {| id := n; tripId := 7; title := name; description := "A place."; category := "Landmark";
     imageUrl := None; funFact := None; address := None; placeId := None;
     lat := None; lng := None; sortOrder := order |}.

Definition stored_before : list TripSpot := [row 1 "Eiffel Tower" 0; row 2 "Louvre Museum" 4].

Definition posted : list value :=
  [ VObj [("title", VStr " louvre museum ")];
    VObj [("title", VStr "Pantheon"); ("category", VStr "Landmark")] ].

Definition stored_after : list TripSpot :=
  [row 1 "Eiffel Tower" 0; row 2 "Louvre Museum" 4; row 3 "Pantheon" 5].

End SpotSamples.

(** * Properties *)

(** ** Texts of numbers and of values *)

Module JSFacts.
Import Str JS.

(** [String(x)] on numbers of each form [Number::toString] has: integers,
    fractions, the exponent forms from [1e21] up and below [1e-6], the
    double nearest to a decimal that is none, and the largest and the
    smallest doubles. *)
Example Number_toString_table :
  map Number_toString
    [ 0; 7; -42; 3 # 2; 1 # 10; -5 # 2; 123456789 # 1000; 1 # 3;
      inject_Z (2 ^ 53); inject_Z (2 ^ 53 + 1); inject_Z (2 ^ 60);
      inject_Z (10 ^ 21 - 1); inject_Z (10 ^ 21); inject_Z (10 ^ 23);
      1 # 1000000; 1 # 10000000; power 10 (-320); power 10 (-400);
      (inject_Z (2 ^ 1024) - power 2 971)%Q; inject_Z (10 ^ 400) ]%Q
  = [ "0"; "7"; "-42"; "1.5"; "0.1"; "-2.5"; "123456.789"; "0.3333333333333333";
      "9007199254740992"; "9007199254740992"; "1152921504606847000";
      "1e+21"; "1e+21"; "1e+23";
      "0.000001"; "1e-7"; "1e-320"; "0";
      "1.7976931348623157e+308"; "Infinity" ].
Proof. vm_compute. reflexivity. Qed.

(** [String(v)] on arrays and objects. *)
Example ToString_table :
  ToString (VArr [VNum (3 # 2); VNull; VArr [VStr "a"; VBool true]; VObj []])
  = Return "1.5,,a,true,[object Object]"
  /\ ToString (VObj [("valueOf", VNum 1)]) = Return "[object Object]"
  /\ ToString (VObj [("toString", VNum 1)]) = Throw TypeError
  /\ ToString (VArr [VStr "a"; VObj [("toString", VNull)]]) = Throw TypeError.
Proof. vm_compute. repeat split; reflexivity. Qed.

End JSFacts.

Module Int32Facts.
Import Int32.

Lemma toInt32_range z : - 2 ^ 31 <= toInt32 z < 2 ^ 31.
Proof.
  unfold toInt32.
  pose proof (Z.mod_pos_bound z (2 ^ 32) ltac:(lia)) as Hm.
  destruct (Z.ltb_spec (z mod 2 ^ 32) (2 ^ 31)); lia.
Qed.

Lemma toInt32_cong z : (toInt32 z) mod 2 ^ 32 = z mod 2 ^ 32.
Proof.
  unfold toInt32.
  destruct (Z.ltb_spec (z mod 2 ^ 32) (2 ^ 31)).
  - apply Z.mod_mod. lia.
  - replace (z mod 2 ^ 32 - 2 ^ 32) with (z mod 2 ^ 32 + (-1) * 2 ^ 32) by lia.
    rewrite Z.mod_add by lia. apply Z.mod_mod. lia.
Qed.

Lemma toInt32_eq_of_mod a b : a mod 2 ^ 32 = b mod 2 ^ 32 -> toInt32 a = toInt32 b.
Proof. unfold toInt32. intros ->. reflexivity. Qed.

Lemma toInt32_idem z : toInt32 (toInt32 z) = toInt32 z.
Proof. apply toInt32_eq_of_mod, toInt32_cong. Qed.

Lemma toInt32_small z : - 2 ^ 31 <= z < 2 ^ 31 -> toInt32 z = z.
Proof.
  intros Hz. unfold toInt32.
  destruct (Z.ltb_spec (z mod 2 ^ 32) (2 ^ 31)) as [Hlt | Hge].
  - destruct (Z.neg_nonneg_cases z) as [Hneg | Hpos].
    + exfalso.
      assert (Hm : z mod 2 ^ 32 = z + 2 ^ 32).
      { symmetry. apply Z.mod_unique with (q := -1); lia. }
      lia.
    + apply Z.mod_small. lia.
  - destruct (Z.neg_nonneg_cases z) as [Hneg | Hpos].
    + assert (Hm : z mod 2 ^ 32 = z + 2 ^ 32).
      { symmetry. apply Z.mod_unique with (q := -1); lia. }
      lia.
    + rewrite Z.mod_small in Hge by lia. lia.
Qed.

Lemma bor_zero x : bor x 0 = toInt32 x.
Proof.
  unfold bor. replace (toInt32 0) with 0 by reflexivity.
  rewrite Z.lor_0_r. apply toInt32_idem.
Qed.

Lemma shl_5 x : shl x 5 = toInt32 (x * 32).
Proof.
  unfold shl. replace (5 mod 32) with 5 by reflexivity.
  rewrite Z.shiftl_mul_pow2 by lia.
  apply toInt32_eq_of_mod.
  replace (2 ^ 5) with 32 by reflexivity.
  rewrite Z.mul_mod by lia. rewrite toInt32_cong.
  rewrite <- Z.mul_mod by lia. reflexivity.
Qed.

End Int32Facts.




(** ** The fun-fact validator on the two examples of the specification *)

Module FunFactFacts.
Import Str Regex FunFact.

Example tower_words :
  words "Built in 1887, the tower weighs 10,100 tons."
  = ["Built"; "in"; "1887,"; "the"; "tower"; "weighs"; "10,100"; "tons."].
Proof. reflexivity. Qed.

(** The same fact with twelve words or more passes: the rules are the stated
    ones, and the word count is what rejects the short sentence. *)
Example long_tower_accepted :
  isValidFunFact
    "Built in 1887, the iron tower weighs 10,100 tons and stands 330 meters tall."
  = true.
Proof. vm_compute. reflexivity. Qed.

(** C1, as stated, fails: the second example of the specification is
    rejected, not accepted. *)
Lemma isValidFunFact_examples_counterexample :
  ~ (isValidFunFact "A popular spot for tourists." = false
     /\ isValidFunFact "Built in 1887, the tower weighs 10,100 tons." = true).
Proof. vm_compute. intros [_ H]. discriminate H. Qed.

(** C1, amended: [isValidFunFact] returns false for "A popular spot for
    tourists." (it contains a banned phrase), and it returns false for "Built
    in 1887, the tower weighs 10,100 tons." as well: that sentence has 8
    words, fewer than the 12 the word-count rule asks for, and this rule
    alone rejects it: it contains no banned phrase, is a single sentence and
    contains a number. *)
Theorem isValidFunFact_examples :
  let popular := "A popular spot for tourists." in
  let tower := "Built in 1887, the tower weighs 10,100 tons." in
  isValidFunFact popular = false
  /\ existsb (fun phrase => includes (toLowerCase popular) phrase)
       BANNED_FUNFACT_PHRASES = true
  /\ isValidFunFact tower = false
  /\ length (words tower) = 8%nat
  /\ existsb (fun phrase => includes (toLowerCase tower) phrase)
       BANNED_FUNFACT_PHRASES = false
  /\ length (List.filter (fun s => 0 <? len (trim s)) (split_runs sentence_end tower))
     = 1%nat
  /\ test re_number tower = true.
Proof. vm_compute. repeat split; reflexivity. Qed.

End FunFactFacts.

(** ** The question id is the rolling hash of the specification *)

Module QuestionIdFacts.
Import Str Int32 Int32Facts JS QuestionId.

Lemma hash_step_spec h c : hash_step h c = toInt32 (h * 31 + c).
Proof.
  unfold hash_step. rewrite bor_zero, shl_5.
  apply toInt32_eq_of_mod.
  replace (toInt32 (h * 32) - h + c) with (toInt32 (h * 32) + (c - h)) by lia.
  rewrite Z.add_mod by lia. rewrite toInt32_cong.
  rewrite <- Z.add_mod by lia. f_equal. lia.
Qed.

Lemma fold_hash_step cs : forall h, fold_left hash_step cs h = rolling_hash h cs.
Proof.
  induction cs as [| c cs IH]; intros h; simpl.
  - reflexivity.
  - rewrite hash_step_spec. apply IH.
Qed.

Lemma rolling_hash_range cs : forall h,
  - 2 ^ 31 <= h < 2 ^ 31 -> - 2 ^ 31 <= rolling_hash h cs < 2 ^ 31.
Proof.
  induction cs as [| c cs IH]; intros h Hh; simpl.
  - exact Hh.
  - apply IH, toInt32_range.
Qed.

Lemma digit_char_table :
  forallb (fun d => (digit_value (digit_char d) =? d) && is_digit36 (digit_char d))
          (map Z.of_nat (seq 0 36)) = true.
Proof. vm_compute. reflexivity. Qed.

Lemma digit_char_ok d :
  0 <= d < 36 -> digit_value (digit_char d) = d /\ is_digit36 (digit_char d) = true.
Proof.
  intros Hd.
  pose proof digit_char_table as Ht.
  rewrite forallb_forall in Ht.
  specialize (Ht d).
  assert (Hin : In d (map Z.of_nat (seq 0 36))).
  { apply in_map_iff. exists (Z.to_nat d). split; [lia |].
    apply in_seq. lia. }
  apply Ht in Hin. apply andb_true_iff in Hin as [H1 H2].
  split; [lia | exact H2].
Qed.

Lemma digits_parse fuel : forall n acc,
  0 <= n < 36 ^ Z.of_nat fuel ->
  parse36_from 0 (digits 36 fuel n acc) = parse36_from n acc.
Proof.
  induction fuel as [| fuel IH]; intros n acc Hn.
  - simpl in *. assert (n = 0) by lia. subst n. reflexivity.
  - simpl digits.
    destruct (Z.leb_spec n 0) as [Hle | Hgt].
    + assert (n = 0) by lia. subst n. reflexivity.
    + rewrite IH.
      * simpl. f_equal.
        destruct (digit_char_ok (n mod 36)) as [-> _].
        { apply Z.mod_pos_bound. lia. }
        pose proof (Z.div_mod n 36 ltac:(lia)). lia.
      * split; [apply Z.div_pos; lia |].
        apply Z.div_lt_upper_bound; [lia |].
        replace (Z.of_nat (S fuel)) with (Z.succ (Z.of_nat fuel)) in Hn by lia.
        rewrite Z.pow_succ_r in Hn by lia. lia.
Qed.

Lemma digits_all36 fuel : forall n acc,
  all_chars is_digit36 acc = true ->
  all_chars is_digit36 (digits 36 fuel n acc) = true.
Proof.
  induction fuel as [| fuel IH]; intros n acc Hacc; simpl.
  - exact Hacc.
  - destruct (n <=? 0); [exact Hacc |].
    apply IH. simpl. rewrite Hacc, andb_true_r.
    apply digit_char_ok, Z.mod_pos_bound. lia.
Qed.

Lemma fuel_enough n : 0 < n -> n < 36 ^ Z.of_nat (Z.to_nat (Z.log2 n) + 1).
Proof.
  intros Hn.
  pose proof (Z.log2_nonneg n) as Hl.
  replace (Z.of_nat (Z.to_nat (Z.log2 n) + 1)) with (Z.succ (Z.log2 n)) by lia.
  destruct (Z.log2_spec n Hn) as [_ Hlt].
  eapply Z.lt_le_trans; [exact Hlt |].
  apply Z.pow_le_mono_l. lia.
Qed.

(** [n.toString(36)] of a non-negative integer is made of the digits
    [0-9a-z] and reads back as [n]. *)
Lemma toString36_roundtrip n :
  0 <= n ->
  parse36 (Z_toString 36 n) = n /\ all_chars is_digit36 (Z_toString 36 n) = true.
Proof.
  intros Hn. unfold Z_toString, parse36.
  destruct (Z.eqb_spec n 0) as [-> | Hne]; [split; reflexivity |].
  destruct (Z.ltb_spec n 0) as [Hneg | _]; [lia |].
  split.
  - rewrite digits_parse; [reflexivity |].
    split; [lia | apply fuel_enough; lia].
  - apply digits_all36. reflexivity.
Qed.

(** C5: [generateQuestionId] is a function of the characters of its three
    arguments alone: equal triples give equal ids; the id is the base-36
    text of the absolute value of the 32-bit rolling hash [h = h*31 +
    charCode] of "cityPlaceId|difficulty|questionText"; that number is
    non-negative (at most 2^31), and the id consists of base-36 digits that
    read back as it. *)
Theorem generateQuestionId_spec (cityPlaceId difficulty questionText : string) :
  let raw := (cityPlaceId ++ "|" ++ difficulty ++ "|" ++ questionText)%string in
  let h := rolling_hash 0 (codes raw) in
  generateQuestionId cityPlaceId difficulty questionText = Z_toString 36 (Z.abs h)
  /\ - 2 ^ 31 <= h < 2 ^ 31
  /\ 0 <= Z.abs h <= 2 ^ 31
  /\ all_chars is_digit36 (generateQuestionId cityPlaceId difficulty questionText) = true
  /\ parse36 (generateQuestionId cityPlaceId difficulty questionText) = Z.abs h
  /\ (forall p d t,
        p = cityPlaceId -> d = difficulty -> t = questionText ->
        generateQuestionId p d t
        = generateQuestionId cityPlaceId difficulty questionText).
Proof.
  intros raw h.
  assert (Hid : generateQuestionId cityPlaceId difficulty questionText
                = Z_toString 36 (Z.abs h)).
  { unfold generateQuestionId, hash_of. fold raw. rewrite fold_hash_step. reflexivity. }
  assert (Hr : - 2 ^ 31 <= h < 2 ^ 31).
  { apply rolling_hash_range. lia. }
  destruct (toString36_roundtrip (Z.abs h) (Z.abs_nonneg h)) as [Hp Hd].
  rewrite Hid.
  repeat split; try lia; try assumption.
  intros p d t -> -> ->. exact Hid.
Qed.

End QuestionIdFacts.

(** ** Shuffling keeps the options and the correct answer *)

Module QuizFacts.
Import Str Regex JS Quiz.

Lemma frac_range x : (0 <= frac x < 1)%Q.
Proof.
  unfold frac.
  pose proof (Qfloor_le x) as Hlo.
  pose proof (Qlt_floor x) as Hhi.
  rewrite inject_Z_plus in Hhi.
  change (inject_Z 1) with 1%Q in Hhi.
  split; lra.
Qed.

Lemma Qlt_inject (a b : Z) : (inject_Z a < inject_Z b)%Q <-> a < b.
Proof. rewrite <- Zlt_Qlt. reflexivity. Qed.

Lemma Qle_inject (a b : Z) : (inject_Z a <= inject_Z b)%Q <-> a <= b.
Proof. rewrite <- Zle_Qle. reflexivity. Qed.

Lemma floor_scaled r (n : Z) :
  (0 <= r < 1)%Q -> 0 < n -> 0 <= Math_floor (r * inject_Z n) < n.
Proof.
  intros [Hr0 Hr1] Hn. unfold Math_floor.
  assert (Hn' : (inject_Z 0 < inject_Z n)%Q) by (apply Qlt_inject; exact Hn).
  change (inject_Z 0) with 0%Q in Hn'.
  split.
  - replace 0 with (Qfloor 0) by reflexivity.
    apply Qfloor_resp_le. apply Qmult_le_0_compat; lra.
  - apply Qlt_inject.
    pose proof (Qmult_lt_compat_r r 1 (inject_Z n) Hn' Hr1) as Hlt.
    rewrite Qmult_1_l in Hlt.
    eapply Qle_lt_trans; [apply Qfloor_le | exact Hlt].
Qed.

Lemma swap_Permutation (l : list Z) i j : swap l i j ≡ₚ l.
Proof.
  unfold swap.
  destruct (l !! i) as [a |] eqn:Hi; [| reflexivity].
  destruct (l !! j) as [b |] eqn:Hj; [| reflexivity].
  by apply Permutation_insert_swap.
Qed.

Lemma swap_length (l : list Z) i j : length (swap l i j) = length l.
Proof. apply Permutation_length, swap_Permutation. Qed.

(** The loop returns, and what it returns is a rearrangement of the
    indices, whatever the random source. *)
Lemma fisher_yates_Permutation i : forall (l : list Z) (g : Rand),
  exists l' g', fisher_yates i l g = (Return l', g') /\ l' ≡ₚ l.
Proof.
  induction i as [| i IH]; intros l g.
  - exists l, g. split; reflexivity.
  - cbn [fisher_yates]. unfold bind, Math_random.
    edestruct IH as (l' & g' & Hrun & Hperm).
    exists l', g'. split; [exact Hrun |].
    rewrite Hperm. apply swap_Permutation.
Qed.

(** The index drawn at step [i] is one of [0..i]. *)
Lemma drawn_index_range (i : nat) (g : Rand) :
  0 <= Math_floor (frac (g O) * inject_Z (Z.of_nat (S i) + 1)) <= Z.of_nat (S i).
Proof.
  pose proof (floor_scaled (frac (g O)) (Z.of_nat (S i) + 1) (frac_range _)) as H.
  lia.
Qed.

Lemma is_integer_inject (k : Z) : is_integer (inject_Z k) = true.
Proof. unfold is_integer. rewrite Qfloor_Z. apply Qeq_bool_iff. reflexivity. Qed.

Lemma index_inject arr (i : Z) :
  index (VArr arr) (VNum (inject_Z i)) = Return (elem arr i).
Proof.
  unfold index, elem. rewrite is_integer_inject, Qfloor_Z. simpl.
  destruct (Z.leb_spec 0 i) as [Hle | Hlt].
  - rewrite (proj2 (Qle_bool_iff 0 (inject_Z i))); [reflexivity |].
    apply (Qle_inject 0 i). exact Hle.
  - destruct (Qle_bool 0 (inject_Z i)) eqn:Hq; [| reflexivity].
    apply Qle_bool_iff in Hq. apply (Qle_inject 0 i) in Hq. lia.
Qed.

Lemma rmap_index arr (idx : list Z) :
  rmap (fun i => index (VArr arr) (VNum (inject_Z i))) idx = Return (map (elem arr) idx).
Proof.
  induction idx as [| i idx IH]; cbn [rmap map].
  - reflexivity.
  - rewrite index_inject, IH. reflexivity.
Qed.

Lemma elems_of_four (a b c d : value) :
  map (elem [a; b; c; d]) [0; 1; 2; 3] = [a; b; c; d].
Proof. reflexivity. Qed.

Lemma strict_eq_str_refl s : strict_eq (VStr s) (VStr s) = true.
Proof. simpl. apply String.eqb_refl. Qed.

Lemma strict_eq_str v s : strict_eq v (VStr s) = true -> v = VStr s.
Proof.
  destruct v; simpl; try discriminate.
  intros H. apply String.eqb_eq in H. congruence.
Qed.

Lemma indexOf_from_found arr : forall i x y,
  In y arr -> strict_eq y x = true ->
  i <= indexOf_from i arr x < i + Z.of_nat (length arr)
  /\ strict_eq (nth (Z.to_nat (indexOf_from i arr x - i)) arr VUndefined) x = true.
Proof.
  induction arr as [| z arr IH]; intros i x y Hin Heq; [destruct Hin |].
  cbn [indexOf_from length].
  destruct (strict_eq z x) eqn:Hz.
  - split; [lia |]. replace (i - i) with 0 by lia. exact Hz.
  - destruct Hin as [-> | Hin]; [congruence |].
    destruct (IH (i + 1) x y Hin Heq) as [Hr Hn].
    split; [lia |].
    replace (Z.to_nat (indexOf_from (i + 1) arr x - i))
      with (S (Z.to_nat (indexOf_from (i + 1) arr x - (i + 1)))) by lia.
    exact Hn.
Qed.

Lemma indexOf_from_absent arr : forall i x,
  (forall y, In y arr -> strict_eq y x = false) -> indexOf_from i arr x = -1.
Proof.
  induction arr as [| z arr IH]; intros i x Hall; cbn [indexOf_from].
  - reflexivity.
  - rewrite (Hall z) by (left; reflexivity).
    apply IH. intros y Hy. apply Hall. right. exact Hy.
Qed.

Lemma lookup_set_field_eq k v fields : lookup_field k (set_field k v fields) = v.
Proof.
  induction fields as [| [k' v'] fields IH]; simpl.
  - rewrite String.eqb_refl. reflexivity.
  - destruct (String.eqb k k') eqn:Hk; simpl.
    + rewrite String.eqb_refl. reflexivity.
    + rewrite Hk. exact IH.
Qed.

Lemma lookup_set_field_ne k k' v fields :
  k <> k' -> lookup_field k' (set_field k v fields) = lookup_field k' fields.
Proof.
  intros Hne.
  induction fields as [| [k0 v0] fields IH]; simpl.
  - destruct (String.eqb_spec k' k); [congruence | reflexivity].
  - destruct (String.eqb_spec k k0) as [-> | Hk0]; simpl.
    + destruct (String.eqb_spec k' k0); [congruence | reflexivity].
    + destruct (String.eqb_spec k' k0); [reflexivity | exact IH].
Qed.

(** [shuffleOptions] on an object whose [options] is an array of four
    values: it returns, with a rearrangement of the options and the index
    [indexOf] finds for the answer. *)
Lemma shuffleOptions_run fields opts ci (g : Rand) :
  lookup_field "options" fields = VArr opts ->
  length opts = 4%nat ->
  lookup_field "correctIndex" fields = ci ->
  exists answer shuffled g',
    index (VArr opts) ci = Return answer
    /\ shuffled ≡ₚ opts
    /\ shuffleOptions (VObj fields) g
       = (Return (VObj (set_field "correctIndex"
                          (VNum (inject_Z (indexOf shuffled answer)))
                          (set_field "options" (VArr shuffled) fields))), g').
Proof.
  intros Hopts Hlen Hci.
  assert (Hans : exists answer, index (VArr opts) ci = Return answer).
  { unfold index. destruct ci; eauto.
    destruct (is_integer x && Qle_bool 0 x); eauto. }
  destruct Hans as [answer Hans].
  destruct (fisher_yates_Permutation 3 [0; 1; 2; 3] g) as (idx & g' & Hrun & Hperm).
  exists answer, (map (elem opts) idx), g'.
  split; [exact Hans |]. split.
  - rewrite Hperm.
    destruct opts as [| a [| b [| c [| d [| ? ?]]]]]; try discriminate Hlen.
    reflexivity.
  - unfold shuffleOptions, bind, lift, ret.
    cbn [get_prop]. rewrite Hopts, Hci, Hans, Hrun, rmap_index.
    reflexivity.
Qed.

Lemma get_shuffled_options fields shuffled k :
  get_prop (VObj (set_field "correctIndex" k
                    (set_field "options" (VArr shuffled) fields))) "options"
  = Return (VArr shuffled).
Proof.
  cbn [get_prop]. rewrite lookup_set_field_ne by discriminate.
  rewrite lookup_set_field_eq. reflexivity.
Qed.

Lemma get_shuffled_index fields shuffled k :
  get_prop (VObj (set_field "correctIndex" k
                    (set_field "options" (VArr shuffled) fields))) "correctIndex"
  = Return k.
Proof. cbn [get_prop]. rewrite lookup_set_field_eq. reflexivity. Qed.

Lemma get_shuffled_other fields shuffled k name :
  name <> "options" -> name <> "correctIndex" ->
  get_prop (VObj (set_field "correctIndex" k
                    (set_field "options" (VArr shuffled) fields))) name
  = Return (lookup_field name fields).
Proof.
  intros H1 H2. cbn [get_prop].
  rewrite !lookup_set_field_ne by congruence. reflexivity.
Qed.

Lemma In_map_VStr_absent (texts : list string) v :
  (forall s, v <> VStr s) ->
  forall y, In y (map VStr texts) -> strict_eq y v = false.
Proof.
  intros Hv y Hy. apply in_map_iff in Hy as (s & <- & _).
  destruct v; try reflexivity. exfalso. eapply Hv. reflexivity.
Qed.

(** Where [indexOf] puts the answer among strings: at a position that holds
    it when the answer is one of them, at [-1] when the answer is
    [undefined]. *)
Lemma indexOf_tracks (texts shuffled : list string) answer :
  shuffled ≡ₚ texts ->
  (In answer (map VStr texts) \/ answer = VUndefined) ->
  let k := indexOf (map VStr shuffled) answer in
  elem (map VStr shuffled) k = answer
  /\ (In answer (map VStr texts) -> 0 <= k < Z.of_nat (length texts)).
Proof.
  intros Hperm Hans k. subst k.
  destruct Hans as [Hin | ->].
  - assert (Hin' : In answer (map VStr shuffled)).
    { eapply Permutation_in; [| exact Hin].
      apply Permutation_map. symmetry. exact Hperm. }
    pose proof Hin as Hs. apply in_map_iff in Hs as (s & <- & _).
    destruct (indexOf_from_found (map VStr shuffled) 0 (VStr s) (VStr s) Hin'
                (strict_eq_str_refl s)) as [Hr Hn].
    fold (indexOf (map VStr shuffled) (VStr s)) in Hr, Hn.
    rewrite length_map in Hr. rewrite (Permutation_length Hperm) in Hr.
    split; [| intros _; lia].
    unfold elem. destruct (Z.leb_spec 0 (indexOf (map VStr shuffled) (VStr s))); [| lia].
    rewrite Z.sub_0_r in Hn. apply strict_eq_str in Hn. exact Hn.
  - unfold indexOf. rewrite indexOf_from_absent.
    + split; [reflexivity |].
      intros Hin. apply in_map_iff in Hin as (s & Hs & _). discriminate Hs.
    + apply In_map_VStr_absent. discriminate.
Qed.

(** Reading four strings at a number of [[0, 3]]: one of the strings when the
    number is an integer, [undefined] otherwise. *)
Lemma index_of_four (texts : list string) (x : Q) :
  length texts = 4%nat -> (0 <= x <= 3)%Q ->
  exists answer,
    index (VArr (map VStr texts)) (VNum x) = Return answer
    /\ (if is_integer x then In answer (map VStr texts) else answer = VUndefined).
Proof.
  intros Hlen [H0 H3]. unfold index.
  rewrite (proj2 (Qle_bool_iff 0 x) H0), andb_true_r.
  destruct (is_integer x) eqn:Hint.
  - eexists. split; [reflexivity |].
    apply nth_In. rewrite length_map, Hlen.
    pose proof (Qfloor_resp_le _ _ H0) as Hf0.
    pose proof (Qfloor_resp_le _ _ H3) as Hf3.
    change (Qfloor 0) with 0 in Hf0. change (Qfloor 3) with 3 in Hf3. lia.
  - eexists. split; reflexivity.
Qed.

(** C3: for every question with four options (texts) and a [correctIndex]
    in [[0, 3]], and every run of the random source, [shuffleOptions]
    returns a question whose options are a permutation of the original
    ones and whose [options[correctIndex]] is the original
    [options[correctIndex]]; for an integral index the new index is again
    one of 0..3 and the value read is the text of the correct answer. The
    other properties of the question are kept. *)
Theorem shuffleOptions_preserves_answer
    (fields : list (string * value)) (texts : list string) (x : Q) (g : Rand) :
  lookup_field "options" fields = VArr (map VStr texts) ->
  length texts = 4%nat ->
  lookup_field "correctIndex" fields = VNum x ->
  (0 <= x <= 3)%Q ->
  exists (r : value) (g' : Rand) (shuffled : list string) (k : Z),
    shuffleOptions (VObj fields) g = (Return r, g')
    /\ get_prop r "options" = Return (VArr (map VStr shuffled))
    /\ shuffled ≡ₚ texts
    /\ get_prop r "correctIndex" = Return (VNum (inject_Z k))
    /\ index (VArr (map VStr shuffled)) (VNum (inject_Z k))
       = index (VArr (map VStr texts)) (VNum x)
    /\ (is_integer x = true ->
        0 <= k <= 3
        /\ exists answer, index (VArr (map VStr texts)) (VNum x) = Return (VStr answer))
    /\ (forall name, name <> "options" -> name <> "correctIndex" ->
        get_prop r name = get_prop (VObj fields) name).
Proof.
  intros Hopts Hlen Hci Hx.
  destruct (shuffleOptions_run fields (map VStr texts) (VNum x) g Hopts
              ltac:(rewrite length_map; exact Hlen) Hci)
    as (answer & shuffledv & g' & Hans & Hperm & Hrun).
  apply Permutation_map_inv in Hperm as (shuffled & -> & Hperm).
  symmetry in Hperm.
  destruct (index_of_four texts x Hlen Hx) as (answer' & Hans' & Hcase).
  assert (answer' = answer) by congruence. subst answer'.
  assert (Hwhere : In answer (map VStr texts) \/ answer = VUndefined).
  { destruct (is_integer x); [left | right]; exact Hcase. }
  destruct (indexOf_tracks texts shuffled answer Hperm Hwhere) as [Helem Hrange].
  eexists _, g', shuffled, (indexOf (map VStr shuffled) answer).
  split; [exact Hrun |].
  split; [apply get_shuffled_options |].
  split; [exact Hperm |].
  split; [apply get_shuffled_index |].
  split; [rewrite index_inject, Helem, Hans; reflexivity |].
  split.
  - intros Hint. rewrite Hint in Hcase.
    specialize (Hrange Hcase). split; [lia |].
    apply in_map_iff in Hcase as (s & <- & _).
    exists s. exact Hans.
  - intros name H1 H2. apply get_shuffled_other; assumption.
Qed.

(** *** What the filter of [validateTriviaQuestions] lets through *)

Lemma rmap_normalize elems : forall normalized,
  rmap (fun o => rbind (call_toLowerCase o) (fun l => call_trim (VStr l))) elems
  = Return normalized ->
  exists texts, elems = map VStr texts /\ normalized = map normalize texts.
Proof.
  induction elems as [| o elems IH]; intros normalized H; cbn [rmap] in H.
  - injection H as Heq. subst normalized. exists []. split; reflexivity.
  - destruct o; try discriminate H. cbn [call_toLowerCase rbind call_trim] in H.
    destruct (rmap _ elems) as [rest |] eqn:Hrest; [| discriminate H].
    cbn [rbind] in H. injection H as Heq. subst normalized.
    destruct (IH rest eq_refl) as (texts & -> & ->).
    exists (s :: texts). split; reflexivity.
Qed.

Lemma size_list_to_set_le (l : list string) :
  (size (list_to_set l : gset string) <= length l)%nat.
Proof.
  induction l as [| x l IH]; [reflexivity |].
  cbn [list_to_set length].
  pose proof (size_union_alt {[x]} (list_to_set l : gset string)) as Hu.
  rewrite size_singleton in Hu.
  assert (size ((list_to_set l : gset string) ∖ {[x]}) <= size (list_to_set l : gset string))%nat.
  { apply subseteq_size, subseteq_difference_l. reflexivity. }
  lia.
Qed.

Lemma size_list_to_set_NoDup (l : list string) :
  size (list_to_set l : gset string) = length l -> NoDup l.
Proof.
  induction l as [| x l IH]; intros Hsize; [constructor |].
  cbn [list_to_set length] in Hsize.
  pose proof (size_list_to_set_le l) as Hle.
  destruct (decide (x ∈ (list_to_set l : gset string))) as [Hin | Hnin].
  - assert (Heq : ({[x]} ∪ list_to_set l : gset string) = list_to_set l).
    { apply subseteq_union_1_L, singleton_subseteq_l. exact Hin. }
    rewrite Heq in Hsize. lia.
  - rewrite size_union in Hsize by (apply disjoint_singleton_l; exact Hnin).
    rewrite size_singleton in Hsize.
    constructor.
    + intros Hx. apply Hnin. apply elem_of_list_to_set. exact Hx.
    + apply IH. lia.
Qed.

Lemma trivia_filter_inv q :
  trivia_filter q = true ->
  exists fields texts x funFact,
    q = VObj fields
    /\ lookup_field "options" fields = VArr (map VStr texts)
    /\ length texts = 4%nat
    /\ NoDup (map normalize texts)
    /\ lookup_field "correctIndex" fields = VNum x
    /\ (0 <= x <= 3)%Q
    /\ lookup_field "funFact" fields = VStr funFact
    /\ 5 <= len (trim funFact).
Proof.
  intros H. unfold trivia_filter, catch in H.
  destruct (trivia_checks q) as [b |] eqn:Hc; [subst b | discriminate H].
  unfold trivia_checks in Hc.
  destruct q as [| | b | n | s | elems | fields];
    try (cbn in Hc; discriminate Hc).
  cbn [get_prop rbind] in Hc.
  destruct (truthy (lookup_field "question" fields)); [| discriminate Hc].
  destruct (lookup_field "options" fields) as [| | | | | opts |] eqn:Hopts;
    try discriminate Hc.
  cbn [isArray negb orb elements] in Hc.
  destruct (Z.eqb_spec (Z.of_nat (length opts)) 4) as [Hlen | _]; [| discriminate Hc].
  cbn [negb] in Hc.
  destruct (lookup_field "correctIndex" fields) as [| | | x | | |] eqn:Hci;
    try discriminate Hc.
  destruct (Qle_bool 0 x) eqn:H0; [| discriminate Hc].
  destruct (Qle_bool x 3) eqn:H3; [| discriminate Hc].
  cbn [negb orb] in Hc.
  destruct (rmap _ opts) as [normalized |] eqn:Hnorm; [| discriminate Hc].
  cbn [rbind] in Hc.
  destruct (Z.eqb_spec (set_size normalized) 4) as [Hsize | _]; [| discriminate Hc].
  cbn [negb] in Hc.
  destruct (truthy (lookup_field "funFact" fields)); [| discriminate Hc].
  cbn [negb] in Hc.
  destruct (lookup_field "funFact" fields) as [| | | | funFact | |] eqn:Hff;
    try discriminate Hc.
  cbn [call_trim rbind] in Hc.
  destruct (Z.ltb_spec (len (trim funFact)) 5) as [_ | Hfive]; [discriminate Hc |].
  destruct (rmap_normalize opts normalized Hnorm) as (texts & -> & ->).
  rewrite length_map in Hlen.
  exists fields, texts, x, funFact.
  repeat split; try assumption.
  - lia.
  - apply size_list_to_set_NoDup. unfold set_size in Hsize.
    rewrite !length_map. lia.
  - apply Qle_bool_iff. exact H0.
  - apply Qle_bool_iff. exact H3.
Qed.

(** A well-shaped question is shuffled into a question that has every
    property the specification asks for, but that its index is [-1] when the
    index given was no integer. *)
Lemma shuffle_shaped fields texts x funFact (g : Rand) :
  lookup_field "options" fields = VArr (map VStr texts) ->
  length texts = 4%nat ->
  NoDup (map normalize texts) ->
  lookup_field "correctIndex" fields = VNum x ->
  (0 <= x <= 3)%Q ->
  lookup_field "funFact" fields = VStr funFact ->
  5 <= len (trim funFact) ->
  exists r g',
    shuffleOptions (VObj fields) g = (Return r, g')
    /\ valid_question_from (if is_integer x then 0 else -1) r
    /\ (is_integer x = false ->
        get_prop r "correctIndex" = Return (VNum (inject_Z (-1)))).
Proof.
  intros Hopts Hlen Hnd Hci Hx Hff Hfive.
  destruct (shuffleOptions_run fields (map VStr texts) (VNum x) g Hopts
              ltac:(rewrite length_map; exact Hlen) Hci)
    as (answer & shuffledv & g' & Hans & Hperm & Hrun).
  apply Permutation_map_inv in Hperm as (shuffled & -> & Hperm).
  symmetry in Hperm.
  destruct (index_of_four texts x Hlen Hx) as (answer' & Hans' & Hcase).
  assert (answer' = answer) by congruence. subst answer'.
  assert (Hwhere : In answer (map VStr texts) \/ answer = VUndefined).
  { destruct (is_integer x); [left | right]; exact Hcase. }
  destruct (indexOf_tracks texts shuffled answer Hperm Hwhere) as [Helem Hrange].
  eexists _, g'.
  split; [exact Hrun |].
  assert (Hminus : is_integer x = false -> indexOf (map VStr shuffled) answer = -1).
  { intros Hint. rewrite Hint in Hcase. subst answer.
    apply indexOf_from_absent, In_map_VStr_absent. discriminate. }
  split.
  - exists shuffled, (indexOf (map VStr shuffled) answer), funFact.
    split; [apply get_shuffled_options |].
    split; [rewrite (Permutation_length Hperm); exact Hlen |].
    split.
    { rewrite Hperm. exact Hnd. }
    split; [apply get_shuffled_index |].
    split.
    { destruct (is_integer x) eqn:Hint.
      - specialize (Hrange Hcase). lia.
      - rewrite (Hminus eq_refl). lia. }
    split; [| exact Hfive].
    rewrite get_shuffled_other by discriminate. rewrite Hff. reflexivity.
  - intros Hint. rewrite get_shuffled_index, (Hminus Hint). reflexivity.
Qed.

Lemma shuffle_validated q (g : Rand) :
  trivia_filter q = true ->
  exists r g' x,
    get_prop q "correctIndex" = Return (VNum x)
    /\ shuffleOptions q g = (Return r, g')
    /\ valid_question_from (if is_integer x then 0 else -1) r
    /\ (is_integer x = false ->
        get_prop r "correctIndex" = Return (VNum (inject_Z (-1)))).
Proof.
  intros Hf.
  destruct (trivia_filter_inv q Hf)
    as (fields & texts & x & funFact & -> & Hopts & Hlen & Hnd & Hci & Hx & Hff & Hfive).
  destruct (shuffle_shaped fields texts x funFact g Hopts Hlen Hnd Hci Hx Hff Hfive)
    as (r & g' & Hrun & Hv & Hminus).
  exists r, g', x.
  split; [cbn [get_prop]; rewrite Hci; reflexivity |].
  repeat split; assumption.
Qed.

Lemma valid_question_from_weaken lo lo' r :
  lo' <= lo -> valid_question_from lo r -> valid_question_from lo' r.
Proof.
  intros Hle (texts & k & ff & H1 & H2 & H3 & H4 & H5 & H6 & H7).
  exists texts, k, ff. repeat split; try assumption; lia.
Qed.

(** [mapM] of a function that returns on every element of the list. *)
Lemma mapM_returns {A B} (f : A -> M B) (R : A -> B -> Prop) (l : list A) :
  (forall a g, In a l -> exists b g', f a g = (Return b, g') /\ R a b) ->
  forall g, exists bs g', mapM f l g = (Return bs, g') /\ Forall2 R l bs.
Proof.
  induction l as [| a l IH]; intros Hf g.
  - exists [], g. split; [reflexivity | constructor].
  - destruct (Hf a g (or_introl eq_refl)) as (b & g1 & Hb & Hab).
    destruct (IH (fun a' g' Hin => Hf a' g' (or_intror Hin)) g1) as (bs & g2 & Hbs & Hall).
    exists (b :: bs), g2. split; [| constructor; assumption].
    cbn [mapM]. unfold bind, ret. rewrite Hb, Hbs. reflexivity.
Qed.

Lemma Forall2_right {A B} (P : B -> Prop) (l : list A) (out : list B) :
  Forall2 (fun _ r => P r) l out -> Forall P out.
Proof. induction 1; constructor; assumption. Qed.

(** [validateTriviaQuestions] returns for every input and every run of the
    random source. Each question it returns has four normalized-distinct
    options and a fun fact of five characters or more; its index is among
    0..3 when the index of the candidate it comes from was an integer, and
    [-1] otherwise. *)
Lemma validateTriviaQuestions_returns questions poiNames (g : Rand) :
  exists out g',
    validateTriviaQuestions questions poiNames g = (Return out, g')
    /\ Forall (valid_question_from (-1)) out
    /\ ((forall q x, In q questions ->
           get_prop q "correctIndex" = Return (VNum x) -> is_integer x = true) ->
        Forall valid_question out).
Proof.
  unfold validateTriviaQuestions.
  set (kept := List.filter trivia_filter questions).
  destruct (mapM_returns shuffleOptions
              (fun q r => exists x, get_prop q "correctIndex" = Return (VNum x)
                                    /\ valid_question_from (if is_integer x then 0 else -1) r)
              kept) with (g := g) as (out & g' & Hrun & Hall).
  { intros q g0 Hin. apply filter_In in Hin as [_ Hf].
    destruct (shuffle_validated q g0 Hf) as (r & g1 & x & Hx & Hr & Hv & _).
    exists r, g1. split; [exact Hr |]. exists x. split; assumption. }
  exists out, g'. split; [exact Hrun |]. split.
  - clear Hrun. induction Hall as [| q r qs rs (x & _ & Hv) _ IH]; constructor.
    + eapply valid_question_from_weaken; [| exact Hv].
      destruct (is_integer x); lia.
    + exact IH.
  - intros Hint.
    assert (Hsub : forall q, In q kept -> In q questions).
    { intros q Hq. apply filter_In in Hq as [Hq _]. exact Hq. }
    clear Hrun. induction Hall as [| q r qs rs (x & Hx & Hv) _ IH]; constructor.
    + rewrite (Hint q x (Hsub q (or_introl eq_refl)) Hx) in Hv. exact Hv.
    + apply IH. intros q' Hq'. apply Hsub. right. exact Hq'.
Qed.

(** The filter at work: a curated question passes; a question on the
    capital is dropped whatever its other fields; so is one whose options
    differ only by case and spaces, and anything that is not an object. *)
Example filter_keeps_curated :
  forallb (fun entry => forallb trivia_filter (snd entry)) CURATED_QUESTIONS = true.
Proof. vm_compute. reflexivity. Qed.

Example filter_drops_generic :
  trivia_filter
    (mk_question "What is the capital of France?" ["Paris"; "Lyon"; "Nice"; "Lille"] 0
       "Paris has been the capital since 987.") = false.
Proof. vm_compute. reflexivity. Qed.

Example filter_drops_duplicates :
  trivia_filter
    (mk_question "Which tower opened in 1889?" ["Eiffel"; " eiffel "; "Tokyo"; "Willis"] 0
       "It opened in 1889.") = false.
Proof. vm_compute. reflexivity. Qed.

Example filter_drops_non_objects :
  map trivia_filter [VNull; VUndefined; VNum 3; VStr "question"; VArr []; VObj []]
  = [false; false; false; false; false; false].
Proof. vm_compute. reflexivity. Qed.

Lemma fractional_candidate_kept : trivia_filter fractional_candidate = true.
Proof. vm_compute. reflexivity. Qed.

(** C2 fails on the code: the filter of [validateTriviaQuestions] tests that
    [correctIndex] is a number of [[0, 3]], not that it is an integer. A
    candidate with index 3/2 is let through, and for every run of the random
    source the question returned for it has [correctIndex = -1]: it is not a
    valid question. *)
Theorem validateTriviaQuestions_fractional_index (g : Rand) :
  exists r g',
    validateTriviaQuestions [fractional_candidate] [] g = (Return [r], g')
    /\ get_prop r "correctIndex" = Return (VNum (inject_Z (-1)))
    /\ ~ valid_question r.
Proof.
  destruct (shuffle_validated fractional_candidate g fractional_candidate_kept)
    as (r & g' & x & Hx & Hrun & _ & Hminus).
  assert (x = 3 # 2) by (cbn in Hx; congruence). subst x.
  specialize (Hminus eq_refl).
  exists r, g'. split; [| split].
  - unfold validateTriviaQuestions.
    cbn [List.filter]. rewrite fractional_candidate_kept.
    cbn [mapM]. unfold bind, ret. rewrite Hrun. reflexivity.
  - exact Hminus.
  - intros (texts & k & ff & _ & _ & _ & Hk & Hrange & _).
    rewrite Hminus in Hk. injection Hk as Hk.
    assert (k = -1) by lia. lia.
Qed.

(** *** The distribution guard *)

Lemma every_index_zero_all questions :
  (forall q, In q questions ->
     exists x, get_prop q "correctIndex" = Return (VNum x) /\ (x == 0)%Q) ->
  every_index_zero questions = Return true.
Proof.
  induction questions as [| q questions IH]; intros Hall; cbn [every_index_zero].
  - reflexivity.
  - destruct (Hall q (or_introl eq_refl)) as (x & -> & Hx).
    cbn [rbind strict_eq]. rewrite (proj2 (Qeq_bool_iff x 0) Hx).
    apply IH. intros q' Hq'. apply Hall. right. exact Hq'.
Qed.

Lemma every_index_zero_some questions :
  (forall q, In q questions -> exists v, get_prop q "correctIndex" = Return v) ->
  (exists q v, In q questions /\ get_prop q "correctIndex" = Return v
               /\ strict_eq v (VNum 0) = false) ->
  every_index_zero questions = Return false.
Proof.
  induction questions as [| q questions IH]; intros Hread (q0 & v0 & Hin & Hv0 & Hne).
  - destruct Hin.
  - cbn [every_index_zero].
    destruct (Hread q (or_introl eq_refl)) as (v & Hv). rewrite Hv. cbn [rbind].
    destruct (strict_eq v (VNum 0)) eqn:Hz; [| reflexivity].
    apply IH.
    + intros q' Hq'. apply Hread. right. exact Hq'.
    + destruct Hin as [-> | Hin].
      * rewrite Hv in Hv0. injection Hv0 as <-. congruence.
      * exists q0, v0. repeat split; assumption.
Qed.

(** C4: [checkAnswerDistribution] returns false for every batch of four
    questions or more whose [correctIndex] is 0 throughout, and the whole
    batch is then shuffled again; it returns true for every batch (of
    objects) with a question whose [correctIndex] is not 0 and for every
    batch of fewer than four questions, and the batch then passes unchanged,
    without a random draw. *)
Theorem checkAnswerDistribution_spec (questions : list value) :
  ((4 <= length questions)%nat ->
   (forall q, In q questions ->
      exists x, get_prop q "correctIndex" = Return (VNum x) /\ (x == 0)%Q) ->
   checkAnswerDistribution questions = Return false
   /\ forall g, distribution_guard questions g = mapM shuffleOptions questions g)
  /\ ((forall q, In q questions -> exists v, get_prop q "correctIndex" = Return v) ->
      (exists q v, In q questions /\ get_prop q "correctIndex" = Return v
                   /\ strict_eq v (VNum 0) = false) ->
      checkAnswerDistribution questions = Return true
      /\ forall g, distribution_guard questions g = (Return questions, g))
  /\ ((length questions < 4)%nat ->
      checkAnswerDistribution questions = Return true
      /\ forall g, distribution_guard questions g = (Return questions, g)).
Proof.
  assert (Hpass : checkAnswerDistribution questions = Return true ->
                  forall g, distribution_guard questions g = (Return questions, g)).
  { intros H g. unfold distribution_guard, bind, lift. rewrite H. reflexivity. }
  split; [| split].
  - intros Hlen Hall.
    assert (H : checkAnswerDistribution questions = Return false).
    { unfold checkAnswerDistribution.
      destruct (Z.ltb_spec (Z.of_nat (length questions)) 4); [lia |].
      rewrite every_index_zero_all by exact Hall. reflexivity. }
    split; [exact H |].
    intros g. unfold distribution_guard, bind, lift. rewrite H. reflexivity.
  - intros Hread Hsome.
    assert (H : checkAnswerDistribution questions = Return true).
    { unfold checkAnswerDistribution.
      destruct (Z.ltb_spec (Z.of_nat (length questions)) 4); [reflexivity |].
      rewrite every_index_zero_some by assumption. reflexivity. }
    split; [exact H | exact (Hpass H)].
  - intros Hlen.
    assert (H : checkAnswerDistribution questions = Return true).
    { unfold checkAnswerDistribution.
      destruct (Z.ltb_spec (Z.of_nat (length questions)) 4); [reflexivity | lia]. }
    split; [exact H | exact (Hpass H)].
Qed.

(** *** The fallback of the quiz endpoint *)

Lemma texts_of_map elems texts : texts_of elems = Some texts -> elems = map VStr texts.
Proof.
  revert texts. induction elems as [| e elems IH]; intros texts H; cbn [texts_of] in H.
  - injection H as Heq. subst texts. reflexivity.
  - destruct e; try discriminate H.
    destruct (texts_of elems) as [rest |]; [| discriminate H].
    injection H as Heq. subst texts. cbn [map]. f_equal. apply IH. reflexivity.
Qed.

Lemma shuffle_fallback q (g : Rand) :
  fallback_shape q = true ->
  exists r g', shuffleOptions q g = (Return r, g') /\ valid_question r.
Proof.
  intros H. unfold fallback_shape in H.
  destruct q as [| | | | | | fields]; try discriminate H.
  destruct (lookup_field "options" fields) as [| | | | | elems |] eqn:Hopts;
    try discriminate H.
  destruct (lookup_field "correctIndex" fields) as [| | | x | | |] eqn:Hci;
    try discriminate H.
  destruct (lookup_field "funFact" fields) as [| | | | funFact | |] eqn:Hff;
    try discriminate H.
  destruct (texts_of elems) as [texts |] eqn:Htexts; [| discriminate H].
  apply texts_of_map in Htexts. subst elems.
  repeat (apply andb_true_iff in H as [H ?]).
  assert (Hlen : length texts = 4%nat) by (apply Nat.eqb_eq; assumption).
  destruct (shuffle_shaped fields texts x funFact g Hopts Hlen) as (r & g' & Hrun & Hv & _);
    try assumption.
  - apply size_list_to_set_NoDup. unfold set_size in *. rewrite length_map. lia.
  - split; apply Qle_bool_iff; assumption.
  - lia.
  - exists r, g'. split; [exact Hrun |].
    replace (is_integer x) with true in Hv by (symmetry; assumption). exact Hv.
Qed.

Lemma curated_shape :
  forallb (fun entry => forallb fallback_shape (snd entry)) CURATED_QUESTIONS = true.
Proof. vm_compute. reflexivity. Qed.

Lemma generic_shape city : forallb fallback_shape (generic_questions city) = true.
Proof. vm_compute. reflexivity. Qed.

Lemma first_curated_In key table questions :
  first_curated key table = Some questions -> exists name, In (name, questions) table.
Proof.
  induction table as [| [name qs] table IH]; intros H; cbn [first_curated] in H.
  - discriminate H.
  - destruct (includes key name || includes name key).
    + injection H as ->. exists name. left. reflexivity.
    + destruct (IH H) as (name' & Hin). exists name'. right. exact Hin.
Qed.

Lemma getFallbackQuestions_shape city :
  forallb fallback_shape (getFallbackQuestions city) = true.
Proof.
  unfold getFallbackQuestions.
  destruct (first_curated _ CURATED_QUESTIONS) as [questions |] eqn:Hc.
  - apply first_curated_In in Hc as (name & Hin).
    pose proof curated_shape as Hall. rewrite forallb_forall in Hall.
    exact (Hall _ Hin).
  - apply generic_shape.
Qed.

Lemma getFallbackQuestions_nonempty city : getFallbackQuestions city <> [].
Proof.
  unfold getFallbackQuestions.
  destruct (first_curated _ CURATED_QUESTIONS) as [questions |] eqn:Hc.
  - apply first_curated_In in Hc as (name & Hin).
    assert (Hne : forallb (fun entry => negb (Nat.eqb (length (snd entry)) 0))
                          CURATED_QUESTIONS = true) by (vm_compute; reflexivity).
    rewrite forallb_forall in Hne. specialize (Hne _ Hin). cbn [snd] in Hne.
    intros ->. discriminate Hne.
  - discriminate.
Qed.

(** The fallback questions are shuffled into valid questions, as many as
    there were. *)
Lemma shuffle_fallbacks city (g : Rand) :
  exists questions g',
    mapM shuffleOptions (getFallbackQuestions city) g = (Return questions, g')
    /\ Forall valid_question questions
    /\ length questions = length (getFallbackQuestions city).
Proof.
  pose proof (getFallbackQuestions_shape city) as Hshape.
  rewrite forallb_forall in Hshape.
  destruct (mapM_returns shuffleOptions (fun _ r => valid_question r)
              (getFallbackQuestions city)) with (g := g) as (out & g' & Hrun & Hall).
  { intros q g0 Hin. apply shuffle_fallback, Hshape, Hin. }
  exists out, g'. split; [exact Hrun |]. split.
  - eapply Forall2_right. exact Hall.
  - symmetry. eapply Forall2_length. exact Hall.
Qed.

Section HandlerFacts.

Variable generation : value -> M response.

(** When the [try] block throws, either the request had no body at all or
    its [city] is a non-empty string. *)
Lemma quiz_try_throws req_body (g g1 : Rand) e :
  quiz_try generation req_body g = (Throw e, g1) ->
  exists city,
    or_else (get_prop_opt req_body "city") (VStr "the city") = VStr city.
Proof.
  unfold quiz_try, bind, lift, get_prop_opt, or_else. intros H.
  destruct (get_prop req_body "city") as [city | e'] eqn:Hcity.
  - destruct (truthy city) eqn:Ht; cbn [negb orb] in H.
    + destruct city; cbn [is_string negb] in H; try discriminate H.
      exists s. reflexivity.
    + discriminate H.
  - exists "the city". reflexivity.
Qed.

(** C6: when the generation pipeline of [POST /api/quiz/generate] throws
    and the request carries a [cityPlaceId], the endpoint answers 503 with
    empty [questions] and [questionIds] and source "error", and no curated
    content; when it throws and the request carries no [cityPlaceId], the
    endpoint answers 200 with the shuffled curated or generic fallback
    questions of the city (at least one, each one valid) and source
    "fallback". *)
Theorem quiz_generate_on_failure req_body (g g1 : Rand) e :
  quiz_try generation req_body g = (Throw e, g1) ->
  (truthy (get_prop_opt req_body "cityPlaceId") = true ->
   quiz_generate generation req_body g
   = (Return (status_json 503
        (VObj [ ("error", VStr "Quiz generation temporarily unavailable. Please try again.");
                ("questions", VArr []);
                ("questionIds", VArr []);
                ("poolExhausted", VBool false);
                ("source", VStr "error") ])), g1))
  /\ (truthy (get_prop_opt req_body "cityPlaceId") = false ->
      exists city questions g2,
        or_else (get_prop_opt req_body "city") (VStr "the city") = VStr city
        /\ mapM shuffleOptions (getFallbackQuestions city) g1 = (Return questions, g2)
        /\ questions <> []
        /\ Forall valid_question questions
        /\ quiz_generate generation req_body g
           = (Return (status_json 200
                (VObj [ ("questions", VArr questions);
                        ("questionIds", VArr []);
                        ("poolExhausted", VBool false);
                        ("source", VStr "fallback") ])), g2)).
Proof.
  intros Hthrow.
  destruct (quiz_try_throws req_body g g1 e Hthrow) as (city & Hcity).
  split.
  - intros Hid. unfold quiz_generate, try_catch. rewrite Hthrow.
    unfold quiz_catch. rewrite Hid. reflexivity.
  - intros Hid.
    destruct (shuffle_fallbacks city g1) as (questions & g2 & Hrun & Hvalid & Hlen).
    exists city, questions, g2.
    split; [exact Hcity |]. split; [exact Hrun |]. split; [| split; [exact Hvalid |]].
    + intros ->. apply (getFallbackQuestions_nonempty city).
      destruct (getFallbackQuestions city); [reflexivity | discriminate Hlen].
    + unfold quiz_generate, try_catch. rewrite Hthrow.
      unfold quiz_catch. rewrite Hid, Hcity.
      unfold bind, lift, ret. rewrite Hrun. reflexivity.
Qed.

End HandlerFacts.

End QuizFacts.

(** ** Parsing the model's output never throws *)

Module ParseFacts.
Import Str Regex JS Quiz Parse Validators.

Example fenced_array :
  safeJsonParse parse_empty_only "```json
[]
```" = Return (VArr []).
Proof. vm_compute. reflexivity. Qed.

Example array_in_prose :
  safeJsonParse parse_empty_only "Here you go: [] enjoy" = Return (VArr []).
Proof. vm_compute. reflexivity. Qed.

Example object_in_prose :
  safeJsonParse parse_empty_only "Sorry, {} is all I have" = Return (VObj []).
Proof. vm_compute. reflexivity. Qed.

(** A bracketed text that does not parse ends the search: the braces are
    not tried. *)
Example array_match_wins :
  exec re_array "see [1] or {}" = Some "[1]"
  /\ safeJsonParse parse_empty_only "see [1] or {}" = Return VNull.
Proof. vm_compute. split; reflexivity. Qed.

Lemma run_star_iter r st : run (Star r) st = star_iter r (String.length (snd st)) st.
Proof.
  cbn [run]. generalize (String.length (snd st)). intros n. revert st.
  induction n as [| n IH]; intros st; [reflexivity |].
  cbn [star_iter]. f_equal. apply flat_map_ext. intros st' . apply IH.
Qed.

Lemma run_sequence r1 r2 st : run (Seq r1 r2) st = flat_map (run r2) (run r1 st).
Proof. reflexivity. Qed.

Lemma star_any s : forall prev, run (Star any) (prev, s) = ends prev s.
Proof.
  intros prev. rewrite run_star_iter. cbn [snd]. revert prev.
  induction s as [| c t IH]; intros prev; [reflexivity |].
  cbn [String.length star_iter ends]. cbn [run any snd]. cbn [List.filter].
  unfold shorter. cbn [snd String.length].
  replace (String.length t <? S (String.length t))%nat with true
    by (symmetry; apply Nat.ltb_lt; lia).
  cbn [flat_map]. rewrite app_nil_r, IH. reflexivity.
Qed.

Lemma run_char c prev s :
  run (char c) (prev, s)
  = match s with
    | String x t => if Ascii.eqb c x then [(Some x, t)] else []
    | EmptyString => []
    end.
Proof. reflexivity. Qed.

Lemma hd_flat_map_app {A B} (f : A -> list B) (l1 l2 : list A) :
  hd_error (flat_map f (l1 ++ l2))
  = match hd_error (flat_map f l1) with
    | Some b => Some b
    | None => hd_error (flat_map f l2)
    end.
Proof.
  rewrite flat_map_app. destruct (flat_map f l1); reflexivity.
Qed.

(** The first way to close after a greedy [[\s\S]*] is the last closing
    character. *)
Lemma closes_at_last c s : forall prev,
  hd_error (flat_map (run (char c)) (ends prev s))
  = match up_to_last c s with
    | Some p => Some (Some c, drop (String.length p) s)
    | None => None
    end.
Proof.
  induction s as [| x t IH]; intros prev; [reflexivity |].
  cbn [ends up_to_last]. rewrite hd_flat_map_app, IH.
  destruct (up_to_last c t) as [p |]; [reflexivity |].
  cbn [flat_map]. rewrite run_char, app_nil_r.
  destruct (Ascii.eqb_spec c x) as [-> | _]; reflexivity.
Qed.

Lemma up_to_last_prefix c s : forall p,
  up_to_last c s = Some p ->
  take (String.length p) s = p /\ (String.length p <= String.length s)%nat.
Proof.
  induction s as [| x t IH]; intros p; cbn [up_to_last]; [discriminate |].
  destruct (up_to_last c t) as [q |].
  - intros [= <-]. destruct (IH q eq_refl) as [Ht Hl].
    cbn [String.length take]. rewrite Ht. split; [reflexivity | lia].
  - destruct (Ascii.eqb c x); [| discriminate].
    intros [= <-]. cbn. split; [reflexivity | lia].
Qed.

Lemma length_drop n : forall s,
  (n <= String.length s)%nat -> String.length (drop n s) = (String.length s - n)%nat.
Proof.
  induction n as [| n IH]; intros s Hn; cbn [drop]; [lia |].
  destruct s as [| c t]; cbn [String.length] in *; [lia |].
  rewrite IH by lia. reflexivity.
Qed.

Lemma run_bracket opening closing prev s :
  hd_error (run (bracket opening closing) (prev, s))
  = match s with
    | String x t =>
        if Ascii.eqb opening x then
          match up_to_last closing t with
          | Some p => Some (Some closing, drop (String.length p) t)
          | None => None
          end
        else None
    | EmptyString => None
    end.
Proof.
  unfold bracket. rewrite run_sequence, run_char.
  destruct s as [| x t]; [reflexivity |].
  destruct (Ascii.eqb opening x); [| reflexivity].
  cbn [flat_map]. rewrite app_nil_r, run_sequence, star_any. apply closes_at_last.
Qed.

Lemma exec_from_step r prev s :
  exec_from r prev s
  = match hd_error (run r (prev, s)) with
    | Some (_, rest) => Some (take (String.length s - String.length rest) s)
    | None =>
        match s with
        | String c t => exec_from r (Some c) t
        | EmptyString => None
        end
    end.
Proof.
  destruct s as [| c t]; cbn [exec_from];
    destruct (run r _) as [| [p rest] l]; reflexivity.
Qed.

Lemma exec_no_closing opening closing s : forall prev,
  up_to_last closing s = None -> exec_from (bracket opening closing) prev s = None.
Proof.
  induction s as [| x t IH]; intros prev Hnone; rewrite exec_from_step, run_bracket;
    [reflexivity |].
  cbn [up_to_last] in Hnone.
  destruct (up_to_last closing t) as [p |] eqn:Ht; [discriminate Hnone |].
  destruct (Ascii.eqb opening x); apply IH; reflexivity.
Qed.

(** [text.match(/\[[\s\S]*\]/)]: from the first opening bracket to the last
    closing bracket behind it. *)
Lemma exec_bracket opening closing s : forall prev,
  exec_from (bracket opening closing) prev s = first_bracketed opening closing s.
Proof.
  unfold first_bracketed.
  induction s as [| x t IH]; intros prev; rewrite exec_from_step, run_bracket;
    [reflexivity |].
  cbn [from_first].
  destruct (Ascii.eqb_spec opening x) as [<- | _]; [| apply IH].
  destruct (up_to_last closing t) as [p |] eqn:Ht.
  - destruct (up_to_last_prefix closing t p Ht) as [Hp Hl].
    rewrite length_drop by exact Hl. cbn [String.length].
    replace (S (String.length t) - (String.length t - String.length p))%nat
      with (S (String.length p)) by lia.
    cbn [take]. rewrite Hp. reflexivity.
  - apply exec_no_closing. exact Ht.
Qed.

Fixpoint last_read (prev : option ascii) (m : string) : option ascii :=
  match m with
  | EmptyString => prev
  | String c m' => last_read (Some c) m'
  end.

Lemma run_lit m : forall prev s,
  run (lit m) (prev, s)
  = if startsWith m s then [(last_read prev m, drop (String.length m) s)] else [].
Proof.
  induction m as [| c m IH]; intros prev s; [reflexivity |].
  cbn [lit]. rewrite run_sequence, run_char.
  destruct s as [| x t]; [reflexivity |].
  cbn [startsWith String.length drop last_read].
  destruct (Ascii.eqb_spec c x) as [<- | _]; [| reflexivity].
  cbn [flat_map andb]. rewrite app_nil_r. apply IH.
Qed.


Lemma run_fence marker prev s :
  exists p,
  hd_error (run (fence marker) (prev, s))
  = if startsWith marker s then Some (p, behind marker s) else None.
Proof.
  unfold fence, behind. rewrite run_sequence, run_lit.
  destruct (startsWith marker s); [| exists None; reflexivity].
  cbn [flat_map]. rewrite app_nil_r. unfold opt. cbn [run]. fold (char LF).
  rewrite run_char.
  destruct (drop (String.length marker) s) as [| c t]; [eexists; reflexivity |].
  destruct (Ascii.eqb_spec LF c) as [<- | Hne].
  - rewrite Ascii.eqb_refl. eexists; reflexivity.
  - destruct (Ascii.eqb_spec c LF) as [-> | _]; [contradiction | eexists; reflexivity].
Qed.

Lemma delete_go_step r prev c t :
  delete_go r O prev (String c t)
  = match hd_error (run r (prev, String c t)) with
    | Some (_, rest) =>
        match (String.length (String c t) - String.length rest)%nat with
        | O => String c (delete_go r O (Some c) t)
        | S k => delete_go r k (Some c) t
        end
    | None => String c (delete_go r O (Some c) t)
    end.
Proof.
  cbn [delete_go]. destruct (run r _) as [| [p rest] l]; reflexivity.
Qed.

Lemma drop_next n : forall s c t,
  drop n s = String c t -> drop (S n) s = t /\ (S n <= String.length s)%nat.
Proof.
  induction n as [| n IH]; intros s c t.
  - cbn [drop]. intros ->. cbn. split; [reflexivity | lia].
  - destruct s as [| x s']; [discriminate |].
    change (drop (S n) (String x s')) with (drop n s').
    intros H. destruct (IH s' c t H) as [Hd Hl].
    change (drop (S (S n)) (String x s')) with (drop (S n) s').
    split; [exact Hd | cbn [String.length]; lia].
Qed.

Lemma startsWith_length m : forall s,
  startsWith m s = true -> (String.length m <= String.length s)%nat.
Proof.
  induction m as [| a m IH]; intros s; cbn [String.length]; [lia |].
  destruct s as [| b s]; cbn [startsWith]; [discriminate |].
  intros H. apply andb_true_iff in H as [_ H]. specialize (IH s H).
  cbn [String.length]. lia.
Qed.

(** A marker that is found takes one character or more away. *)
Lemma behind_drop marker s :
  marker <> EmptyString -> startsWith marker s = true ->
  exists k, behind marker s = drop (S k) s /\ (S k <= String.length s)%nat.
Proof.
  intros Hne Hs. pose proof (startsWith_length marker s Hs) as Hl.
  destruct marker as [| a m]; [contradiction |]. cbn [String.length] in *.
  unfold behind. cbn [String.length].
  destruct (drop (S (String.length m)) s) as [| c t] eqn:Hd.
  - exists (String.length m). split; [symmetry; exact Hd | exact Hl].
  - destruct (Ascii.eqb c LF).
    + destruct (drop_next _ _ _ _ Hd) as [Hn Hln].
      exists (S (String.length m)). split; [symmetry; exact Hn | exact Hln].
    + exists (String.length m). split; [symmetry; exact Hd | exact Hl].
Qed.

(** [s.replace(/marker\n?/g, empty)] is [s] without the marker. *)
Lemma delete_fence marker :
  marker <> EmptyString ->
  forall s fuel skip prev,
    (String.length s <= fuel + skip)%nat ->
    delete_go (fence marker) skip prev s = without_marker fuel marker (drop skip s).
Proof.
  intros Hne. induction s as [| c t IH]; intros fuel skip prev Hfuel.
  - assert (Hd : drop skip EmptyString = EmptyString) by (destruct skip; reflexivity).
    rewrite Hd. destruct fuel as [| fuel]; cbn [delete_go without_marker]; [reflexivity |].
    destruct marker as [| a m]; [contradiction | reflexivity].
  - destruct skip as [| k].
    + cbn [drop]. destruct fuel as [| fuel]; [cbn [String.length] in Hfuel; lia |].
      rewrite delete_go_step. destruct (run_fence marker prev (String c t)) as [p ->].
      cbn [without_marker].
      destruct (startsWith marker (String c t)) eqn:Hs.
      * destruct (behind_drop marker (String c t) Hne Hs) as (k & -> & Hk).
        rewrite length_drop by exact Hk.
        replace (String.length (String c t) - (String.length (String c t) - S k))%nat
          with (S k) by lia.
        change (drop (S k) (String c t)) with (drop k t).
        apply IH. cbn [String.length] in Hfuel. lia.
      * f_equal. rewrite (IH fuel O (Some c)) by (cbn [String.length] in Hfuel; lia).
        reflexivity.
    + change (drop (S k) (String c t)) with (drop k t).
      cbn [delete_go]. apply IH. cbn [String.length] in Hfuel. lia.
Qed.

Lemma delete_all_fence marker s :
  marker <> EmptyString -> delete_all (fence marker) s = without marker s.
Proof.
  intros Hne. unfold delete_all, without.
  rewrite (delete_fence marker Hne s (String.length s) O None) by lia.
  reflexivity.
Qed.

Lemma cleaned_text text :
  trim (delete_all re_fence (delete_all re_fence_json text)) = strip_fences text.
Proof.
  unfold strip_fences.
  change re_fence_json with (fence "```json"). change re_fence with (fence "```").
  rewrite !delete_all_fence by discriminate. reflexivity.
Qed.

Lemma exec_array text : exec re_array text = first_bracketed "[" "]" text.
Proof. apply (exec_bracket "[" "]"). Qed.

Lemma exec_object text : exec re_object text = first_bracketed "{" "}" text.
Proof. apply (exec_bracket "{" "}"). Qed.

(** The fences are stripped before the text is parsed: a fenced object that
    holds an array is parsed as the object, not as the array inside. *)
Example fenced_object :
  strip_fences fenced_questions = questions_text
  /\ safeJsonParse parse_questions_object fenced_questions
     = Return (VObj [("questions", VArr [])]).
Proof. vm_compute. split; reflexivity. Qed.

Section SafeJsonParseFacts.

Variable JSON_parse : string -> result value.

(** C8: [safeJsonParse] returns a value for every text and never throws:
    the parse of the text without its code fences when that parse succeeds;
    otherwise the parse of the first bracketed text (the array if the text
    has one, else the object) when that parse succeeds; otherwise null. The
    text without its fences and the first bracketed text are the ones the
    specification names ([strip_fences], [first_bracketed]), not the
    expressions of the code. Text that parses nowhere gives null, and the
    quiz path makes the empty list of questions of null, so that
    [validateTriviaQuestions] returns no question and nothing is thrown. *)
Theorem safeJsonParse_total (text : string) :
  exists v,
    safeJsonParse JSON_parse text = Return v
    /\ match JSON_parse (strip_fences text) with
       | Return direct => v = direct
       | Throw _ =>
           match first_bracketed "[" "]" text, first_bracketed "{" "}" text with
           | Some m, _ => v = catch (JSON_parse m) VNull
           | None, Some m => v = catch (JSON_parse m) VNull
           | None, None => v = VNull
           end
       end
    /\ ((exists e, JSON_parse (strip_fences text) = Throw e) ->
        (forall m,
           first_bracketed "[" "]" text = Some m \/ first_bracketed "{" "}" text = Some m ->
           exists e, JSON_parse m = Throw e) ->
        v = VNull)
    /\ (v = VNull ->
        parsed_questions JSON_parse text = Return []
        /\ forall poiNames g, validateTriviaQuestions [] poiNames g = (Return [], g)).
Proof.
  assert (Hquiz : forall v,
            safeJsonParse JSON_parse text = Return v -> v = VNull ->
            parsed_questions JSON_parse text = Return []
            /\ forall poiNames g, validateTriviaQuestions [] poiNames g = (Return [], g)).
  { intros v Hv ->. split; [| reflexivity].
    unfold parsed_questions. rewrite Hv. reflexivity. }
  unfold safeJsonParse, try_or in *.
  rewrite cleaned_text, exec_array, exec_object in *.
  destruct (JSON_parse (strip_fences text)) as [direct | e] eqn:Hdirect.
  - exists direct.
    split; [reflexivity |]. split; [reflexivity |].
    split; [intros [e He]; discriminate He | exact (Hquiz direct eq_refl)].
  - destruct (first_bracketed "[" "]" text) as [m |] eqn:Harr.
    + destruct (JSON_parse m) as [v |] eqn:Hm.
      * exists v.
        split; [reflexivity |]. split; [reflexivity |].
        split; [| exact (Hquiz v eq_refl)].
        intros _ Hnone. destruct (Hnone m (or_introl eq_refl)) as [e' He'].
        congruence.
      * exists VNull.
        split; [reflexivity |]. split; [reflexivity |].
        split; [reflexivity | exact (Hquiz VNull eq_refl)].
    + destruct (first_bracketed "{" "}" text) as [m |] eqn:Hobj.
      * destruct (JSON_parse m) as [v |] eqn:Hm.
        -- exists v.
           split; [reflexivity |]. split; [reflexivity |].
           split; [| exact (Hquiz v eq_refl)].
           intros _ Hnone. destruct (Hnone m (or_intror eq_refl)) as [e' He'].
           congruence.
        -- exists VNull.
           split; [reflexivity |]. split; [reflexivity |].
           split; [reflexivity | exact (Hquiz VNull eq_refl)].
      * exists VNull.
        split; [reflexivity |]. split; [reflexivity |].
        split; [reflexivity | exact (Hquiz VNull eq_refl)].
Qed.

End SafeJsonParseFacts.

End ParseFacts.

(** ** Validated suggestions are distinct and outside the exclusions *)

Module SuggestionsFacts.
Import Str JS Suggestions.

Lemma truthy_str t : truthy (VStr t) = true -> t <> EmptyString.
Proof.
  cbn [truthy]. intros H ->. discriminate H.
Qed.

(** An entry that is kept passed every test, and its key joined [seen]. *)
Lemma suggestion_kept titleSet placeIdSet seen s seen' :
  EmptyString ∉ placeIdSet ->
  catch (suggestion_checks titleSet placeIdSet seen s) (false, seen) = (true, seen') ->
  exists t,
    kept_entry titleSet placeIdSet s t
    /\ (normalize t ∉ seen)
    /\ seen' = {[normalize t]} ∪ seen.
Proof.
  intros Hempty H. unfold suggestion_checks in H.
  destruct (get_prop s "title") as [title |] eqn:Htitle; [| discriminate H].
  destruct (get_prop s "description") as [description |] eqn:Hdesc; [| discriminate H].
  destruct (get_prop s "category") as [category |] eqn:Hcat; [| discriminate H].
  cbn [rbind] in H.
  destruct (truthy title) eqn:Ht; [| discriminate H].
  destruct (truthy description) eqn:Hd; [| discriminate H].
  destruct (truthy category) eqn:Hc; [| discriminate H].
  cbn [negb orb] in H.
  destruct title as [| | | | t | |]; try discriminate H.
  cbn [call_toLowerCase rbind] in H.
  fold (normalize t) in H.
  destruct (bool_decide (normalize t ∈ titleSet)) eqn:Hexcl; [discriminate H |].
  destruct (bool_decide (normalize t ∈ seen)) eqn:Hseen; [discriminate H |].
  cbn [orb] in H.
  destruct (get_prop s "placeId") as [placeId |] eqn:Hpid; [| discriminate H].
  cbn [rbind] in H.
  destruct (truthy placeId && has placeIdSet placeId) eqn:Hhas; [discriminate H |].
  cbn [catch] in H. injection H as Hs. subst seen'.
  apply bool_decide_eq_false in Hexcl, Hseen.
  exists t. split; [| split; [exact Hseen | reflexivity]].
  split; [exact Htitle |]. split; [apply truthy_str; exact Ht |].
  split; [exists description; split; [exact Hdesc | exact Hd] |].
  split; [exists category; split; [exact Hcat | exact Hc] |].
  split; [exact Hexcl |].
  intros p Hp Hin. rewrite Hpid in Hp. injection Hp as ->.
  cbn [truthy has] in Hhas.
  rewrite (bool_decide_eq_true_2 _ Hin), andb_true_r in Hhas.
  apply negb_false_iff, String.eqb_eq in Hhas. subst p. exact (Hempty Hin).
Qed.

(** An entry that is dropped leaves [seen] as it was. *)
Lemma suggestion_dropped titleSet placeIdSet seen s seen' :
  catch (suggestion_checks titleSet placeIdSet seen s) (false, seen) = (false, seen') ->
  seen' = seen.
Proof.
  unfold suggestion_checks. intros H.
  destruct (get_prop s "title") as [title |]; [| injection H as <-; reflexivity].
  destruct (get_prop s "description") as [description |]; [| injection H as <-; reflexivity].
  destruct (get_prop s "category") as [category |]; [| injection H as <-; reflexivity].
  cbn [rbind] in H.
  destruct (negb (truthy title) || negb (truthy description) || negb (truthy category));
    [injection H as <-; reflexivity |].
  destruct (call_toLowerCase title) as [lower |]; [| injection H as <-; reflexivity].
  cbn [rbind] in H.
  destruct (bool_decide (trim lower ∈ titleSet) || bool_decide (trim lower ∈ seen));
    [injection H as <-; reflexivity |].
  destruct (get_prop s "placeId") as [placeId |]; [| injection H as <-; reflexivity].
  cbn [rbind] in H.
  destruct (truthy placeId && has placeIdSet placeId);
    [injection H as <-; reflexivity | discriminate H].
Qed.

Lemma filter_seen_spec titleSet placeIdSet suggestions :
  EmptyString ∉ placeIdSet ->
  forall seen, exists titles,
    Forall2 (kept_entry titleSet placeIdSet)
            (filter_seen titleSet placeIdSet seen suggestions) titles
    /\ NoDup (map normalize titles)
    /\ (forall t, In t titles -> normalize t ∉ seen).
Proof.
  intros Hempty.
  induction suggestions as [| s rest IH]; intros seen.
  - exists []. split; [constructor |]. split; [constructor |]. intros t [].
  - cbn [filter_seen].
    destruct (catch (suggestion_checks titleSet placeIdSet seen s) (false, seen))
      as [keep seen'] eqn:Hcheck.
    destruct keep.
    + destruct (suggestion_kept _ _ _ _ _ Hempty Hcheck) as (t & Hentry & Hfresh & ->).
      destruct (IH ({[normalize t]} ∪ seen)) as (titles & Hall & Hnd & Hout).
      exists (t :: titles).
      split; [constructor; assumption |]. split.
      * cbn [map]. constructor; [| exact Hnd].
        intros Hin. apply list_elem_of_In, in_map_iff in Hin as (t' & Heq & Hin').
        apply (Hout t' Hin'). rewrite Heq. set_solver.
      * intros t' [<- | Hin']; [exact Hfresh |].
        intros Hs. apply (Hout t' Hin'). set_solver.
    + apply suggestion_dropped in Hcheck. subst seen'. apply IH.
Qed.

Lemma placeIdSet_of_spec excludePlaceIds p :
  p ∈ placeIdSet_of excludePlaceIds <-> In p excludePlaceIds /\ p <> EmptyString.
Proof.
  unfold placeIdSet_of. rewrite elem_of_list_to_set, list_elem_of_In, filter_In.
  unfold non_empty. rewrite negb_true_iff.
  split; intros [Hin Hne]; (split; [exact Hin |]).
  - intros ->. discriminate Hne.
  - destruct (String.eqb_spec p EmptyString); [contradiction | reflexivity].
Qed.

Lemma titleSet_of_spec excludeTitles k :
  k ∈ titleSet_of excludeTitles <-> exists t, In t excludeTitles /\ normalize t = k.
Proof.
  unfold titleSet_of. rewrite elem_of_list_to_set, list_elem_of_In, in_map_iff.
  split; intros (t & H1 & H2); exists t; (split; [assumption |]); assumption.
Qed.

(** C9: for every input list and every exclusion lists, the entries
    [validateSuggestions] returns have titles that are pairwise different
    after lowering and trimming; none has a normalized title in the set of
    excluded titles or a [placeId] in the set of excluded place ids; each has
    a non-empty title and a description and a category that are not
    empty. *)
Theorem validateSuggestions_spec (suggestions : list value)
    (excludeTitles excludePlaceIds : list string) :
  exists titles : list string,
    Forall2 (kept_entry (titleSet_of excludeTitles) (placeIdSet_of excludePlaceIds))
            (validateSuggestions suggestions excludeTitles excludePlaceIds) titles
    /\ NoDup (map normalize titles).
Proof.
  unfold validateSuggestions.
  destruct (filter_seen_spec (titleSet_of excludeTitles) (placeIdSet_of excludePlaceIds)
              suggestions) with (seen := (∅ : gset string)) as (titles & Hall & Hnd & _).
  - rewrite placeIdSet_of_spec. intros [_ Hne]. apply Hne. reflexivity.
  - exists titles. split; assumption.
Qed.

End SuggestionsFacts.

(** ** The geocode cache never expires *)

Module GeocodeFacts.
Import Str JS Geocode.

Section HandlerFacts.

Variable parseFloat : value -> option Q.

(** A request for an address whose key is in the cache is answered from the
    cache: no query, no change of state. *)
Lemma arrive_hit st req_body a entry :
  get_prop req_body "address" = Return (VStr a) ->
  a <> EmptyString ->
  geocodeCache st !! normalize a = Some entry ->
  arrive st req_body = (st, answers (cached_answer entry)).
Proof.
  intros Haddr Hne Hhit. unfold arrive. rewrite Haddr.
  cbn [truthy]. destruct (String.eqb_spec a EmptyString) as [-> | _]; [contradiction |].
  cbn [negb]. fold (normalize a). rewrite Hhit. reflexivity.
Qed.

(** No step removes an entry of the cache. *)
Lemma resume_keeps cache w outcome key entry :
  cache !! key = Some entry ->
  exists entry', fst (resume parseFloat cache w outcome) !! key = Some entry'.
Proof.
  intros Hk. unfold resume.
  destruct outcome as [results | e]; [| eauto].
  assert (Hins : forall v, exists entry', <[cacheKey w := v]> cache !! key = Some entry').
  { intros v. destruct (decide (cacheKey w = key)) as [-> | Hne].
    - exists v. apply lookup_insert_eq.
    - exists entry. rewrite lookup_insert_ne by exact Hne. exact Hk. }
  destruct results as [| | | | | [| first rest] |]; try apply Hins.
  destruct (get_prop first "lat"), (get_prop first "lon"); cbn [fst]; eauto.
Qed.

Lemma step_keeps st ev key entry :
  geocodeCache st !! key = Some entry ->
  exists entry', geocodeCache (fst (step parseFloat st ev)) !! key = Some entry'.
Proof.
  intros Hk. destruct ev as [req_body t | i outcome t]; cbn [step].
  - unfold arrive.
    destruct (get_prop req_body "address") as [address |]; [| eauto].
    destruct address; eauto.
    destruct (negb (truthy (VStr s))); [eauto |].
    destruct (geocodeCache st !! trim (toLowerCase s)); cbn [fst geocodeCache]; eauto.
  - destruct (waiting st !! i) as [w |]; [| eauto].
    destruct (resume_keeps (geocodeCache st) w outcome key entry Hk) as (entry' & He).
    destruct (resume parseFloat (geocodeCache st) w outcome) as [cache r].
    exists entry'. exact He.
Qed.

(** While no request for [key] waits for the provider, none starts to wait
    and the entry of [key] stays what it is. *)
Lemma resume_other cache w outcome key :
  cacheKey w <> key ->
  fst (resume parseFloat cache w outcome) !! key = cache !! key.
Proof.
  intros Hne. unfold resume.
  destruct outcome as [results | e]; [| reflexivity].
  destruct results as [| | | | | [| first rest] |];
    try (cbn [fst]; apply lookup_insert_ne; exact Hne).
  destruct (get_prop first "lat"), (get_prop first "lon"); cbn [fst];
    try reflexivity.
  apply lookup_insert_ne. exact Hne.
Qed.

Lemma step_settled st ev key entry :
  settled key entry st -> settled key entry (fst (step parseFloat st ev)).
Proof.
  intros [Hk Hw]. destruct ev as [req_body t | i outcome t]; cbn [step].
  - unfold arrive.
    destruct (get_prop req_body "address") as [address |]; [| split; assumption].
    destruct address; try (split; assumption).
    destruct (negb (truthy (VStr s))); [split; assumption |].
    destruct (geocodeCache st !! trim (toLowerCase s)) eqn:Hs; [split; assumption |].
    split; cbn [fst geocodeCache waiting]; [exact Hk |].
    apply Forall_app. split; [exact Hw |].
    constructor; [| constructor]. cbn [cacheKey]. intros Heq.
    rewrite Heq in Hs. congruence.
  - destruct (waiting st !! i) as [w |] eqn:Hi; [| split; assumption].
    assert (Hne : cacheKey w <> key).
    { rewrite Forall_forall in Hw. apply Hw.
      apply list_elem_of_lookup. eauto. }
    pose proof (resume_other (geocodeCache st) w outcome key Hne) as Hsame.
    destruct (resume parseFloat (geocodeCache st) w outcome) as [cache r].
    cbn [fst] in *. split; cbn [geocodeCache waiting].
    + rewrite Hsame. exact Hk.
    + apply Forall_delete. exact Hw.
Qed.

(** What a settled fetch stores: the null marker when the provider found
    nothing, the coordinates of the first result otherwise; an exception
    stores nothing. *)
Lemma settle_stores st i w outcome time :
  waiting st !! i = Some w ->
  let st' := fst (step parseFloat st (Settle i outcome time)) in
  match outcome with
  | Throw _ => geocodeCache st' = geocodeCache st
  | Return (VArr (first :: _)) =>
      match get_prop first "lat", get_prop first "lon" with
      | Return la, Return lo =>
          geocodeCache st' !! cacheKey w
          = Some (Some {| lat := parseFloat la; lng := parseFloat lo |})
      | _, _ => geocodeCache st' = geocodeCache st
      end
  | Return _ => geocodeCache st' !! cacheKey w = Some None
  end.
Proof.
  intros Hi. cbn [step]. rewrite Hi. unfold resume.
  destruct outcome as [results | e]; [| reflexivity].
  destruct results as [| | | | | [| first rest] |];
    try (cbn [fst geocodeCache]; apply lookup_insert_eq).
  destruct (get_prop first "lat"), (get_prop first "lon"); cbn [fst geocodeCache];
    try reflexivity.
  apply lookup_insert_eq.
Qed.

Lemma run_keeps evs : forall st key entry,
  geocodeCache st !! key = Some entry ->
  exists entry', geocodeCache (run_events parseFloat st evs) !! key = Some entry'.
Proof.
  induction evs as [| ev evs IH]; intros st key entry Hk.
  - exists entry. exact Hk.
  - destruct (step_keeps st ev key entry Hk) as (entry1 & H1).
    exact (IH _ key entry1 H1).
Qed.

Lemma run_settled evs : forall st key entry,
  settled key entry st -> settled key entry (run_events parseFloat st evs).
Proof.
  induction evs as [| ev evs IH]; intros st key entry Hs.
  - exact Hs.
  - apply (IH (fst (step parseFloat st ev))), step_settled, Hs.
Qed.

(** C10, amended: the cache of [POST /api/geocode] has no expiry. Once the key of an
    address has an entry (coordinates or the null marker), then after any
    sequence of further events, at any times, the key still has an entry,
    and a request for that address is answered with it (200 and the stored
    coordinates, or 404 "Location not found") without a query to the
    provider and without a change of state. The entry is the very one that
    was stored unless another request for the same address was waiting for
    the provider at that moment. *)
Theorem geocode_cache_never_expires
    (st : state) (entry : option coords) (evs : list event)
    (req_body : value) (a : string) (time : Z) :
  geocodeCache st !! normalize a = Some entry ->
  get_prop req_body "address" = Return (VStr a) ->
  a <> EmptyString ->
  let st' := run_events parseFloat st evs in
  exists entry',
    geocodeCache st' !! normalize a = Some entry'
    /\ step parseFloat st' (Arrive req_body time)
       = (st', {| answer := Some (cached_answer entry'); query := None |})
    /\ (Forall (fun w => cacheKey w <> normalize a) (waiting st) -> entry' = entry).
Proof.
  intros Hk Haddr Hne st'.
  destruct (run_keeps evs st (normalize a) entry Hk) as (entry' & Hk').
  fold st' in Hk'.
  exists entry'. split; [exact Hk' |]. split.
  - cbn [step]. apply (arrive_hit st' req_body a entry' Haddr Hne Hk').
  - intros Hw.
    destruct (run_settled evs st (normalize a) entry (conj Hk Hw)) as [Hk'' _].
    fold st' in Hk''. congruence.
Qed.

End HandlerFacts.

(** C10, as stated, fails: a stored outcome is not what every later request
    is answered with. Two requests for one address arrive before the
    provider has answered; the first settles with no result, and the null
    marker is stored; the second, which was waiting, settles with a place
    and stores it over the marker; a request that arrives then is answered
    200 with coordinates, not 404. *)
Lemma geocode_cache_never_expires_counterexample :
  ~ (forall (earlier evs : list event) (entry : option coords)
            (req_body : value) (a : string) (time : Z),
       let st := run_events Samples.number_parseFloat Samples.no_request_yet earlier in
       geocodeCache st !! normalize a = Some entry ->
       get_prop req_body "address" = Return (VStr a) ->
       a <> EmptyString ->
       snd (step Samples.number_parseFloat (run_events Samples.number_parseFloat st evs)
              (Arrive req_body time))
       = {| answer := Some (cached_answer entry); query := None |}).
Proof.
  intros Hclaim.
  specialize (Hclaim Samples.atlantis_twice Samples.atlantis_found None
                Samples.atlantis_request "  Atlantis " 2000).
  cbv zeta in Hclaim.
  assert (Hstored : geocodeCache
                      (run_events Samples.number_parseFloat Samples.no_request_yet
                         Samples.atlantis_twice)
                    !! normalize "  Atlantis " = Some None)
    by (vm_compute; reflexivity).
  specialize (Hclaim Hstored eq_refl ltac:(discriminate)).
  vm_compute in Hclaim. discriminate Hclaim.
Qed.

End GeocodeFacts.

(** ** Ranking: higher bucket first, then the nearer place *)

Module RankingFacts.
Import Str JS Suggestions.

Section InsertionSort.

Context {A : Type}.
Variable cmp : A -> A -> Q.
Variable dom : A -> Prop.

Hypothesis cmp_total : forall a b, dom a -> dom b -> not_after cmp a b \/ not_after cmp b a.
Hypothesis cmp_trans : forall a b c, dom a -> dom b -> dom c ->
  not_after cmp a b -> not_after cmp b c -> not_after cmp a c.

Lemma insert_by_Permutation x l : insert_by cmp x l ≡ₚ x :: l.
Proof.
  induction l as [| y l IH]; cbn [insert_by].
  - reflexivity.
  - destruct (Qle_bool (cmp x y) 0); [reflexivity |].
    rewrite IH. apply Permutation_swap.
Qed.

Lemma sort_by_Permutation l : sort_by cmp l ≡ₚ l.
Proof.
  induction l as [| x l IH]; cbn [sort_by].
  - reflexivity.
  - rewrite insert_by_Permutation, IH. reflexivity.
Qed.

Lemma insert_by_sorted x l :
  dom x -> Forall dom l ->
  StronglySorted (not_after cmp) l -> StronglySorted (not_after cmp) (insert_by cmp x l).
Proof.
  intros Hx Hl Hs. induction Hs as [| y l Hs IH Hy]; cbn [insert_by].
  - constructor; constructor.
  - apply Forall_cons in Hl as [Hdy Hdl].
    destruct (Qle_bool (cmp x y) 0) eqn:Hc.
    + apply Qle_bool_iff in Hc.
      constructor; [constructor; assumption |].
      constructor; [exact Hc |].
      rewrite Forall_forall in Hy, Hdl. apply Forall_forall. intros z Hz.
      apply (cmp_trans x y z); auto.
    + assert (Hyx : not_after cmp y x).
      { destruct (cmp_total x y Hx Hdy) as [Hxy | Hyx]; [| exact Hyx].
        apply Qle_bool_iff in Hxy. congruence. }
      constructor; [apply IH; exact Hdl |].
      rewrite insert_by_Permutation. constructor; assumption.
Qed.

Lemma sort_by_sorted l : Forall dom l -> StronglySorted (not_after cmp) (sort_by cmp l).
Proof.
  induction l as [| x l IH]; intros Hl; cbn [sort_by].
  - constructor.
  - apply Forall_cons in Hl as [Hx Hl].
    apply insert_by_sorted; [exact Hx | | apply IH; exact Hl].
    rewrite sort_by_Permutation. exact Hl.
Qed.

Lemma sorted_lookup (l : list A) : forall i j a b,
  StronglySorted (not_after cmp) l ->
  l !! i = Some a -> l !! j = Some b -> (i < j)%nat -> not_after cmp a b.
Proof.
  induction l as [| x l IH]; intros i j a b Hs Hi Hj Hlt; [discriminate Hi |].
  apply StronglySorted_inv in Hs as [Hs Hx].
  destruct j as [| j]; [lia |]. cbn in Hj.
  destruct i as [| i]; cbn in Hi.
  - injection Hi as ->. rewrite Forall_forall in Hx. apply Hx.
    apply list_elem_of_lookup. eauto.
  - apply (IH i j); [assumption .. | lia].
Qed.

(** In the sorted array an element that is strictly before another for the
    comparator stands at a smaller position. *)
Lemma sorted_position l i j a b :
  Forall dom l ->
  sort_by cmp l !! i = Some a -> sort_by cmp l !! j = Some b ->
  ~ not_after cmp b a -> (i < j)%nat.
Proof.
  intros Hl Hi Hj Hba.
  assert (Hdom : Forall dom (sort_by cmp l)) by (rewrite sort_by_Permutation; exact Hl).
  destruct (Nat.lt_trichotomy i j) as [Hlt | [-> | Hgt]]; [exact Hlt | |]; exfalso; apply Hba.
  - assert (a = b) by congruence. subst b.
    rewrite Forall_forall in Hdom.
    assert (Ha : dom a) by (apply Hdom, list_elem_of_lookup; eauto).
    destruct (cmp_total a a Ha Ha); assumption.
  - apply (sorted_lookup (sort_by cmp l) j i); [apply sort_by_sorted | ..]; assumption.
Qed.

End InsertionSort.

Section Comparator.

Variable popValues : list Q.

#[local] Abbreviation bucket r := (getBucket popValues (popularityScore r)).
#[local] Abbreviation cmp := (compare_ranked popValues).

Lemma compare_buckets a b :
  bucket b <> bucket a -> cmp a b = inject_Z (bucket b - bucket a).
Proof.
  intros Hne. unfold compare_ranked.
  destruct (Z.eqb_spec (bucket b) (bucket a)); [contradiction | reflexivity].
Qed.

Lemma compare_same_bucket a b :
  bucket a = bucket b ->
  cmp a b = match distanceKm a, distanceKm b with
            | Some da, Some db => (da - db)%Q
            | _, _ => 0%Q
            end.
Proof.
  intros Heq. unfold compare_ranked. rewrite Heq, Z.eqb_refl. reflexivity.
Qed.

Lemma inject_nonpos (z : Z) : (inject_Z z <= 0)%Q <-> z <= 0.
Proof. change 0%Q with (inject_Z 0). apply QuizFacts.Qle_inject. Qed.

Lemma inject_neg (z : Z) : (inject_Z z < 0)%Q <-> z < 0.
Proof. change 0%Q with (inject_Z 0). apply QuizFacts.Qlt_inject. Qed.

Lemma inject_pos (z : Z) : (0 < inject_Z z)%Q <-> 0 < z.
Proof. change 0%Q with (inject_Z 0). apply QuizFacts.Qlt_inject. Qed.

(** The comparator puts a higher bucket first. *)
Lemma compare_higher_bucket a b :
  bucket b < bucket a -> (cmp a b < 0)%Q /\ (0 < cmp b a)%Q.
Proof.
  intros Hlt.
  rewrite (compare_buckets a b) by lia. rewrite (compare_buckets b a) by lia.
  split; [apply (proj2 (inject_neg _)) | apply (proj2 (inject_pos _))]; lia.
Qed.

(** In one bucket it puts the nearer of two places with known distances
    first. *)
Lemma compare_nearer a b da db :
  bucket a = bucket b -> distanceKm a = Some da -> distanceKm b = Some db ->
  (da < db)%Q -> (cmp a b < 0)%Q /\ (0 < cmp b a)%Q.
Proof.
  intros Heq Ha Hb Hlt.
  rewrite (compare_same_bucket a b Heq), (compare_same_bucket b a (eq_sym Heq)), Ha, Hb.
  split; lra.
Qed.

Lemma not_after_known a b da db :
  distanceKm a = Some da -> distanceKm b = Some db ->
  not_after cmp a b <-> bucket b < bucket a \/ (bucket a = bucket b /\ (da <= db)%Q).
Proof.
  intros Ha Hb. unfold not_after.
  destruct (Z.eq_dec (bucket b) (bucket a)) as [Heq | Hne].
  - rewrite (compare_same_bucket a b (eq_sym Heq)), Ha, Hb.
    split.
    + intros H. right. split; [congruence | lra].
    + intros [Hlt | [_ Hle]]; [lia | lra].
  - rewrite (compare_buckets a b Hne).
    split.
    + intros H. apply (proj1 (inject_nonpos _)) in H. left. lia.
    + intros [Hlt | [Heq _]]; [apply (proj2 (inject_nonpos _)); lia | congruence].
Qed.

Lemma not_after_unknown a b :
  unknown a -> unknown b -> not_after cmp a b <-> bucket b <= bucket a.
Proof.
  unfold unknown, not_after. intros Ha Hb.
  destruct (Z.eq_dec (bucket b) (bucket a)) as [Heq | Hne].
  - rewrite (compare_same_bucket a b (eq_sym Heq)), Ha.
    split; [intros _; lia | intros _; lra].
  - rewrite (compare_buckets a b Hne).
    split; intros H;
      [apply (proj1 (inject_nonpos _)) in H | apply (proj2 (inject_nonpos _))]; lia.
Qed.

Lemma known_total a b : known a -> known b -> not_after cmp a b \/ not_after cmp b a.
Proof.
  intros [da Ha] [db Hb].
  rewrite (not_after_known a b da db Ha Hb), (not_after_known b a db da Hb Ha).
  destruct (Z.lt_trichotomy (bucket a) (bucket b)) as [H | [H | H]]; [right; left; lia | | left; left; lia].
  destruct (Qlt_le_dec db da) as [Hlt | Hle].
  - right. right. split; [congruence | lra].
  - left. right. split; [exact H | exact Hle].
Qed.

Lemma known_trans a b c :
  known a -> known b -> known c ->
  not_after cmp a b -> not_after cmp b c -> not_after cmp a c.
Proof.
  intros [da Ha] [db Hb] [dc Hc].
  rewrite (not_after_known a b da db Ha Hb), (not_after_known b c db dc Hb Hc),
          (not_after_known a c da dc Ha Hc).
  intros [H1 | [H1 L1]] [H2 | [H2 L2]].
  - left. lia.
  - left. lia.
  - left. lia.
  - right. split; [congruence | lra].
Qed.

Lemma unknown_total a b : unknown a -> unknown b -> not_after cmp a b \/ not_after cmp b a.
Proof.
  intros Ha Hb.
  rewrite (not_after_unknown a b Ha Hb), (not_after_unknown b a Hb Ha). lia.
Qed.

Lemma unknown_trans a b c :
  unknown a -> unknown b -> unknown c ->
  not_after cmp a b -> not_after cmp b c -> not_after cmp a c.
Proof.
  intros Ha Hb Hc.
  rewrite (not_after_unknown a b Ha Hb), (not_after_unknown b c Hb Hc),
          (not_after_unknown a c Ha Hc). lia.
Qed.

End Comparator.

(** C7: in the comparator of the ranking, of two places of one popularity
    bucket whose distances from the hotel are both known the nearer is
    ordered first (the comparator is negative for it, positive the other way
    round), and of two places of different buckets the one of the higher
    bucket is ordered first. When the distances of the pool are all known
    (a hotel was located) or all unknown (none was), the ranked array has
    the place ordered first at the smaller position. *)
Theorem ranking_order (ranked : list Ranked) (a b : Ranked) :
  let popValues := popValues_of ranked in
  let bucket := fun r => getBucket popValues (popularityScore r) in
  let ordered_first := (compare_ranked popValues a b < 0)%Q
                       /\ (0 < compare_ranked popValues b a)%Q in
  (forall da db,
     bucket a = bucket b -> distanceKm a = Some da -> distanceKm b = Some db ->
     (da < db)%Q -> ordered_first)
  /\ (bucket b < bucket a -> ordered_first)
  /\ (Forall known ranked \/ Forall unknown ranked ->
      forall i j,
        rank ranked !! i = Some a -> rank ranked !! j = Some b ->
        ordered_first -> (i < j)%nat).
Proof.
  intros popValues bucket ordered_first.
  split; [| split].
  - intros da db Heq Ha Hb Hlt. exact (compare_nearer popValues a b da db Heq Ha Hb Hlt).
  - intros Hlt. exact (compare_higher_bucket popValues a b Hlt).
  - intros Hdom i j Hi Hj [_ Hpos]. unfold rank in Hi, Hj. fold popValues in Hi, Hj.
    assert (Hba : ~ not_after (compare_ranked popValues) b a).
    { unfold not_after. lra. }
    destruct Hdom as [Hk | Hu].
    + exact (sorted_position (compare_ranked popValues) known
               (known_total popValues) (known_trans popValues) ranked i j a b Hk Hi Hj Hba).
    + exact (sorted_position (compare_ranked popValues) unknown
               (unknown_total popValues) (unknown_trans popValues) ranked i j a b Hu Hi Hj Hba).
Qed.

End RankingFacts.

(** ** The theorems at sample inputs *)

Module Witnesses.
Import Str Regex JS Quiz Parse Suggestions Geocode QuestionId Samples.

Lemma generateQuestionId_spec_witness :
  generateQuestionId "abc" "standard" "What?" = "5k0cwa"
  /\ generateQuestionId "abc" "standard" "What?"
     = generateQuestionId "abc" "standard" "What?".
Proof.
  split; [reflexivity |].
  exact (proj2 (proj2 (proj2 (proj2 (proj2
           (QuestionIdFacts.generateQuestionId_spec "abc" "standard" "What?")))))
           "abc" "standard" "What?" eq_refl eq_refl eq_refl).
Defined.

Lemma shuffleOptions_preserves_answer_witness :
  lookup_field "options" tower_fields
  = VArr (map VStr ["224 meters"; "270 meters"; "330 meters"; "400 meters"])
  /\ lookup_field "correctIndex" tower_fields = VNum 2
  /\ (0 <= 2 <= 3)%Q
  /\ exists (r : value) (g' : Rand) (shuffled : list string) (k : Z),
       shuffleOptions (VObj tower_fields) sample_rand = (Return r, g')
       /\ get_prop r "options" = Return (VArr (map VStr shuffled))
       /\ shuffled ≡ₚ ["224 meters"; "270 meters"; "330 meters"; "400 meters"]
       /\ get_prop r "correctIndex" = Return (VNum (inject_Z k))
       /\ index (VArr (map VStr shuffled)) (VNum (inject_Z k))
          = index (VArr (map VStr ["224 meters"; "270 meters"; "330 meters"; "400 meters"]))
                  (VNum 2).
Proof.
  assert (H : (0 <= 2 <= 3)%Q) by (split; discriminate).
  split; [reflexivity |]. split; [reflexivity |]. split; [exact H |].
  destruct (QuizFacts.shuffleOptions_preserves_answer tower_fields
              ["224 meters"; "270 meters"; "330 meters"; "400 meters"] 2 sample_rand
              eq_refl eq_refl eq_refl H)
    as (r & g' & shuffled & k & H1 & H2 & H3 & H4 & H5 & _).
  exists r, g', shuffled, k. repeat split; assumption.
Defined.

Lemma checkAnswerDistribution_spec_witness :
  checkAnswerDistribution [first_is_right; first_is_right; first_is_right; first_is_right]
  = Return false
  /\ checkAnswerDistribution [first_is_right; first_is_right; third_is_right; first_is_right]
     = Return true
  /\ checkAnswerDistribution [first_is_right; first_is_right] = Return true.
Proof.
  split; [| split].
  - apply (proj1 (QuizFacts.checkAnswerDistribution_spec
                    [first_is_right; first_is_right; first_is_right; first_is_right])).
    + cbn. lia.
    + intros q Hq. exists 0%Q. split; [| reflexivity].
      repeat (destruct Hq as [<- | Hq]; [reflexivity |]). destruct Hq.
  - apply (proj1 (proj2 (QuizFacts.checkAnswerDistribution_spec
                    [first_is_right; first_is_right; third_is_right; first_is_right]))).
    + intros q Hq.
      repeat (destruct Hq as [<- | Hq]; [eexists; reflexivity |]). destruct Hq.
    + exists third_is_right, (VNum 2).
      split; [right; right; left; reflexivity |]. split; reflexivity.
  - apply (proj2 (proj2 (QuizFacts.checkAnswerDistribution_spec
                    [first_is_right; first_is_right]))).
    cbn. lia.
Defined.

Lemma quiz_generate_on_failure_witness :
  quiz_try failing_generation grounded_request sample_rand
  = (Throw (OtherError "APIConnectionError"), sample_rand)
  /\ truthy (get_prop_opt grounded_request "cityPlaceId") = true
  /\ status (catch (fst (quiz_generate failing_generation grounded_request sample_rand))
                   (json VNull)) = 503
  /\ truthy (get_prop_opt paris_request "cityPlaceId") = false
  /\ exists questions g2,
       quiz_generate failing_generation paris_request sample_rand
       = (Return (status_json 200
            (VObj [ ("questions", VArr questions);
                    ("questionIds", VArr []);
                    ("poolExhausted", VBool false);
                    ("source", VStr "fallback") ])), g2).
Proof.
  split; [reflexivity |]. split; [reflexivity |]. split; [| split; [reflexivity |]].
  - rewrite (proj1 (QuizFacts.quiz_generate_on_failure failing_generation grounded_request
                      sample_rand sample_rand (OtherError "APIConnectionError") eq_refl)
               eq_refl).
    reflexivity.
  - destruct (proj2 (QuizFacts.quiz_generate_on_failure failing_generation paris_request
                       sample_rand sample_rand (OtherError "APIConnectionError") eq_refl)
                eq_refl)
      as (city & questions & g2 & _ & _ & _ & _ & Hrun).
    exists questions, g2. exact Hrun.
Defined.

Lemma ranking_order_witness :
  (compare_ranked (popValues_of [far_place; near_place]) near_place far_place < 0)%Q
  /\ rank [far_place; near_place] !! 0%nat = Some near_place
  /\ rank [far_place; near_place] !! 1%nat = Some far_place
  /\ (0 < 1)%nat.
Proof.
  assert (Hfirst : (compare_ranked (popValues_of [far_place; near_place]) near_place far_place < 0)%Q
                   /\ (0 < compare_ranked (popValues_of [far_place; near_place]) far_place near_place)%Q).
  { apply (proj1 (RankingFacts.ranking_order [far_place; near_place] near_place far_place)
             2%Q 8%Q); reflexivity. }
  split; [exact (proj1 Hfirst) |]. split; [reflexivity |]. split; [reflexivity |].
  apply (proj2 (proj2 (RankingFacts.ranking_order [far_place; near_place] near_place far_place))).
  - left. repeat constructor; eexists; reflexivity.
  - reflexivity.
  - reflexivity.
  - exact Hfirst.
Defined.

Lemma safeJsonParse_total_witness :
  safeJsonParse parse_questions_object fenced_questions
  = Return (VObj [("questions", VArr [])])
  /\ safeJsonParse parse_questions_object "I cannot [help] with that." = Return VNull
  /\ parsed_questions parse_questions_object "I cannot [help] with that." = Return [].
Proof.
  destruct (ParseFacts.safeJsonParse_total parse_questions_object fenced_questions)
    as (v & Hv & Hvalue & _).
  vm_compute in Hvalue. subst v. split; [exact Hv |].
  destruct (ParseFacts.safeJsonParse_total parse_questions_object
              "I cannot [help] with that.") as (v & Hv' & _ & Hnull & Hquiz).
  assert (Hnowhere : v = VNull).
  { apply Hnull.
    - exists SyntaxError. vm_compute. reflexivity.
    - intros m [H | H]; vm_compute in H; [| discriminate H].
      injection H as <-. exists SyntaxError. vm_compute. reflexivity. }
  subst v. split; [exact Hv' | exact (proj1 (Hquiz eq_refl))].
Defined.

Lemma geocode_cache_never_expires_witness :
  geocodeCache atlantis_cached !! normalize "  Atlantis " = Some None
  /\ get_prop atlantis_request "address" = Return (VStr "  Atlantis ")
  /\ step nan_parseFloat (run_events nan_parseFloat atlantis_cached later_events)
          (Arrive atlantis_request 86400001)
     = (run_events nan_parseFloat atlantis_cached later_events,
        {| answer := Some not_found; query := None |}).
Proof.
  assert (Hk : geocodeCache atlantis_cached !! normalize "  Atlantis " = Some None)
    by (vm_compute; reflexivity).
  assert (Ha : get_prop atlantis_request "address" = Return (VStr "  Atlantis "))
    by reflexivity.
  split; [exact Hk |]. split; [exact Ha |].
  destruct (GeocodeFacts.geocode_cache_never_expires nan_parseFloat atlantis_cached None
              later_events atlantis_request "  Atlantis " 86400001 Hk Ha
              ltac:(discriminate))
    as (entry' & _ & Hstep & Hsame).
  rewrite (Hsame ltac:(constructor)) in Hstep. exact Hstep.
Defined.

End Witnesses.

(** * Further properties of the server *)

(** ** Strings and regular expressions *)

Module StrFacts.
Import Str.

Lemma toLowerCase_app a b : toLowerCase (a ++ b) = (toLowerCase a ++ toLowerCase b)%string.
Proof.
  induction a as [| c a IH]; simpl; [reflexivity | rewrite IH; reflexivity].
Qed.

Lemma startsWith_app p b : startsWith p (p ++ b) = true.
Proof.
  induction p as [| c p IH]; simpl; [reflexivity |].
  rewrite Ascii.eqb_refl. exact IH.
Qed.

Lemma includes_here s sub : startsWith sub s = true -> includes s sub = true.
Proof. intros H. destruct s; cbn; rewrite H; reflexivity. Qed.

Lemma includes_app a p b : includes (a ++ p ++ b) p = true.
Proof.
  induction a as [| c a IH].
  - change (includes (p ++ b) p = true). apply includes_here, startsWith_app.
  - simpl. rewrite IH. apply orb_true_r.
Qed.

Lemma includes_empty s : includes s EmptyString = true.
Proof. destruct s; reflexivity. Qed.

Lemma length_app a b : String.length (a ++ b) = (String.length a + String.length b)%nat.
Proof.
  induction a as [| c a IH]; simpl; [reflexivity | rewrite IH; reflexivity].
Qed.

End StrFacts.

Module RegexFacts.
Import Str Regex Validators StrFacts.

Lemma run_star r st : run (Star r) st = star_iter r (String.length (snd st)) st.
Proof.
  cbn [run]. generalize (String.length (snd st)). intros n. revert st.
  induction n as [| n IH]; intros st; [reflexivity |].
  cbn [star_iter]. f_equal. apply flat_map_ext. exact IH.
Qed.

Lemma run_seq r1 r2 st : run (Seq r1 r2) st = flat_map (run r2) (run r1 st).
Proof. reflexivity. Qed.

(** A phrase under the [i] flag matches its spellings in other cases,
    whatever comes before, and leaves what follows. *)
Lemma run_lit_i phrase : forall w rest prev,
  ci_eq phrase w = true ->
  exists prev', run (lit_i phrase) (prev, (w ++ rest)%string) = [(prev', rest)].
Proof.
  induction phrase as [| c phrase IH]; intros w rest prev Hw.
  - destruct w; [| discriminate Hw]. exists prev. reflexivity.
  - destruct w as [| x w]; [discriminate Hw |].
    cbn [ci_eq] in Hw. apply andb_true_iff in Hw as [Hx Hw].
    destruct (IH w rest (Some x) Hw) as (prev' & Hrun).
    exists prev'.
    change (lit_i (String c phrase)) with (Seq (char_i c) (lit_i phrase)).
    change (String x w ++ rest)%string with (String x (w ++ rest)).
    cbn [run]. unfold char_i at 1. cbn [run snd]. rewrite Hx.
    cbn [flat_map]. rewrite Hrun. reflexivity.
Qed.

(** A match that does not depend on what precedes is found behind any
    prefix. *)
Lemma test_behind_prefix r s :
  (forall prev, run r (prev, s) <> []) ->
  forall pre prev, exists m, exec_from r prev (pre ++ s) = Some m.
Proof.
  intros Hrun pre. induction pre as [| c pre IH]; intros prev.
  - change (EmptyString ++ s)%string with s.
    destruct s as [| c s]; cbn [exec_from].
    + specialize (Hrun prev). destruct (run r (prev, EmptyString)) as [| [p rest] l];
        [contradiction | eauto].
    + specialize (Hrun prev). destruct (run r (prev, String c s)) as [| [p rest] l];
        [contradiction | eauto].
  - change (String c pre ++ s)%string with (String c (pre ++ s)).
    cbn [exec_from].
    destruct (run r (prev, String c (pre ++ s))) as [| [p rest] l]; [apply IH | eauto].
Qed.

Lemma test_contains_ci text phrase :
  contains_ci text phrase -> test (lit_i phrase) text = true.
Proof.
  intros (pre & w & post & -> & Hw). unfold test, exec.
  destruct (test_behind_prefix (lit_i phrase) (w ++ post)) with (pre := pre) (prev := @None ascii)
    as (m & ->); [| reflexivity].
  intros prev. destruct (run_lit_i phrase w post prev Hw) as (prev' & ->). discriminate.
Qed.

(** The star of a class reaches the end of any run of characters of the
    class. *)
Lemma star_iter_reaches cls mid : forall n rest prev,
  (String.length mid <= n)%nat -> every_char cls mid = true ->
  exists prev', In (prev', rest) (star_iter (Class cls) n (prev, (mid ++ rest)%string)).
Proof.
  induction mid as [| c mid IH]; intros n rest prev Hn Hall.
  - exists prev. change (EmptyString ++ rest)%string with rest.
    destruct n; cbn [star_iter]; [left; reflexivity |].
    apply in_or_app. right. left. reflexivity.
  - cbn [every_char] in Hall. apply andb_true_iff in Hall as [Hc Hall].
    destruct n as [| n]; [cbn in Hn; lia |].
    destruct (IH n rest (Some c)) as (prev' & Hin); [cbn in Hn; lia | exact Hall |].
    exists prev'. cbn [star_iter]. apply in_or_app. left.
    change (String c mid ++ rest)%string with (String c (mid ++ rest)).
    cbn [run snd]. rewrite Hc. cbn [List.filter].
    assert (Hs : shorter (prev, String c (mid ++ rest)) (Some c, (mid ++ rest)%string) = true).
    { unfold shorter. cbn [snd String.length]. apply Nat.ltb_lt. lia. }
    rewrite Hs. cbn [flat_map]. apply in_or_app. left. exact Hin.
Qed.

Lemma test_spans_ci text a b :
  spans_ci text a b -> test (Seq (lit_i a) (Seq (Star dot) (lit_i b))) text = true.
Proof.
  intros (pre & wa & mid & wb & post & -> & Ha & Hb & Hmid). unfold test, exec.
  destruct (test_behind_prefix (Seq (lit_i a) (Seq (Star dot) (lit_i b)))
              (wa ++ mid ++ wb ++ post)) with (pre := pre) (prev := @None ascii)
    as (m & ->); [| reflexivity].
  intros prev.
  destruct (run_lit_i a wa (mid ++ wb ++ post) prev Ha) as (p1 & Hrun1).
  rewrite run_seq, Hrun1. cbn [flat_map]. rewrite app_nil_r.
  rewrite run_seq, run_star. cbn [snd].
  destruct (star_iter_reaches no_line_break mid
              (String.length (mid ++ wb ++ post)) (wb ++ post) p1) as (p2 & Hin).
  { rewrite StrFacts.length_app. lia. }
  { exact Hmid. }
  destruct (run_lit_i b wb post p2 Hb) as (p3 & Hrun3).
  intros Hnil.
  assert (Hin3 : In (p3, post)
            (flat_map (run (lit_i b))
               (star_iter dot (String.length (mid ++ wb ++ post)) (p1, (mid ++ wb ++ post)%string)))).
  { apply in_flat_map. exists (p2, (wb ++ post)%string). split; [exact Hin |].
    rewrite Hrun3. left. reflexivity. }
  rewrite Hnil in Hin3. destruct Hin3.
Qed.

End RegexFacts.

(** ** The two validators and the generic questions *)

Module ValidatorFacts.
Import Str Regex JS Quiz Validators StrFacts RegexFacts.

(** The filter of [validateTriviaQuestions] is the filter of
    [validateQuestions] followed by the loop over the generic patterns. *)
Lemma trivia_filter_split q :
  trivia_filter q = questions_filter q && negb (stopped_by_patterns q).
Proof.
  unfold trivia_filter, questions_filter.
  destruct q as [| | b | n | s | elems | fields];
    try (match goal with
         | |- catch (trivia_checks ?v) false = _ =>
             assert (Hq : questions_checks v = Throw TypeError) by reflexivity;
             assert (Ht : trivia_checks v = Throw TypeError) by reflexivity;
             rewrite Hq, Ht; reflexivity
         end);
    try (match goal with
         | |- catch (trivia_checks ?v) false = _ =>
             assert (Hq : questions_checks v = Return false) by reflexivity;
             assert (Ht : trivia_checks v = Return false) by reflexivity;
             rewrite Hq, Ht; reflexivity
         end).
  unfold trivia_checks, questions_checks, stopped_by_patterns.
  cbn [get_prop rbind].
  destruct (truthy (lookup_field "question" fields)); [| reflexivity].
  destruct (lookup_field "options" fields) as [| | | | | opts |]; try reflexivity.
  cbn [isArray negb orb elements].
  destruct (Z.of_nat (length opts) =? 4); [| reflexivity].
  cbn [negb].
  destruct (lookup_field "correctIndex" fields) as [| | | x | | |]; try reflexivity.
  destruct (Qle_bool 0 x); [| reflexivity].
  destruct (Qle_bool x 3); [| reflexivity].
  cbn [negb orb].
  destruct (rmap _ opts) as [normalized |]; [| reflexivity].
  cbn [rbind].
  destruct (set_size normalized =? 4); [| reflexivity].
  cbn [negb].
  destruct (truthy (lookup_field "funFact" fields)); [| reflexivity].
  cbn [negb].
  destruct (lookup_field "funFact" fields) as [| | | | funFact | |]; try reflexivity.
  cbn [call_trim rbind].
  destruct (len (trim funFact) <? 5); [reflexivity |].
  destruct (ToString (lookup_field "question" fields)) as [text |]; [| reflexivity].
  cbn [rbind]. destruct (existsb _ GENERIC_PATTERNS); reflexivity.
Qed.

Lemma filter_split (questions : list value) :
  List.filter trivia_filter questions
  = List.filter questions_filter (List.filter (fun q => negb (stopped_by_patterns q)) questions).
Proof.
  induction questions as [| q questions IH]; [reflexivity |].
  cbn [List.filter]. rewrite trivia_filter_split.
  destruct (stopped_by_patterns q); cbn [negb List.filter].
  - rewrite andb_false_r. exact IH.
  - rewrite andb_true_r. destruct (questions_filter q); rewrite IH; reflexivity.
Qed.

(** X1: [validateTriviaQuestions] is [validateQuestions] behind the generic
    gate: on every list of candidates, with the same random draws, it
    returns what [validateQuestions] returns on the candidates the loop
    over the generic patterns does not stop, those whose question has a
    text that matches none of the patterns. A question without a text (an
    object with a property [toString] of its own) makes [pat.test] throw:
    [validateTriviaQuestions] drops the candidate, [validateQuestions]
    alone would keep it. *)
Theorem validateTriviaQuestions_is_gated_validateQuestions
    (questions : list value) (poiNames : list string) (g : Rand) :
  validateTriviaQuestions questions poiNames g
  = validateQuestions (List.filter (fun q => negb (stopped_by_patterns q)) questions) g.
Proof.
  unfold validateTriviaQuestions, validateQuestions. rewrite filter_split. reflexivity.
Qed.

(** A candidate whose question cannot be printed passes [validateQuestions]
    and is dropped by [validateTriviaQuestions]; one whose question is the
    number 1.5 passes both. *)
Example unprintable_question_dropped :
  let candidate (question : value) :=
    VObj [ ("question", question);
           ("options", VArr [VStr "a"; VStr "b"; VStr "c"; VStr "d"]);
           ("correctIndex", VNum 0); ("funFact", VStr "A fact.") ] in
  let unprintable := candidate (VObj [("toString", VNum 1)]) in
  questions_filter unprintable = true
  /\ trivia_filter unprintable = false
  /\ stopped_by_patterns unprintable = true
  /\ questions_filter (candidate (VNum (3 # 2))) = true
  /\ trivia_filter (candidate (VNum (3 # 2))) = true.
Proof. vm_compute. repeat split; reflexivity. Qed.

Lemma phrase_pattern phrase :
  In phrase GENERIC_PHRASES -> In (lit_i phrase) GENERIC_PATTERNS.
Proof.
  unfold GENERIC_PHRASES, GENERIC_PATTERNS.
  intros [<- | [<- | [<- | [<- | []]]]]; cbn; auto 10.
Qed.

(** A question text that holds a generic phrase, or the two halves of a
    generic pattern on one line, is generic. *)
Lemma generic_text (fields : list (string * value)) (text : string) :
  lookup_field "question" fields = VStr text ->
  (exists phrase, In phrase GENERIC_PHRASES /\ contains_ci text phrase)
  \/ spans_ci text "what language" "spoken"
  \/ spans_ci text "which country" "located" ->
  stopped_by_patterns (VObj fields) = true.
Proof.
  intros Hq Htext. unfold stopped_by_patterns. cbn [get_prop]. rewrite Hq. cbn [ToString].
  apply existsb_exists.
  destruct Htext as [(phrase & Hin & Hc) | [Hs | Hs]].
  - exists (lit_i phrase). split; [apply phrase_pattern, Hin | apply test_contains_ci, Hc].
  - exists (Seq (lit_i "what language") (Seq (Star dot) (lit_i "spoken"))).
    split; [cbn; auto 10 | apply test_spans_ci, Hs].
  - exists (Seq (lit_i "which country") (Seq (Star dot) (lit_i "located"))).
    split; [cbn; auto 10 | apply test_spans_ci, Hs].
Qed.

(** X2: a candidate whose question text holds, in any letter case, one of
    the phrases "what is the capital", "which currency", "what continent",
    "what is the population", or "what language" followed on the same line
    by "spoken", or "which country" followed by "located", is dropped by
    [validateTriviaQuestions] whatever its other fields are. *)
Theorem generic_question_rejected
    (fields : list (string * value)) (text : string) (poiNames : list string) (g : Rand) :
  lookup_field "question" fields = VStr text ->
  (exists phrase, In phrase GENERIC_PHRASES /\ contains_ci text phrase)
  \/ spans_ci text "what language" "spoken"
  \/ spans_ci text "which country" "located" ->
  trivia_filter (VObj fields) = false
  /\ validateTriviaQuestions [VObj fields] poiNames g = (Return [], g).
Proof.
  intros Hq Htext.
  assert (Hf : trivia_filter (VObj fields) = false).
  { rewrite trivia_filter_split, (generic_text fields text Hq Htext).
    apply andb_false_r. }
  split; [exact Hf |].
  unfold validateTriviaQuestions. cbn [List.filter]. rewrite Hf. reflexivity.
Qed.

End ValidatorFacts.

(** ** Banned phrases of the fun-fact validator *)

Module BannedFacts.
Import Str Regex FunFact StrFacts.

(** X3: a fun fact that holds a banned phrase in any letter case is
    rejected, whatever the rest of the sentence is. *)
Theorem banned_phrase_rejected (pre w post phrase : string) :
  In phrase BANNED_FUNFACT_PHRASES ->
  toLowerCase w = phrase ->
  isValidFunFact (pre ++ w ++ post) = false.
Proof.
  intros Hin Hw. unfold isValidFunFact.
  destruct (negb (non_empty (pre ++ w ++ post)) || (len (pre ++ w ++ post) <? 10));
    [reflexivity |].
  assert (Hb : existsb (fun phrase => includes (toLowerCase (pre ++ w ++ post)) phrase)
                 BANNED_FUNFACT_PHRASES = true).
  { apply existsb_exists. exists phrase. split; [exact Hin |].
    rewrite !toLowerCase_app, Hw. apply includes_app. }
  rewrite Hb. reflexivity.
Qed.

End BannedFacts.

(** * The answer of the quiz handler *)

Module QuizAnswerFacts.
Import Str Regex JS Quiz Parse QuestionId Validators QuizAnswer QuizFacts ValidatorFacts.

(** What passes the filter of [validateTriviaQuestions] is servable: the
    loop over the patterns has read the text of its question. *)
Lemma filtered_servable q : trivia_filter q = true -> servable q.
Proof.
  intros Hf.
  destruct (trivia_filter_inv q Hf)
    as (fields & texts & x & funFact & -> & Hopts & Hlen & _).
  rewrite trivia_filter_split in Hf. apply andb_true_iff in Hf as [_ Hf].
  apply negb_true_iff in Hf. unfold stopped_by_patterns in Hf. cbn [get_prop] in Hf.
  exists fields, (map VStr texts). rewrite length_map.
  repeat split; [exact Hopts | exact Hlen |].
  destruct (ToString (lookup_field "question" fields)) as [text |];
    [eauto | discriminate Hf].
Qed.

Lemma curated_ask_texts :
  forallb (fun entry => forallb asks_text (snd entry)) CURATED_QUESTIONS = true.
Proof. vm_compute. reflexivity. Qed.

Lemma getFallbackQuestions_ask_texts city :
  forallb asks_text (getFallbackQuestions city) = true.
Proof.
  unfold getFallbackQuestions.
  destruct (first_curated _ CURATED_QUESTIONS) as [questions |] eqn:Hc.
  - apply first_curated_In in Hc as (name & Hin).
    pose proof curated_ask_texts as Hall. rewrite forallb_forall in Hall.
    exact (Hall _ Hin).
  - reflexivity.
Qed.

Lemma fallback_servable city : Forall servable (getFallbackQuestions city).
Proof.
  apply Forall_forall. intros q Hq.
  pose proof (getFallbackQuestions_shape city) as Hshape.
  pose proof (getFallbackQuestions_ask_texts city) as Htext.
  rewrite forallb_forall in Hshape, Htext.
  apply list_elem_of_In in Hq.
  specialize (Hshape q Hq). specialize (Htext q Hq).
  unfold fallback_shape in Hshape. unfold asks_text in Htext.
  destruct q as [| | | | | | fields]; try discriminate Hshape.
  destruct (lookup_field "options" fields) as [| | | | | elems |] eqn:Hopts;
    try discriminate Hshape.
  destruct (lookup_field "correctIndex" fields) as [| | | x | | |];
    try discriminate Hshape.
  destruct (lookup_field "funFact" fields) as [| | | | funFact | |];
    try discriminate Hshape.
  destruct (texts_of elems) as [texts |] eqn:Htexts; [| discriminate Hshape].
  apply texts_of_map in Htexts. subst elems.
  repeat (apply andb_true_iff in Hshape as [Hshape ?]).
  exists fields, (map VStr texts). rewrite length_map.
  repeat split; [exact Hopts | apply Nat.eqb_eq; assumption |].
  destruct (lookup_field "question" fields) as [| | | | text | |];
    try discriminate Htext.
  exists text. reflexivity.
Qed.

Lemma keeps_question_refl q : servable q -> keeps_question q q.
Proof. intros H. split; [exact H | reflexivity]. Qed.

Lemma shuffle_keeps q (g : Rand) :
  servable q ->
  exists r g', shuffleOptions q g = (Return r, g') /\ keeps_question q r.
Proof.
  intros (fields & opts & -> & Hopts & Hlen & Htext).
  destruct (shuffleOptions_run fields opts _ g Hopts Hlen eq_refl)
    as (answer & shuffled & g' & _ & Hperm & Hrun).
  eexists _, g'. split; [exact Hrun |]. split.
  - eexists _, shuffled. split; [reflexivity |]. split; [| split].
    + rewrite lookup_set_field_ne by discriminate. apply lookup_set_field_eq.
    + rewrite <- Hlen. apply Permutation_length. exact Hperm.
    + rewrite !lookup_set_field_ne by discriminate. exact Htext.
  - apply get_shuffled_other; discriminate.
Qed.

Lemma Forall_In {A} (P : A -> Prop) (l : list A) :
  Forall P l -> forall x, In x l -> P x.
Proof.
  induction 1; intros y Hin; [destruct Hin |].
  destruct Hin as [<- | Hin]; auto.
Qed.

Lemma shuffles_keep qs (g : Rand) :
  Forall servable qs ->
  exists rs g', mapM shuffleOptions qs g = (Return rs, g') /\ Forall2 keeps_question qs rs.
Proof.
  intros Hall. apply mapM_returns.
  intros q g0 Hin. apply shuffle_keeps. exact (Forall_In _ _ Hall q Hin).
Qed.

Lemma validated_servable questions poiNames (g : Rand) out g' :
  validateTriviaQuestions questions poiNames g = (Return out, g') -> Forall servable out.
Proof.
  unfold validateTriviaQuestions. intros Hrun.
  destruct (shuffles_keep (List.filter trivia_filter questions) g)
    as (rs & g1 & Hrs & Hkeeps).
  { apply Forall_forall. intros q Hq. apply list_elem_of_In, filter_In in Hq as [_ Hf].
    apply filtered_servable, Hf. }
  rewrite Hrs in Hrun. injection Hrun as <- <-.
  clear Hrs. induction Hkeeps as [| q r qs rs [H _] _ IH]; constructor; assumption.
Qed.

Lemma every_index_zero_returns qs :
  Forall servable qs -> exists b, every_index_zero qs = Return b.
Proof.
  induction 1 as [| q qs (fields & opts & -> & _) _ [b IH]]; [eexists; reflexivity |].
  cbn [every_index_zero get_prop rbind].
  destruct (strict_eq _ _); eauto.
Qed.

Lemma Forall2_refl_on {A} (R : A -> A -> Prop) (P : A -> Prop) (l : list A) :
  (forall x, P x -> R x x) -> Forall P l -> Forall2 R l l.
Proof. intros HR. induction 1; constructor; auto. Qed.

Lemma guard_keeps qs (g : Rand) :
  Forall servable qs ->
  exists rs g', distribution_guard qs g = (Return rs, g') /\ Forall2 keeps_question qs rs.
Proof.
  intros Hall. unfold distribution_guard, bind, lift, checkAnswerDistribution.
  assert (Hsame : Forall2 keeps_question qs qs)
    by (eapply Forall2_refl_on; [apply keeps_question_refl | exact Hall]).
  destruct (Z.of_nat (length qs) <? 4).
  - exists qs, g. split; [reflexivity | exact Hsame].
  - destruct (every_index_zero_returns qs Hall) as [b ->]. cbn [rbind].
    destruct b; cbn [negb].
    + apply shuffles_keep. exact Hall.
    + exists qs, g. split; [reflexivity | exact Hsame].
Qed.

Lemma keeps_servable qs rs : Forall2 keeps_question qs rs -> Forall servable rs.
Proof. induction 1 as [| q r qs rs [H _] _ IH]; constructor; assumption. Qed.

Lemma keeps_length qs rs : Forall2 keeps_question qs rs -> length rs = length qs.
Proof. induction 1; cbn; congruence. Qed.

Lemma keeps_id rq q r : keeps_question q r -> question_id rq r = question_id rq q.
Proof. intros [_ H]. unfold question_id. rewrite H. reflexivity. Qed.

Lemma servable_id rq q : servable q -> exists qId, question_id rq q = Return qId.
Proof.
  intros (fields & opts & -> & _ & _ & text & Htext).
  unfold question_id. cbn [get_prop rbind]. rewrite Htext. eexists. reflexivity.
Qed.

Lemma keeps_seen rq qs rs :
  Forall2 keeps_question qs rs -> Forall (seen rq) qs -> Forall (seen rq) rs.
Proof.
  induction 1 as [| q r qs rs Hk _ IH]; intros Hall; [constructor |].
  inversion Hall as [| ? ? (qId & Hid & Hin) Hrest]; subst.
  constructor; [| auto].
  exists qId. rewrite (keeps_id rq q r Hk). auto.
Qed.

Lemma keeps_unseen rq qs rs :
  Forall2 keeps_question qs rs -> Forall (unseen rq) qs -> Forall (unseen rq) rs.
Proof.
  induction 1 as [| q r qs rs Hk _ IH]; intros Hall; [constructor |].
  inversion Hall as [| ? ? (qId & Hid & Hin) Hrest]; subst.
  constructor; [| auto].
  exists qId. rewrite (keeps_id rq q r Hk). auto.
Qed.

Lemma not_excluded_spec rq qs :
  Forall servable qs ->
  exists kept,
    not_excluded rq qs = Return kept
    /\ Forall servable kept
    /\ Forall (unseen rq) kept
    /\ (kept = [] -> Forall (seen rq) qs)
    /\ (length kept <= length qs)%nat
    /\ (Forall (unseen rq) qs -> kept = qs).
Proof.
  unfold not_excluded.
  induction 1 as [| q qs Hq _ (kept & Hrun & Hserv & Hun & Hnil & Hlen & Hall)].
  - exists []. repeat split; auto.
  - destruct (servable_id rq q Hq) as [qId Hid].
    cbn [rfilter]. rewrite Hid, Hrun. cbn [rbind].
    destruct (decide (qId ∈ excludeSet rq)) as [Hin | Hout].
    + rewrite (bool_decide_eq_true_2 _ Hin). cbn [negb].
      exists kept. repeat split; auto.
      * intros ->. constructor; [exists qId; auto | auto].
      * cbn [length]. lia.
      * intros Hu. inversion Hu as [| ? ? (qId' & Hid' & Hout') _]; subst.
        congruence.
    + rewrite (bool_decide_eq_false_2 _ Hout). cbn [negb].
      exists (q :: kept). repeat split; auto.
      * constructor; [exists qId; auto | auto].
      * discriminate.
      * cbn [length]. lia.
      * intros Hu. inversion Hu; subst. f_equal. auto.
Qed.

Lemma ids_of rq final :
  Forall servable final ->
  exists questionIds,
    rmap (question_id rq) final = Return questionIds
    /\ Forall2 (fun q qId => question_id rq q = Return qId) final questionIds.
Proof.
  induction 1 as [| q qs Hq _ (ids & Hrun & Hall)]; [exists []; split; [reflexivity | constructor] |].
  destruct (servable_id rq q Hq) as [qId Hid].
  exists (qId :: ids). cbn [rmap]. rewrite Hid, Hrun. split; [reflexivity |].
  constructor; assumption.
Qed.

Lemma fallback_five city : (5 <= length (getFallbackQuestions city))%nat.
Proof.
  unfold getFallbackQuestions.
  destruct (first_curated _ CURATED_QUESTIONS) as [questions |] eqn:Hc.
  - apply first_curated_In in Hc as (name & Hin).
    assert (Hne : forallb (fun entry => Nat.leb 5 (length (snd entry)))
                          CURATED_QUESTIONS = true) by (vm_compute; reflexivity).
    rewrite forallb_forall in Hne. specialize (Hne _ Hin). cbn [snd] in Hne.
    apply Nat.leb_le. exact Hne.
  - cbn. lia.
Qed.

Lemma slice_to_length {A} (arr : list A) (count : Z) :
  0 <= count -> Z.of_nat (length (slice_to arr count)) = Z.min count (Z.of_nat (length arr)).
Proof.
  intros H. unfold slice_to.
  destruct (Z.ltb_spec count 0); [lia |].
  rewrite length_firstn. lia.
Qed.

Lemma slice_to_keeps qs rs count :
  Forall2 keeps_question qs rs ->
  Forall2 keeps_question (slice_to qs count) (slice_to rs count).
Proof.
  intros H. unfold slice_to. rewrite (keeps_length _ _ H).
  apply Forall2_take. exact H.
Qed.

Lemma slice_to_Forall {A} (P : A -> Prop) (arr : list A) count :
  Forall P arr -> Forall P (slice_to arr count).
Proof. intros H. unfold slice_to. apply Forall_take. exact H. Qed.

Lemma cache_ok_insert cache key questions ts :
  cache_ok cache -> (4 <= length questions)%nat -> Forall servable questions ->
  cache_ok (<[key := {| pool_questions := questions; pool_ts := ts |}]> cache).
Proof.
  intros Hok Hlen Hall k entry Hk.
  destruct (decide (key = k)) as [-> | Hne].
  - rewrite lookup_insert_eq in Hk. injection Hk as <-. cbn. auto.
  - rewrite lookup_insert_ne in Hk by exact Hne. eauto.
Qed.

Lemma cache_ok_delete cache key : cache_ok cache -> cache_ok (delete key cache).
Proof.
  intros Hok k entry Hk.
  apply lookup_delete_Some in Hk as [_ Hk]. eauto.
Qed.


Section Handler.

Variable JSON_parse : string -> result value.
Variable replies : nat -> result string * Z.
Variable rq : quiz_request.

(** Two worlds that differ at most by the random source. *)
Lemma generate_inv w r w' :
  generate JSON_parse replies rq w = (r, w') ->
  model_calls w' = S (model_calls w)
  /\ (cache_ok (triviaPoolCache w) -> cache_ok (triviaPoolCache w'))
  /\ match r with
     | Return questions => Forall servable questions
     | Throw e => failed JSON_parse replies (model_calls w) e
     end.
Proof.
  unfold generate, wbind, ask, of_result, of_M, wret, failed.
  destruct (replies (model_calls w)) as [[content | e] t] eqn:Hreply; cbn [fst].
  2: { intros [= <- <-]. cbn. auto. }
  destruct (parsed_questions JSON_parse content) as [parsed | e] eqn:Hparse.
  2: { intros [= <- <-]. cbn. eauto 6. }
  cbn [rand triviaPoolCache now model_calls].
  destruct (validateTriviaQuestions_returns parsed (poiNames rq) (rand w))
    as (out & g' & Hrun & Hvalid & _).
  rewrite Hrun.
  assert (Hserv : Forall servable out) by exact (validated_servable _ _ _ _ _ Hrun).
  destruct (Z.leb_spec 4 (Z.of_nat (length out))) as [Hfour | _];
    unfold cache_set; cbn; intros [= <- <-]; cbn;
    (split; [reflexivity | split; [intros Hok | exact Hserv]]).
  - apply cache_ok_insert; auto. lia.
  - exact Hok.
Qed.

Lemma load_inv w r w' :
  cache_ok (triviaPoolCache w) ->
  load JSON_parse replies rq w = (r, w') ->
  cache_ok (triviaPoolCache w')
  /\ match r with
     | Return (questions, triviaSource) =>
         Forall servable questions
         /\ (triviaSource = "cache" /\ model_calls w' = model_calls w
             \/ triviaSource = "openai" /\ model_calls w' = S (model_calls w))
     | Throw e =>
         failed JSON_parse replies (model_calls w) e
         /\ model_calls w' = S (model_calls w)
     end.
Proof.
  intros Hok. unfold load.
  assert (Hgen : forall w0,
            cache_ok (triviaPoolCache w0) -> model_calls w0 = model_calls w ->
            wbind (generate JSON_parse replies rq)
                  (fun questions => wret (questions, "openai")) w0 = (r, w') ->
            cache_ok (triviaPoolCache w')
            /\ match r with
               | Return (questions, triviaSource) =>
                   Forall servable questions
                   /\ (triviaSource = "cache" /\ model_calls w' = model_calls w
                       \/ triviaSource = "openai" /\ model_calls w' = S (model_calls w))
               | Throw e =>
                   failed JSON_parse replies (model_calls w) e
                   /\ model_calls w' = S (model_calls w)
               end).
  { intros w0 Hok0 Hcalls. unfold wbind, wret.
    destruct (generate JSON_parse replies rq w0) as [[questions | e] w1] eqn:Hg;
      apply generate_inv in Hg as (Hn & Hc & Hr); intros [= <- <-];
      rewrite <- Hcalls; auto. }
  destruct (triviaPoolCache w !! triviaCacheKey rq) as [cachedTrivia |] eqn:Hget.
  - destruct ((now w - pool_ts cachedTrivia <? TRIVIA_POOL_TTL)
              && (0 <? Z.of_nat (length (pool_questions cachedTrivia)))).
    + intros [= <- <-]. split; [exact Hok |].
      split; [exact (proj2 (Hok _ _ Hget)) | auto].
    + unfold wbind at 1.
      destruct (Z.of_nat (length (pool_questions cachedTrivia)) =? 0).
      * unfold cache_delete at 1. apply Hgen; [| reflexivity].
        apply cache_ok_delete. exact Hok.
      * unfold wret at 1. apply Hgen; [exact Hok | reflexivity].
  - apply Hgen; [exact Hok | reflexivity].
Qed.

Lemma recover_inv questions triviaSource w r w' :
  cache_ok (triviaPoolCache w) ->
  Forall servable questions ->
  recover JSON_parse replies rq questions triviaSource w = (r, w') ->
  cache_ok (triviaPoolCache w')
  /\ match r with
     | Return (kept, source) =>
         Forall servable kept
         /\ (kept = questions /\ source = triviaSource /\ w' = w
             \/ triviaSource = "cache" /\ source = "openai"
                /\ non_empty (cityPlaceId rq) = true
                /\ model_calls w' = S (model_calls w)
                /\ (Forall (unseen rq) kept \/ Forall (seen rq) kept))
     | Throw e =>
         triviaSource = "cache"
         /\ failed JSON_parse replies (model_calls w) e
         /\ model_calls w' = S (model_calls w)
     end.
Proof.
  intros Hok Hserv. unfold recover.
  destruct (Z.of_nat (length questions) <? Z.min (count rq) 4); cbn [andb].
  2: { intros [= <- <-]. auto 6. }
  destruct (String.eqb_spec triviaSource "cache") as [-> | _]; cbn [andb].
  2: { intros [= <- <-]. auto 6. }
  destruct (non_empty (cityPlaceId rq)) eqn:Hgrounded.
  2: { intros [= <- <-]. auto 6. }
  unfold wbind at 1, cache_delete at 1. unfold wbind at 1.
  match goal with
  | |- context [generate JSON_parse replies rq ?w0] =>
      destruct (generate JSON_parse replies rq w0) as [[fresh | e] w1] eqn:Hg;
      apply generate_inv in Hg as (Hn & Hc & Hr);
      cbn [model_calls triviaPoolCache] in Hn, Hc;
      specialize (Hc (cache_ok_delete _ _ Hok))
  end.
  2: { intros [= <- <-]. auto. }
  unfold wbind, of_result, wret.
  destruct (not_excluded_spec rq fresh Hr)
    as (unseenQuestions & -> & Hs & Hun & Hnil & _ & _).
  intros [= <- <-]. split; [exact Hc |].
  destruct unseenQuestions as [| q rest]; cbn [length Z.of_nat Z.eqb].
  - split; [exact Hr |]. right. auto 8.
  - split; [exact Hs |]. right. auto 8.
Qed.

Lemma fall_back_inv questions triviaSource w r w' :
  Forall servable questions ->
  fall_back rq questions triviaSource w = (r, w') ->
  triviaPoolCache w' = triviaPoolCache w
  /\ model_calls w' = model_calls w
  /\ exists kept source,
       r = Return (kept, source)
       /\ Forall servable kept
       /\ (kept = questions /\ source = triviaSource
           /\ (non_empty (cityPlaceId rq) = true
               \/ Z.min (count rq) 4 <= Z.of_nat (length kept))
           \/ non_empty (cityPlaceId rq) = false /\ source = "fallback"
              /\ Z.min (count rq) 4 <= Z.of_nat (length kept)).
Proof.
  intros Hserv. unfold fall_back.
  pose proof (fallback_five (city rq)) as Hfive.
  destruct (Z.ltb_spec (Z.of_nat (length questions)) (Z.min (count rq) 4)) as [Hfew | Hmany].
  2: { intros [= <- <-]. repeat split. exists questions, triviaSource. auto 8. }
  destruct (non_empty (cityPlaceId rq)) eqn:Hgrounded; cbn [negb].
  { intros [= <- <-]. repeat split. exists questions, triviaSource. auto 8. }
  destruct (Z.ltb_spec (Z.of_nat (length questions))
              (Z.of_nat (length (getFallbackQuestions (city rq))))) as [_ | Hge];
    [| lia].
  unfold wbind, of_M, wret.
  destruct (shuffle_fallbacks (city rq) (rand w)) as (shuffled & g' & Hrun & Hvalid & Hlen).
  destruct (shuffles_keep (getFallbackQuestions (city rq)) (rand w)
              (fallback_servable (city rq))) as (rs & g1 & Hrs & Hkeeps).
  rewrite Hrun in Hrs. injection Hrs as <- <-. rewrite Hrun.
  intros [= <- <-]. cbn. repeat split.
  exists shuffled, "fallback". split; [reflexivity |]. split.
  - exact (keeps_servable _ _ Hkeeps).
  - right. repeat split. lia.
Qed.


Lemma respond_inv questions triviaSource w r w' :
  Forall servable questions ->
  respond rq questions triviaSource w = (r, w') ->
  triviaPoolCache w' = triviaPoolCache w
  /\ model_calls w' = model_calls w
  /\ exists final questionIds poolExhausted,
       r = Return (json (quiz_body rq final questionIds poolExhausted triviaSource))
       /\ Forall2 keeps_question (slice_to questions (count rq)) final
       /\ (if non_empty (cityPlaceId rq)
           then Forall2 (fun q qId => question_id rq q = Return qId) final questionIds
           else questionIds = []).
Proof.
  intros Hserv. unfold respond, wbind, of_M, of_result, wret.
  destruct (guard_keeps questions (rand w) Hserv) as (guarded & g' & -> & Hkeeps).
  cbn [rand triviaPoolCache now model_calls].
  pose proof (slice_to_keeps _ _ (count rq) Hkeeps) as Hfinal.
  destruct (non_empty (cityPlaceId rq)) eqn:Hgrounded.
  - destruct (ids_of rq (slice_to guarded (count rq)) (keeps_servable _ _ Hfinal))
      as (questionIds & -> & Hids).
    intros [= <- <-]. cbn. split; [reflexivity |]. split; [reflexivity |].
    eexists _, questionIds, _. split; [reflexivity |]. auto.
  - intros [= <- <-]. cbn. split; [reflexivity |]. split; [reflexivity |].
    eexists _, [], _. split; [reflexivity |]. auto.
Qed.

(** What [select] hands over: servable questions, with a source that is
    not the fallback and ids all unseen, or all seen, for a city with a
    place id; enough questions for one without. *)
Lemma select_inv allQuestions triviaSource w r w' :
  cache_ok (triviaPoolCache w) ->
  Forall servable allQuestions ->
  triviaSource = "cache" \/ triviaSource = "openai" ->
  select JSON_parse replies rq allQuestions triviaSource w = (r, w') ->
  cache_ok (triviaPoolCache w')
  /\ match r with
     | Return (questions, source) =>
         Forall servable questions
         /\ (model_calls w' = model_calls w
             \/ triviaSource = "cache" /\ model_calls w' = S (model_calls w))
         /\ (if non_empty (cityPlaceId rq)
             then (source = "cache" \/ source = "openai")
                  /\ (Forall (unseen rq) questions
                      \/ source = "openai" /\ Forall (seen rq) questions)
             else Z.min (count rq) 4 <= Z.of_nat (length questions))
     | Throw e =>
         triviaSource = "cache"
         /\ failed JSON_parse replies (model_calls w) e
     end.
Proof.
  intros Hok Hserv Hsource. unfold select.
  unfold wbind at 1, of_result at 1.
  assert (Hfirst : exists questions,
            (if non_empty (cityPlaceId rq)
             then not_excluded rq allQuestions else Return allQuestions) = Return questions
            /\ Forall servable questions
            /\ (non_empty (cityPlaceId rq) = true -> Forall (unseen rq) questions)).
  { destruct (non_empty (cityPlaceId rq)).
    - destruct (not_excluded_spec rq allQuestions Hserv) as (kept & -> & Hs & Hun & _).
      exists kept. auto.
    - exists allQuestions. split; [reflexivity |]. split; [exact Hserv | discriminate]. }
  destruct Hfirst as (questions & -> & Hs & Hun).
  unfold wbind.
  destruct (recover JSON_parse replies rq questions triviaSource w)
    as [[[recovered source] | e] w1] eqn:Hrec;
    apply recover_inv in Hrec as (Hok1 & Hrec); try assumption.
  2: { intros [= <- <-]. destruct Hrec as (Hc & Hf & _). auto. }
  destruct Hrec as (Hs1 & Hrec). cbn [fst snd].
  intros Hfall. apply fall_back_inv in Hfall as (Hcache & Hcalls & kept & final & -> & Hs2 & Hfall);
    [| exact Hs1].
  rewrite Hcache, Hcalls. split; [exact Hok1 |]. split; [exact Hs2 |]. split.
  - destruct Hrec as [(_ & _ & ->) | (Hc & _ & _ & Hn & _)]; auto.
  - destruct (non_empty (cityPlaceId rq)) eqn:Hgrounded.
    + destruct Hfall as [(-> & -> & _) | (Hno & _)]; [| discriminate Hno].
      destruct Hrec as [(-> & -> & _) | (_ & -> & _ & _ & [Hu | Hseen])]; auto.
    + destruct Hfall as [(_ & _ & [Hyes | Hlen]) | (_ & _ & Hlen)];
        [discriminate Hyes | exact Hlen | exact Hlen].
Qed.

(** The handler from end to end. *)
Lemma quiz_answer_inv w r w' :
  cache_ok (triviaPoolCache w) ->
  quiz_answer JSON_parse replies rq w = (r, w') ->
  cache_ok (triviaPoolCache w')
  /\ match r with
     | Return answer =>
         exists final questionIds poolExhausted source,
           answer = json (quiz_body rq final questionIds poolExhausted source)
           /\ Forall servable final
           /\ (0 <= count rq -> Z.of_nat (length final) <= count rq)
           /\ (if non_empty (cityPlaceId rq)
               then Forall2 (fun q qId => question_id rq q = Return qId) final questionIds
                    /\ (source = "cache" \/ source = "openai")
                    /\ (Forall (unseen rq) final
                        \/ source = "openai" /\ Forall (seen rq) final)
               else questionIds = []
                    /\ (0 <= count rq -> Z.min (count rq) 4 <= Z.of_nat (length final)))
     | Throw e =>
         failed JSON_parse replies (model_calls w) e
         \/ failed JSON_parse replies (S (model_calls w)) e
     end.
Proof.
  intros Hok. unfold quiz_answer, wbind.
  destruct (load JSON_parse replies rq w) as [[[allQuestions triviaSource] | e] w1] eqn:Hload;
    apply load_inv in Hload as (Hok1 & Hload); try assumption.
  2: { intros [= <- <-]. destruct Hload as [Hf _]. auto. }
  destruct Hload as (Hs1 & Hsrc). cbn [fst snd].
  assert (Hsource : triviaSource = "cache" \/ triviaSource = "openai")
    by (destruct Hsrc as [[-> _] | [-> _]]; auto).
  destruct (select JSON_parse replies rq allQuestions triviaSource w1)
    as [[[questions source] | e] w2] eqn:Hsel;
    apply select_inv in Hsel as (Hok2 & Hsel); try assumption.
  2: { intros [= <- <-]. destruct Hsel as (-> & Hf).
       destruct Hsrc as [[_ Hn] | [Habs _]]; [| discriminate Habs].
       rewrite Hn in Hf. auto. }
  destruct Hsel as (Hs2 & _ & Hsel). cbn [fst snd].
  intros Hresp.
  apply respond_inv in Hresp
    as (Hcache & _ & final & questionIds & poolExhausted & -> & Hkeeps & Hids);
    [| exact Hs2].
  rewrite Hcache. split; [exact Hok2 |].
  exists final, questionIds, poolExhausted, source.
  split; [reflexivity |]. split; [exact (keeps_servable _ _ Hkeeps) |].
  pose proof (keeps_length _ _ Hkeeps) as Hlen.
  split.
  { intros Hcount. rewrite Hlen, slice_to_length by exact Hcount. lia. }
  destruct (non_empty (cityPlaceId rq)).
  - split; [exact Hids |]. destruct Hsel as (Hfrom & Hdich).
    split; [exact Hfrom |].
    destruct Hdich as [Hu | (Ho & Hseen)]; [left | right; split; [exact Ho |]].
    + eapply keeps_unseen; [exact Hkeeps |]. apply slice_to_Forall. exact Hu.
    + eapply keeps_seen; [exact Hkeeps |]. apply slice_to_Forall. exact Hseen.
  - split; [exact Hids |]. intros Hcount.
    rewrite Hlen, slice_to_length by exact Hcount. lia.
Qed.

End Handler.


(** The sample worlds. *)
Lemma cache_ok_empty : cache_ok ∅.
Proof. intros key entry H. rewrite lookup_empty in H. discriminate H. Qed.

Lemma paris_pool_servable : Forall servable (pool_questions QuizSamples.paris_pool).
Proof.
  repeat constructor;
    (eexists _, _; split; [reflexivity |]; split; [reflexivity |];
     split; [reflexivity | eexists; reflexivity]).
Qed.

Lemma warm_cache_ok : cache_ok (triviaPoolCache QuizSamples.warm_world).
Proof.
  intros key entry H. cbn [triviaPoolCache QuizSamples.warm_world] in H.
  apply lookup_singleton_Some in H as [_ <-].
  split; [cbn; lia | exact paris_pool_servable].
Qed.

Lemma paris_pool_unseen :
  Forall (unseen QuizSamples.paris) (pool_questions QuizSamples.paris_pool).
Proof.
  repeat constructor;
    (eexists; split; [vm_compute; reflexivity |]);
    unfold excludeSet; cbn [excludeQuestionIds QuizSamples.paris];
    rewrite elem_of_list_to_set, list_elem_of_In; cbn [In];
    intros [H | []]; discriminate H.
Qed.

(** The id of a question that is no text is the id of its text: of [1.5]
    for the number 1.5. A question without a text has no id. *)
Example number_question_id :
  question_id QuizSamples.paris (VObj [("question", VNum (3 # 2))]) = Return "se9qhm"
  /\ question_id QuizSamples.paris (VObj [("question", VStr "1.5")]) = Return "se9qhm"
  /\ question_id QuizSamples.paris (VObj [("question", VObj [("toString", VNum 1)])])
     = Throw TypeError.
Proof. vm_compute. repeat split; reflexivity. Qed.

Lemma tower_four_options : four_options (VObj Samples.tower_fields).
Proof. eexists _, _. split; [reflexivity |]. split; reflexivity. Qed.

End QuizAnswerFacts.

Module QuizAnswerTheorems.
Import Str Regex JS Quiz Parse QuestionId QuizAnswer QuizFacts QuizAnswerFacts.

(** X4: the cache of trivia pools only ever holds full batches. If every
    batch of [triviaPoolCache] has four questions or more, each an object
    with four options and a question that has a text, then so has every
    batch after the handler has run, whatever the model answers and
    whether the handler returns or throws. In particular no cached batch
    is empty. *)
Theorem trivia_cache_keeps_full_batches
    (JSON_parse : string -> result value) (replies : nat -> result string * Z)
    (rq : quiz_request) (w : world) :
  cache_ok (triviaPoolCache w) ->
  cache_ok (triviaPoolCache (snd (quiz_answer JSON_parse replies rq w))).
Proof.
  intros Hok.
  destruct (quiz_answer JSON_parse replies rq w) as [r w'] eqn:Hrun.
  exact (proj1 (quiz_answer_inv JSON_parse replies rq w r w' Hok Hrun)).
Qed.

(** X5: the [try] block of the quiz handler throws for the model only. On
    a cache of full batches (four questions or more, each with four options
    and a question that has a text, as the handler stores them), an
    exception that leaves the block is the one of the first or of the
    second call of the model in this request: the call threw it, or the
    [questions] of its answer were no array. The filters, the shuffles,
    the fallback and the computation of the ids never throw. *)
Theorem quiz_answer_throws_for_the_model_only
    (JSON_parse : string -> result value) (replies : nat -> result string * Z)
    (rq : quiz_request) (w w' : world) (e : exn) :
  cache_ok (triviaPoolCache w) ->
  quiz_answer JSON_parse replies rq w = (Throw e, w') ->
  failed JSON_parse replies (model_calls w) e
  \/ failed JSON_parse replies (S (model_calls w)) e.
Proof.
  intros Hok Hrun.
  exact (proj2 (quiz_answer_inv JSON_parse replies rq w _ w' Hok Hrun)).
Qed.

(** X6: the answer of the quiz handler. It carries at most [count]
    questions (for [count >= 0]); for a city with a place id,
    [questionIds] runs parallel to [questions] and holds the id of each
    question served; without a place id it is empty. *)
Theorem quiz_answer_ids
    (JSON_parse : string -> result value) (replies : nat -> result string * Z)
    (rq : quiz_request) (w w' : world) (answer : response) :
  cache_ok (triviaPoolCache w) ->
  quiz_answer JSON_parse replies rq w = (Return answer, w') ->
  exists final questionIds poolExhausted source,
    answer = json (quiz_body rq final questionIds poolExhausted source)
    /\ (0 <= count rq -> Z.of_nat (length final) <= count rq)
    /\ (if non_empty (cityPlaceId rq)
        then Forall2 (fun q qId => question_id rq q = Return qId) final questionIds
        else questionIds = []).
Proof.
  intros Hok Hrun.
  destruct (proj2 (quiz_answer_inv JSON_parse replies rq w _ w' Hok Hrun))
    as (final & questionIds & poolExhausted & source & -> & _ & Hlen & Hcase).
  exists final, questionIds, poolExhausted, source.
  split; [reflexivity |]. split; [exact Hlen |].
  destruct (non_empty (cityPlaceId rq)); tauto.
Qed.

(** X7: a quiz for a city with a place id never comes from the fallback
    questions: its source is the cache or the model. The questions served
    all have ids outside [excludeQuestionIds], or else they come from a
    regeneration all of whose questions (if any) the client had seen. *)
Theorem grounded_quiz_is_unseen_or_regenerated
    (JSON_parse : string -> result value) (replies : nat -> result string * Z)
    (rq : quiz_request) (w w' : world) (answer : response) :
  cache_ok (triviaPoolCache w) ->
  non_empty (cityPlaceId rq) = true ->
  quiz_answer JSON_parse replies rq w = (Return answer, w') ->
  exists final questionIds poolExhausted source,
    answer = json (quiz_body rq final questionIds poolExhausted source)
    /\ (source = "cache" \/ source = "openai")
    /\ (Forall (unseen rq) final \/ source = "openai" /\ Forall (seen rq) final).
Proof.
  intros Hok Hgrounded Hrun.
  destruct (proj2 (quiz_answer_inv JSON_parse replies rq w _ w' Hok Hrun))
    as (final & questionIds & poolExhausted & source & -> & _ & _ & Hcase).
  rewrite Hgrounded in Hcase.
  exists final, questionIds, poolExhausted, source. tauto.
Qed.

(** X8: a quiz for a city without a place id is never short: for
    [count >= 0] the answer has at least [min(count, 4)] questions and at most
    [count], and no ids; few generated questions are replaced by the
    fallback questions, of which there are five or more. *)
Theorem ungrounded_quiz_has_questions
    (JSON_parse : string -> result value) (replies : nat -> result string * Z)
    (rq : quiz_request) (w w' : world) (answer : response) :
  cache_ok (triviaPoolCache w) ->
  non_empty (cityPlaceId rq) = false ->
  0 <= count rq ->
  quiz_answer JSON_parse replies rq w = (Return answer, w') ->
  exists final poolExhausted source,
    answer = json (quiz_body rq final [] poolExhausted source)
    /\ Z.min (count rq) 4 <= Z.of_nat (length final) <= count rq.
Proof.
  intros Hok Hgrounded Hcount Hrun.
  destruct (proj2 (quiz_answer_inv JSON_parse replies rq w _ w' Hok Hrun))
    as (final & questionIds & poolExhausted & source & -> & _ & Hlen & Hcase).
  rewrite Hgrounded in Hcase. destruct Hcase as [-> Hmin].
  exists final, poolExhausted, source. split; [reflexivity |].
  split; auto.
Qed.

(** X9: a fresh cached pool is served without the model. When the cache
    holds a batch for the key of the request that is younger than 24 hours
    and, for a city with a place id, none of its questions is excluded, the
    handler answers with source ["cache"]: the questions served are the
    first [count] of the batch, possibly reshuffled; the model is not
    called (so the answer is the same whatever the model would say) and
    the cache is left as it was. *)
Theorem fresh_pool_is_served_without_the_model
    (JSON_parse : string -> result value) (replies : nat -> result string * Z)
    (rq : quiz_request) (w : world) (cachedTrivia : pool_entry) :
  cache_ok (triviaPoolCache w) ->
  triviaPoolCache w !! triviaCacheKey rq = Some cachedTrivia ->
  now w - pool_ts cachedTrivia < TRIVIA_POOL_TTL ->
  (non_empty (cityPlaceId rq) = true -> Forall (unseen rq) (pool_questions cachedTrivia)) ->
  exists final questionIds poolExhausted w',
    quiz_answer JSON_parse replies rq w
    = (Return (json (quiz_body rq final questionIds poolExhausted "cache")), w')
    /\ Forall2 keeps_question (slice_to (pool_questions cachedTrivia) (count rq)) final
    /\ model_calls w' = model_calls w
    /\ triviaPoolCache w' = triviaPoolCache w.
Proof.
  intros Hok Hget Hfresh Hunseen.
  destruct (Hok _ _ Hget) as [Hfour Hserv].
  unfold quiz_answer. unfold wbind at 1, load. rewrite Hget.
  apply Z.ltb_lt in Hfresh. rewrite Hfresh.
  assert (Hsome : (0 <? Z.of_nat (length (pool_questions cachedTrivia))) = true)
    by (apply Z.ltb_lt; lia).
  rewrite Hsome. cbn [andb fst snd].
  assert (Hselect : select JSON_parse replies rq (pool_questions cachedTrivia) "cache" w
                    = (Return (pool_questions cachedTrivia, "cache"), w)).
  { unfold select. unfold wbind at 1, of_result at 1.
    assert (Hkept : (if non_empty (cityPlaceId rq)
                     then not_excluded rq (pool_questions cachedTrivia)
                     else Return (pool_questions cachedTrivia))
                    = Return (pool_questions cachedTrivia)).
    { destruct (non_empty (cityPlaceId rq)); [| reflexivity].
      destruct (not_excluded_spec rq _ Hserv) as (kept & -> & _ & _ & _ & _ & Hall).
      rewrite (Hall (Hunseen eq_refl)). reflexivity. }
    rewrite Hkept.
    assert (Hmany : (Z.of_nat (length (pool_questions cachedTrivia)) <? Z.min (count rq) 4)
                    = false) by (apply Z.ltb_ge; lia).
    unfold wbind, recover, fall_back. rewrite Hmany. cbn [andb fst snd]. unfold wret.
    cbn [fst snd]. rewrite Hmany. reflexivity. }
  unfold wbind. rewrite Hselect. cbn [fst snd].
  destruct (respond rq (pool_questions cachedTrivia) "cache" w) as [r w'] eqn:Hresp.
  apply respond_inv in Hresp
    as (Hcache & Hcalls & final & questionIds & poolExhausted & -> & Hkeeps & _);
    [| exact Hserv].
  exists final, questionIds, poolExhausted, w'. auto.
Qed.

(** X10: [shuffleOptions] changes [options] and [correctIndex] only. On an
    object with four options it returns, for every run of the random
    source, an object with the same value at every other property; in
    particular the question served keeps the id [generateQuestionId] gives
    it, so that ids sent back as exclusions match reshuffled questions. *)
Theorem shuffleOptions_keeps_the_other_fields
    (rq : quiz_request) (q : value) (g : Rand) (name : string) :
  four_options q ->
  name <> "options" -> name <> "correctIndex" ->
  exists r g',
    shuffleOptions q g = (Return r, g')
    /\ get_prop r name = get_prop q name
    /\ question_id rq r = question_id rq q.
Proof.
  intros (fields & opts & -> & Hopts & Hlen) H1 H2.
  destruct (shuffleOptions_run fields opts _ g Hopts Hlen eq_refl)
    as (answer & shuffled & g' & _ & _ & Hrun).
  eexists _, g'. split; [exact Hrun |]. split.
  - apply get_shuffled_other; assumption.
  - unfold question_id. rewrite get_shuffled_other by discriminate. reflexivity.
Qed.

End QuizAnswerTheorems.

Module QuizAnswerWitnesses.
Import Str Regex JS Quiz Parse QuestionId QuizAnswer Samples QuizSamples.
Import QuizAnswerFacts QuizAnswerTheorems.

Lemma trivia_cache_keeps_full_batches_witness :
  cache_ok (triviaPoolCache warm_world)
  /\ cache_ok (triviaPoolCache (snd paris_again_run)).
Proof.
  split; [exact warm_cache_ok |].
  exact (trivia_cache_keeps_full_batches parse_empty_only empty_replies paris_again
           warm_world warm_cache_ok).
Defined.

Lemma quiz_answer_throws_for_the_model_only_witness :
  down_run = (Throw (OtherError "APIConnectionError"), snd down_run)
  /\ (failed parse_empty_only no_replies 0 (OtherError "APIConnectionError")
      \/ failed parse_empty_only no_replies 1 (OtherError "APIConnectionError")).
Proof.
  assert (Hrun : down_run = (Throw (OtherError "APIConnectionError"), snd down_run))
    by (vm_compute; reflexivity).
  split; [exact Hrun |].
  exact (quiz_answer_throws_for_the_model_only parse_empty_only no_replies lyon
           cold_world (snd down_run) (OtherError "APIConnectionError")
           cache_ok_empty Hrun).
Defined.

Lemma quiz_answer_ids_witness :
  paris_run = (Return (answer_of paris_run), snd paris_run)
  /\ exists final questionIds poolExhausted source,
       answer_of paris_run = json (quiz_body paris final questionIds poolExhausted source)
       /\ (0 <= count paris -> Z.of_nat (length final) <= count paris)
       /\ Forall2 (fun q qId => question_id paris q = Return qId) final questionIds.
Proof.
  assert (Hrun : paris_run = (Return (answer_of paris_run), snd paris_run))
    by (vm_compute; reflexivity).
  split; [exact Hrun |].
  exact (quiz_answer_ids parse_empty_only empty_replies paris warm_world (snd paris_run)
           (answer_of paris_run) warm_cache_ok Hrun).
Defined.

Lemma grounded_quiz_is_unseen_or_regenerated_witness :
  paris_again_run = (Return (answer_of paris_again_run), snd paris_again_run)
  /\ exists final questionIds poolExhausted source,
       answer_of paris_again_run
       = json (quiz_body paris_again final questionIds poolExhausted source)
       /\ (source = "cache" \/ source = "openai")
       /\ (Forall (unseen paris_again) final
           \/ source = "openai" /\ Forall (seen paris_again) final).
Proof.
  assert (Hrun : paris_again_run
                 = (Return (answer_of paris_again_run), snd paris_again_run))
    by (vm_compute; reflexivity).
  split; [exact Hrun |].
  exact (grounded_quiz_is_unseen_or_regenerated parse_empty_only empty_replies paris_again
           warm_world (snd paris_again_run) (answer_of paris_again_run)
           warm_cache_ok eq_refl Hrun).
Defined.

Lemma ungrounded_quiz_has_questions_witness :
  lyon_run = (Return (answer_of lyon_run), snd lyon_run)
  /\ exists final poolExhausted source,
       answer_of lyon_run = json (quiz_body lyon final [] poolExhausted source)
       /\ Z.min (count lyon) 4 <= Z.of_nat (length final) <= count lyon.
Proof.
  assert (Hrun : lyon_run = (Return (answer_of lyon_run), snd lyon_run))
    by (vm_compute; reflexivity).
  assert (Hcount : 0 <= count lyon) by (cbn; lia).
  split; [exact Hrun |].
  exact (ungrounded_quiz_has_questions parse_empty_only empty_replies lyon cold_world
           (snd lyon_run) (answer_of lyon_run) cache_ok_empty eq_refl Hcount Hrun).
Defined.

Lemma fresh_pool_is_served_without_the_model_witness :
  now warm_world - pool_ts paris_pool < TRIVIA_POOL_TTL
  /\ exists final questionIds poolExhausted w',
       quiz_answer parse_empty_only no_replies paris warm_world
       = (Return (json (quiz_body paris final questionIds poolExhausted "cache")), w')
       /\ Forall2 keeps_question (slice_to (pool_questions paris_pool) (count paris)) final
       /\ model_calls w' = model_calls warm_world
       /\ triviaPoolCache w' = triviaPoolCache warm_world.
Proof.
  assert (Hfresh : now warm_world - pool_ts paris_pool < TRIVIA_POOL_TTL)
    by (vm_compute; reflexivity).
  split; [exact Hfresh |].
  exact (fresh_pool_is_served_without_the_model parse_empty_only no_replies paris
           warm_world paris_pool warm_cache_ok (lookup_singleton_eq _ _) Hfresh
           (fun _ => paris_pool_unseen)).
Defined.

Lemma shuffleOptions_keeps_the_other_fields_witness :
  exists r g',
    shuffleOptions (VObj tower_fields) sample_rand = (Return r, g')
    /\ get_prop r "funFact" = get_prop (VObj tower_fields) "funFact"
    /\ question_id paris r = question_id paris (VObj tower_fields).
Proof.
  apply (shuffleOptions_keeps_the_other_fields paris (VObj tower_fields) sample_rand
           "funFact" tower_four_options); discriminate.
Defined.

End QuizAnswerWitnesses.

Module ValidatorWitnesses.
Import Str Regex JS Quiz FunFact Validators Samples.

Lemma generic_question_rejected_witness :
  trivia_filter (VObj [("question", VStr "Tell me: WHAT IS THE CAPITAL of France?")]) = false
  /\ validateTriviaQuestions
       [VObj [("question", VStr "Tell me: WHAT IS THE CAPITAL of France?")]] [] sample_rand
     = (Return [], sample_rand).
Proof.
  apply (ValidatorFacts.generic_question_rejected
           [("question", VStr "Tell me: WHAT IS THE CAPITAL of France?")]
           "Tell me: WHAT IS THE CAPITAL of France?" [] sample_rand eq_refl).
  left. exists "what is the capital". split; [left; reflexivity |].
  exists "Tell me: ", "WHAT IS THE CAPITAL", " of France?".
  split; reflexivity.
Defined.

Lemma banned_phrase_rejected_witness :
  isValidFunFact ("Built in 1889, the 330 m tower is a " ++ "Must-See"
                  ++ " of the city for everyone.") = false.
Proof.
  apply (BannedFacts.banned_phrase_rejected
           "Built in 1889, the 330 m tower is a " "Must-See"
           " of the city for everyone." "must-see").
  - do 14 right. left. reflexivity.
  - reflexivity.
Defined.

End ValidatorWitnesses.

(** * The places, the suggestions and the trips *)

(** ** Categories, pools and contexts *)

Module PlacesFacts.
Import Str JS Suggestions Places.

Lemma has_ext (types1 types2 : list string) (t : string) :
  (forall x, In x types1 <-> In x types2) ->
  existsb (String.eqb t) types1 = existsb (String.eqb t) types2.
Proof.
  intros H. apply eq_true_iff_eq. rewrite !existsb_exists.
  split; intros (x & Hin & Hx); exists x; (split; [apply H; exact Hin | exact Hx]).
Qed.

Lemma mapGoogleCategory_in_categories (types : list string) :
  In (mapGoogleCategory types) CATEGORIES.
Proof.
  unfold mapGoogleCategory, CATEGORIES. cbv zeta.
  repeat match goal with
         | |- context [if ?c then _ else _] => destruct c
         end; cbn; auto 10.
Qed.

(** X11: [mapGoogleCategory] reads the set of the tags only: two lists
    with the same members, in any order and with any repetitions, get the
    same category; and the category is one of Culture, Food, Nature,
    Shopping, Entertainment and Landmark. *)
Theorem mapGoogleCategory_reads_the_set_of_tags (types1 types2 : list string) :
  (forall t, In t types1 <-> In t types2) ->
  mapGoogleCategory types1 = mapGoogleCategory types2
  /\ In (mapGoogleCategory types1) CATEGORIES.
Proof.
  intros H. split; [| apply mapGoogleCategory_in_categories].
  unfold mapGoogleCategory. cbv zeta.
  repeat rewrite (has_ext types1 types2 _ H). reflexivity.
Qed.

Lemma has_false types t : existsb (String.eqb t) types = false <-> ~ In t types.
Proof.
  rewrite <- not_true_iff_false, existsb_exists. split.
  - intros H Hin. apply H. exists t. split; [exact Hin | apply String.eqb_refl].
  - intros H (x & Hin & Hx). apply String.eqb_eq in Hx. subst x. exact (H Hin).
Qed.

(** X12: Landmark is the default of [mapGoogleCategory], and nothing more:
    the category is Landmark exactly when none of the eighteen tags of the
    first five rules is present. The rules on the places of worship and on
    [tourist_attraction], [point_of_interest] and [establishment] change
    nothing. *)
Theorem mapGoogleCategory_default (types : list string) :
  mapGoogleCategory types = "Landmark"
  <-> (forall t, In t CATEGORY_TAGS -> ~ In t types).
Proof.
  unfold mapGoogleCategory. cbv zeta. split.
  - intros H.
    repeat match type of H with
           | (if ?c then _ else _) = _ => destruct c eqn:?; [discriminate H |]
           end.
    repeat match goal with
           | E : _ || _ = false |- _ => apply orb_false_elim in E; destruct E
           end.
    intros t Ht. apply has_false.
    cbn [In CATEGORY_TAGS] in Ht.
    repeat (destruct Ht as [<- | Ht]; [assumption |]).
    destruct Ht.
  - intros H.
    assert (Hno : forall t, In t CATEGORY_TAGS -> existsb (String.eqb t) types = false)
      by (intros t Ht; apply has_false, H, Ht).
    rewrite !Hno by (cbn; auto 20). cbn [orb].
    repeat match goal with
           | |- context [if ?c then _ else _] => destruct c
           end; reflexivity.
Qed.


(** *** Deduplication by key *)

Section DedupeFacts.

Context {A : Type} (key : A -> string) (keep : A -> bool).

Lemma map_has_fst (m : list (string * A)) (k : string) :
  map_has m k = existsb (fun k' => String.eqb k' k) (map fst m).
Proof. unfold map_has. induction m as [| e m IH]; cbn; [reflexivity | rewrite <- IH; reflexivity]. Qed.

Lemma fold_dedupe (all : list A) : forall deduped,
  map snd (fold_left (dedupe_step key keep) all deduped)
  = (map snd deduped ++ firsts key keep (map fst deduped) all)%list.
Proof.
  induction all as [| x rest IH]; intros deduped; cbn [fold_left firsts].
  - rewrite app_nil_r. reflexivity.
  - unfold dedupe_step at 2. rewrite map_has_fst.
    destruct (keep x && negb (existsb (fun k' => String.eqb k' (key x)) (map fst deduped))).
    + rewrite IH. unfold map_add. rewrite !map_app. cbn [map fst snd].
      rewrite <- app_assoc. reflexivity.
    + apply IH.
Qed.

Lemma dedupe_by_firsts (all : list A) : dedupe_by key keep all = firsts key keep [] all.
Proof. unfold dedupe_by. rewrite fold_dedupe. reflexivity. Qed.

Lemma seen_spec (seen : list string) (k : string) :
  existsb (fun k' => String.eqb k' k) seen = true <-> In k seen.
Proof.
  rewrite existsb_exists. split.
  - intros (k' & Hin & Hk). apply String.eqb_eq in Hk. subst k'. exact Hin.
  - intros Hin. exists k. split; [exact Hin | apply String.eqb_refl].
Qed.

Lemma firsts_kept (all : list A) : forall seen,
  Forall (fun x => keep x = true /\ ~ In (key x) seen) (firsts key keep seen all).
Proof.
  induction all as [| x rest IH]; intros seen; cbn [firsts]; [constructor |].
  destruct (keep x) eqn:Hkeep; cbn [andb]; [| apply IH].
  destruct (existsb _ seen) eqn:Hseen; cbn [negb]; [apply IH |].
  constructor.
  - split; [exact Hkeep |]. rewrite <- seen_spec, Hseen. discriminate.
  - eapply Forall_impl; [apply IH |].
    intros y [Hy Hout]. split; [exact Hy |].
    intros Hin. apply Hout, in_or_app. left. exact Hin.
Qed.

Lemma firsts_NoDup (all : list A) : forall seen,
  NoDup (map key (firsts key keep seen all)).
Proof.
  induction all as [| x rest IH]; intros seen; cbn [firsts]; [constructor |].
  destruct (keep x && negb (existsb _ seen)); [| apply IH].
  cbn [map]. constructor; [| apply IH].
  rewrite list_elem_of_In, in_map_iff. intros (y & Hy & Hin).
  pose proof (firsts_kept rest (seen ++ [key x])) as Hall.
  destruct (QuizAnswerFacts.Forall_In _ _ Hall y Hin) as [_ Hout].
  apply Hout, in_or_app. right. left. symmetry. exact Hy.
Qed.

Lemma firsts_sublist (all : list A) : forall seen,
  sublist (firsts key keep seen all) all.
Proof.
  induction all as [| x rest IH]; intros seen; cbn [firsts]; [constructor |].
  destruct (keep x && negb (existsb _ seen)).
  - apply sublist_skip, IH.
  - apply sublist_cons, IH.
Qed.

(** Every key of an element kept is seen or served. *)
Lemma firsts_cover (all : list A) : forall seen x,
  In x all -> keep x = true ->
  In (key x) seen \/ In (key x) (map key (firsts key keep seen all)).
Proof.
  induction all as [| a rest IH]; intros seen x Hin Hkeep; [destruct Hin |].
  cbn [firsts].
  destruct Hin as [-> | Hin].
  - rewrite Hkeep. cbn [andb].
    destruct (existsb _ seen) eqn:Hseen; cbn [negb].
    + left. apply seen_spec. exact Hseen.
    + right. left. reflexivity.
  - destruct (keep a && negb (existsb _ seen)).
    + destruct (IH (seen ++ [key a])%list x Hin Hkeep) as [Hs | Hs].
      * apply in_app_or in Hs as [Hs | [<- | []]]; [left; exact Hs |].
        right. left. reflexivity.
      * right. right. exact Hs.
    + apply IH; assumption.
Qed.

(** The first element with its key, among those kept, is served. *)
Lemma firsts_first (all : list A) : forall seen before x after,
  all = (before ++ x :: after)%list ->
  keep x = true -> ~ In (key x) seen ->
  (forall y, In y before -> keep y = true -> key y <> key x) ->
  In x (firsts key keep seen all).
Proof.
  induction all as [| a rest IH]; intros seen before x after Hall Hkeep Hout Hfirst.
  - destruct before; discriminate Hall.
  - cbn [firsts]. destruct before as [| b before]; cbn [app] in Hall;
      injection Hall as -> Hrest.
    + rewrite Hkeep. cbn [andb].
      destruct (existsb _ seen) eqn:Hseen; [| left; reflexivity].
      apply seen_spec in Hseen. contradiction.
    + destruct (keep b) eqn:Hb; cbn [andb].
      * destruct (existsb _ seen) eqn:Hseen; cbn [negb].
        -- eapply IH; eauto. intros y Hy. apply Hfirst. right. exact Hy.
        -- right. eapply IH; eauto.
           ++ intros Hin. apply in_app_or in Hin as [Hin | [Hin | []]]; [contradiction |].
              exact (Hfirst b (or_introl eq_refl) Hb Hin).
           ++ intros y Hy. apply Hfirst. right. exact Hy.
      * eapply IH; eauto. intros y Hy. apply Hfirst. right. exact Hy.
Qed.

End DedupeFacts.


(** *** The pool of places and its cache *)

(** X13: the pool [fetchGooglePlacesPool] fetches is the list of the
    first occurrences of the place ids in the answers of the six searches,
    taken in order: its place ids are pairwise different, it is a sublist
    of the concatenated answers, every place id of an answer is in it, and
    a place that no place with the same id precedes is in it. Places
    without an id share the id [""] and so at most one of them stays. *)
Theorem fetched_pool_is_deduplicated
    (search : string -> list GooglePlaceResult) (city : string) (w settled : pools) :
  (forall places ts,
     poolCache w !! normalize city = Some (places, ts) -> POOL_CACHE_TTL <= time w - ts) ->
  let all := concat (map search (pool_queries city)) in
  let places := fst (fetchGooglePlacesPool search city w settled) in
  NoDup (map placeId places)
  /\ sublist places all
  /\ (forall p, In p all -> In (placeId p) (map placeId places))
  /\ (forall before p after,
        all = (before ++ p :: after)%list ->
        (forall q, In q before -> placeId q <> placeId p) ->
        In p places).
Proof.
  intros Hstale all places.
  assert (Hplaces : places = firsts placeId (fun _ => true) [] all).
  { subst places. unfold fetchGooglePlacesPool. fold (normalize city).
    destruct (poolCache w !! normalize city) as [[cached ts] |] eqn:Hget;
      [| apply dedupe_by_firsts].
    specialize (Hstale cached ts eq_refl).
    destruct (Z.ltb_spec (time w - ts) POOL_CACHE_TTL); [lia |].
    apply dedupe_by_firsts. }
  rewrite Hplaces. split; [apply firsts_NoDup |]. split; [apply firsts_sublist |]. split.
  - intros p Hin.
    destruct (firsts_cover placeId (fun _ => true) all [] p Hin eq_refl) as [[] | H].
    exact H.
  - intros before p after Hall Hfirst.
    eapply firsts_first; eauto.
Qed.


(** Two calls for one city that both start before the searches of the first
    have returned both search, and the pool of the call that stores last is
    the one served afterwards. *)
Example overlapping_pools :
  let first := fetchGooglePlacesPool PlaceSamples.sample_search "Paris"
                 PlaceSamples.no_pools PlaceSamples.no_pools in
  let second := fetchGooglePlacesPool (fun _ => []) "Paris"
                  PlaceSamples.no_pools (snd first) in
  fst first = [PlaceSamples.louvre; PlaceSamples.tuileries]
  /\ fst second = []
  /\ searches (snd second) = 12%nat
  /\ fst (fetchGooglePlacesPool PlaceSamples.sample_search "Paris" (snd second) (snd second))
     = [].
Proof. vm_compute. repeat split; reflexivity. Qed.

(** *** The context of a city *)

Lemma context_pois_ok placeId cityLabel results :
  context_ok {| context_label := cityLabel; context_placeId := placeId;
                pois := context_pois results |}.
Proof.
  unfold context_ok, context_pois. cbn [pois].
  rewrite dedupe_by_firsts.
  set (keep := fun poi => non_empty (name poi) && (3 <=? len (name poi))).
  split; [apply firstn_le_length |]. split.
  - rewrite <- firstn_map.
    apply (sublist_NoDup _ (map poi_placeId (firsts poi_placeId keep [] (concat results))));
      [apply firsts_NoDup | apply sublist_take].
  - apply Forall_take.
    eapply Forall_impl; [apply (firsts_kept poi_placeId keep) |].
    intros poi [Hkeep _]. subst keep. cbn beta in Hkeep.
    apply andb_true_iff in Hkeep as [_ Hlen]. apply Z.leb_le. exact Hlen.
Qed.

(** X15: the contexts of cities are bounded. If every cached context
    has at most twenty places, with pairwise different place ids and names
    of three characters or more, then so has the context
    [getCityContext] returns, and so has every cached context
    afterwards; with or without an API key, from the cache or not. The
    cached contexts are those of the cache when the call starts and of the
    cache when its searches return, which other calls have stored in
    meanwhile. *)
Theorem city_contexts_are_bounded
    (apiKey : bool) (search : string -> list CityContextPOI)
    (placeId cityLabel : string) (w settled : contexts) :
  (forall key data ts, cityContextCache w !! key = Some (data, ts) -> context_ok data) ->
  (forall key data ts, cityContextCache settled !! key = Some (data, ts) -> context_ok data) ->
  context_ok (fst (getCityContext apiKey search placeId cityLabel w settled))
  /\ (forall key data ts,
        cityContextCache (snd (getCityContext apiKey search placeId cityLabel w settled))
          !! key = Some (data, ts) ->
        context_ok data).
Proof.
  intros Hok Hsettled. unfold getCityContext.
  assert (Hfetch :
    forall r,
      r = (if negb apiKey
           then ({| context_label := cityLabel; context_placeId := placeId; pois := [] |}, w)
           else
             ({| context_label := cityLabel; context_placeId := placeId;
                 pois := context_pois (map search (context_queries cityLabel)) |},
              {| cityContextCache :=
                   <[placeId := ({| context_label := cityLabel; context_placeId := placeId;
                                    pois := context_pois
                                              (map search (context_queries cityLabel)) |},
                                 context_time settled)]> (cityContextCache settled);
                 context_time := context_time settled;
                 context_searches :=
                   context_searches settled + length (context_queries cityLabel) |})) ->
      context_ok (fst r)
      /\ (forall key data ts,
            cityContextCache (snd r) !! key = Some (data, ts) -> context_ok data)).
  { intros r ->. destruct apiKey; cbn [negb fst snd].
    - split; [apply context_pois_ok |].
      intros key data ts. cbn [cityContextCache].
      destruct (decide (placeId = key)) as [-> | Hne].
      + rewrite lookup_insert_eq. intros [= <- _]. apply context_pois_ok.
      + rewrite lookup_insert_ne by exact Hne. apply Hsettled.
    - split; [| exact Hok].
      unfold context_ok. cbn [pois length map].
      split; [lia |]. split; constructor. }
  destruct (cityContextCache w !! placeId) as [[data ts] |] eqn:Hget;
    [| apply Hfetch; reflexivity].
  destruct (context_time w - ts <? CITY_CACHE_TTL); [| apply Hfetch; reflexivity].
  cbn [fst snd]. split; [exact (Hok _ _ _ Hget) | exact Hok].
Qed.

End PlacesFacts.

(** ** The suggestions handler *)

Module SuggestFacts.
Import Str JS Suggestions Suggest SuggestionsFacts.

Lemma filter_sublist {A} (f : A -> bool) (l : list A) : sublist (List.filter f l) l.
Proof.
  induction l as [| x l IH]; cbn [List.filter]; [constructor |].
  destruct (f x); [apply sublist_skip | apply sublist_cons]; exact IH.
Qed.

Lemma sublist_In {A} (l k : list A) (x : A) : sublist l k -> In x l -> In x k.
Proof.
  intros Hsub Hin. apply list_elem_of_In. apply list_elem_of_In in Hin.
  exact (elem_of_sublist _ _ _ Hin Hsub).
Qed.

Lemma filter_seen_sublist titleSet placeIdSet (l : list value) : forall seen,
  sublist (filter_seen titleSet placeIdSet seen l) l.
Proof.
  induction l as [| s l IH]; intros seen; cbn [filter_seen]; [constructor |].
  destruct (catch (suggestion_checks titleSet placeIdSet seen s) (false, seen))
    as [keep seen'].
  destruct keep; [apply sublist_skip | apply sublist_cons]; apply IH.
Qed.

(** The filter of [validateSuggestions] on the images of a list. *)
Lemma filter_seen_map {A} (f : A -> value) titleSet placeIdSet (l : list A) : forall seen,
  exists served,
    sublist served l
    /\ filter_seen titleSet placeIdSet seen (map f l) = map f served.
Proof.
  induction l as [| x l IH]; intros seen; cbn [map filter_seen].
  - exists []. split; [constructor | reflexivity].
  - destruct (catch (suggestion_checks titleSet placeIdSet seen (f x)) (false, seen))
      as [keep seen'].
    destruct (IH seen') as (served & Hsub & ->).
    destruct keep.
    + exists (x :: served). split; [apply sublist_skip; exact Hsub | reflexivity].
    + exists served. split; [apply sublist_cons; exact Hsub | reflexivity].
Qed.

Lemma Forall2_In_l {A B} (R : A -> B -> Prop) (l : list A) (k : list B) (x : A) :
  Forall2 R l k -> In x l -> exists y, In y k /\ R x y.
Proof.
  induction 1 as [| a b l k Hab _ IH]; intros Hin; [destruct Hin |].
  destruct Hin as [<- | Hin].
  - exists b. split; [left; reflexivity | exact Hab].
  - destruct (IH Hin) as (y & Hy & Hxy). exists y. split; [right; exact Hy | exact Hxy].
Qed.

Section HandlerFacts.

Variable haversineKm : Q -> Q -> Q -> Q -> option Q.
Variable popularity : GooglePlaceResult -> Q.

Lemma scored_spec hotelCoords pool p :
  In p (scored haversineKm popularity hotelCoords pool) ->
  In (place p) pool
  /\ match hotelCoords with
     | Some _ => exists distKm, distanceKm p = Some distKm /\ (distKm <= 100)%Q
     | None => distanceKm p = None
     end.
Proof.
  unfold scored. destruct hotelCoords as [coords |].
  - rewrite in_flat_map. intros (q & Hq & Hin).
    destruct (Geocode.lat coords) as [hotelLat |]; [| destruct Hin].
    destruct (Geocode.lng coords) as [hotelLng |]; [| destruct Hin].
    destruct (haversineKm hotelLat hotelLng (lat q) (lng q)) as [distKm |]; [| destruct Hin].
    destruct (Qle_bool distKm 100) eqn:Hle; [| destruct Hin].
    destruct Hin as [<- | []]. cbn [place distanceKm].
    split; [exact Hq |]. exists distKm. split; [reflexivity |].
    apply Qle_bool_iff. exact Hle.
  - rewrite in_map_iff. intros (q & <- & Hq). cbn [place distanceKm]. auto.
Qed.

Lemma is_available_spec excludeTitles excludePids p :
  is_available (titleSet_of excludeTitles) (placeIdSet_of excludePids) p = true ->
  (forall t, In t excludeTitles -> normalize t <> normalize (title (place p)))
  /\ (placeId (place p) <> EmptyString -> ~ In (placeId (place p)) excludePids).
Proof.
  unfold is_available.
  destruct (bool_decide _) eqn:Ht; [discriminate |].
  apply bool_decide_eq_false in Ht.
  destruct (non_empty (placeId (place p)) && bool_decide _) eqn:Hp; [discriminate |].
  intros _. split.
  - intros t Hin Heq. apply Ht, titleSet_of_spec. exists t. auto.
  - intros Hne Hin.
    assert (Hmem : placeId (place p) ∈ placeIdSet_of excludePids)
      by (apply placeIdSet_of_spec; auto).
    rewrite (bool_decide_eq_true_2 _ Hmem), andb_true_r in Hp.
    unfold non_empty in Hp. apply negb_false_iff, String.eqb_eq in Hp. contradiction.
Qed.

Lemma available_served hotelCoords pool excludeTitles excludePids p :
  In p (available haversineKm popularity hotelCoords pool excludeTitles excludePids) ->
  served_from hotelCoords pool excludeTitles excludePids p.
Proof.
  unfold available. rewrite filter_In. intros [Hin Hav].
  apply is_available_spec in Hav as [Ht Hp].
  assert (Hscored : In p (scored haversineKm popularity hotelCoords pool)).
  { apply list_elem_of_In. apply list_elem_of_In in Hin.
    unfold rank in Hin. rewrite RankingFacts.sort_by_Permutation in Hin. exact Hin. }
  apply scored_spec in Hscored as [Hpool Hdist].
  repeat split; assumption.
Qed.

Lemma suggestion_title enrichmentCache now p :
  get_prop (suggestion_of enrichmentCache now p) "title" = Return (VStr (title (place p))).
Proof. reflexivity. Qed.

Lemma kept_titles enrichmentCache now titleSet placeIdSet served : forall titles,
  Forall2 (kept_entry titleSet placeIdSet)
          (map (suggestion_of enrichmentCache now) served) titles ->
  titles = map (fun p => title (place p)) served.
Proof.
  induction served as [| p served IH]; intros titles Hall; cbn [map] in Hall;
    inversion Hall as [| s t ss ts Hs Hrest]; subst; [reflexivity |].
  cbn [map]. f_equal; [| apply IH; exact Hrest].
  destruct Hs as [Ht _]. rewrite suggestion_title in Ht. injection Ht as ->. reflexivity.
Qed.

End HandlerFacts.

(** X16: suggestions from the pool. When a place of the pool is
    available, the answer of [POST /api/suggestions/generate] holds at
    most five suggestions, made of places of the pool in the order of the
    ranking; each is within 100 km of the hotel when one was located, has
    a title outside the excluded titles (lowered and trimmed) and a place
    id outside the excluded ids; and their lowered and trimmed titles are
    pairwise different. No curated place is served. *)
Theorem suggestions_come_from_the_pool
    (haversineKm : Q -> Q -> Q -> Q -> option Q) (popularity : GooglePlaceResult -> Q)
    (city : string) (hotelCoords : option Geocode.coords) (pool : list GooglePlaceResult)
    (excludeTitles excludePids : list string)
    (enrichmentCache : gmap string enrichment) (now : Z) :
  available haversineKm popularity hotelCoords pool excludeTitles excludePids <> [] ->
  exists served,
    suggest haversineKm popularity city hotelCoords pool excludeTitles excludePids
      enrichmentCache now
    = suggestions_json (map (suggestion_of enrichmentCache now) served)
    /\ (length served <= 5)%nat
    /\ sublist served (rank (scored haversineKm popularity hotelCoords pool))
    /\ Forall (served_from hotelCoords pool excludeTitles excludePids) served
    /\ NoDup (map (fun p => normalize (title (place p))) served).
Proof.
  intros Hsome. unfold suggest.
  set (avail := available haversineKm popularity hotelCoords pool excludeTitles excludePids)
    in *.
  assert (Hpool : (length pool =? 0)%nat = false).
  { destruct pool as [| p pool]; [| reflexivity].
    exfalso. apply Hsome. subst avail. unfold available, scored.
    destruct hotelCoords; reflexivity. }
  rewrite Hpool.
  assert (Hbatch : (length (firstn 5 avail) =? 0)%nat = false).
  { destruct avail as [| p rest]; [contradiction | reflexivity]. }
  rewrite Hbatch. unfold validateSuggestions.
  destruct (filter_seen_map (suggestion_of enrichmentCache now)
              (titleSet_of excludeTitles) (placeIdSet_of excludePids)
              (firstn 5 avail) ∅) as (served & Hsub & Hrun).
  exists served. split; [rewrite Hrun; reflexivity |].
  assert (Havail : sublist served avail)
    by (etransitivity; [exact Hsub | apply sublist_take]).
  split.
  { apply sublist_length in Hsub. pose proof (firstn_le_length 5 avail). lia. }
  split.
  { etransitivity; [exact Havail |]. subst avail. unfold available. apply filter_sublist. }
  split.
  { apply Forall_forall. intros p Hp. apply list_elem_of_In in Hp.
    eapply available_served. eapply sublist_In; [exact Havail | exact Hp]. }
  destruct (filter_seen_spec (titleSet_of excludeTitles) (placeIdSet_of excludePids)
              (map (suggestion_of enrichmentCache now) (firstn 5 avail)))
    with (seen := (∅ : gset string)) as (titles & Hall & Hnd & _).
  { rewrite placeIdSet_of_spec. intros [_ Hne]. apply Hne. reflexivity. }
  rewrite Hrun in Hall. apply kept_titles in Hall. subst titles.
  rewrite map_map in Hnd. exact Hnd.
Qed.

(** X17: when no place of the pool is available (the pool is empty, or
    all its places are excluded or out of reach), the answer holds at most
    five of the curated places of the city, in their order, none with an
    excluded title; for a city without curated places it is empty. *)
Theorem suggestions_fall_back_to_the_curated_places
    (haversineKm : Q -> Q -> Q -> Q -> option Q) (popularity : GooglePlaceResult -> Q)
    (city : string) (hotelCoords : option Geocode.coords) (pool : list GooglePlaceResult)
    (excludeTitles excludePids : list string)
    (enrichmentCache : gmap string enrichment) (now : Z) :
  available haversineKm popularity hotelCoords pool excludeTitles excludePids = [] ->
  exists suggestions,
    suggest haversineKm popularity city hotelCoords pool excludeTitles excludePids
      enrichmentCache now
    = suggestions_json suggestions
    /\ (length suggestions <= 5)%nat
    /\ sublist suggestions (getCuratedFallback city)
    /\ (forall s t, In s suggestions -> get_prop s "title" = Return (VStr t) ->
        forall x, In x excludeTitles -> normalize x <> normalize t).
Proof.
  intros Hnone.
  exists (firstn 5 (validateSuggestions (getCuratedFallback city) excludeTitles excludePids)).
  split.
  { unfold suggest. rewrite Hnone. cbn [firstn length Nat.eqb].
    destruct (length pool =? 0)%nat; reflexivity. }
  split; [apply firstn_le_length |]. split.
  { etransitivity; [apply sublist_take |]. apply filter_seen_sublist. }
  intros s t Hin Htitle x Hx Heq.
  assert (Hs : In s (validateSuggestions (getCuratedFallback city) excludeTitles excludePids))
    by (eapply sublist_In; [apply sublist_take | exact Hin]).
  unfold validateSuggestions in Hs.
  destruct (filter_seen_spec (titleSet_of excludeTitles) (placeIdSet_of excludePids)
              (getCuratedFallback city))
    with (seen := (∅ : gset string)) as (titles & Hall & _ & _).
  { rewrite placeIdSet_of_spec. intros [_ Hne]. apply Hne. reflexivity. }
  destruct (Forall2_In_l _ _ _ s Hall Hs) as (t' & _ & Ht' & _ & _ & _ & Hout & _).
  rewrite Htitle in Ht'. injection Ht' as <-.
  apply Hout, titleSet_of_spec. exists x. auto.
Qed.

End SuggestFacts.

(** ** The enrichment of a place *)

Module EnrichFacts.
Import Str JS FunFact Parse Suggestions Suggest Enrich.

Section HandlerFacts.

Variable JSON_parse : string -> result value.
Variable less_than_10 : value -> bool.

Lemma generic_description_truthy category city :
  truthy (VStr (generic_description category city)) = true.
Proof. reflexivity. Qed.

(** Only a text is found valid. *)
Lemma isValidFunFact_of_true fact :
  isValidFunFact_of less_than_10 fact = Return true ->
  exists s, fact = VStr s /\ isValidFunFact s = true.
Proof.
  destruct fact as [| | b | x | s | elems | fields]; cbn [isValidFunFact_of];
    try discriminate.
  - intros [= H]. exists s. auto.
  - destruct (_ <? _); discriminate.
  - destruct (less_than_10 _); discriminate.
Qed.

(** The outcomes of the [try] block. *)
Lemma enrich_try_inv rq reply now later cache settled answer cache' :
  non_empty (name rq) = true -> non_empty (city rq) = true ->
  enrich_try JSON_parse less_than_10 rq reply now later cache settled
  = Return (answer, cache') ->
  let key := or_default (placeId rq) EmptyString in
  (exists entry,
     non_empty key = true /\ cache !! key = Some entry
     /\ now - enriched_at entry < ENRICHMENT_CACHE_TTL
     /\ answer = enriched_json rq (description entry) (funFact entry)
     /\ cache' = cache)
  \/ (exists d f,
        answer = enriched_json rq d f
        /\ truthy d = true /\ shown_fact f
        /\ cache' = if non_empty key
                    then <[key := {| description := d; funFact := f;
                                     enriched_at := later |}]> settled
                    else settled).
Proof.
  intros Hname Hcity. unfold enrich_try. rewrite Hname, Hcity. cbn [negb orb].
  set (key := or_default (placeId rq) EmptyString).
  assert (Hmiss :
    rbind reply (fun content =>
      rbind (safeJsonParse JSON_parse content) (fun parsed =>
        let description :=
          or_else (get_prop_opt parsed "description")
                  (VStr (generic_description (category rq) (city rq))) in
        let given := get_prop_opt parsed "funFact" in
        rbind (if truthy given then isValidFunFact_of less_than_10 given else Return false)
          (fun valid =>
             let funFact := if valid then given else VStr EmptyString in
             Return
               (enriched_json rq description funFact,
                if non_empty key
                then <[key := {| description := description; funFact := funFact;
                                 enriched_at := later |}]> settled
                else settled))))
    = Return (answer, cache') ->
    exists d f,
      answer = enriched_json rq d f
      /\ truthy d = true /\ shown_fact f
      /\ cache' = if non_empty key
                  then <[key := {| description := d; funFact := f;
                                   enriched_at := later |}]> settled
                  else settled).
  { destruct reply as [content |]; [| discriminate]. cbn [rbind].
    destruct (safeJsonParse JSON_parse content) as [parsed |]; [| discriminate].
    cbn [rbind]. cbv zeta.
    set (d := or_else _ _). set (given := get_prop_opt parsed "funFact").
    assert (Hd : truthy d = true).
    { subst d. unfold or_else.
      destruct (truthy (get_prop_opt parsed "description")) eqn:Ht; [exact Ht |].
      apply generic_description_truthy. }
    destruct (truthy given) eqn:Hgiven.
    - destruct (isValidFunFact_of less_than_10 given) as [valid |] eqn:Hvalid;
        [| discriminate].
      cbn [rbind]. intros [= <- <-].
      exists d, (if valid then given else VStr EmptyString).
      split; [reflexivity |]. split; [exact Hd |]. split; [| reflexivity].
      destruct valid.
      + apply isValidFunFact_of_true in Hvalid as (s & -> & Hs). exists s. auto.
      + exists EmptyString. auto.
    - cbn [rbind]. intros [= <- <-].
      exists d, (VStr EmptyString).
      split; [reflexivity |]. split; [exact Hd |]. split; [| reflexivity].
      exists EmptyString. auto. }
  destruct (non_empty key) eqn:Hkey.
  - destruct (cache !! key) as [entry |] eqn:Hget; [| intros H; right; exact (Hmiss H)].
    destruct (Z.ltb_spec (now - enriched_at entry) ENRICHMENT_CACHE_TTL) as [Hfresh | _];
      [| intros H; right; exact (Hmiss H)].
    intros [= <- <-]. left. exists entry. auto 6.
  - intros H. right. exact (Hmiss H).
Qed.

End HandlerFacts.


(** X19: a fresh enrichment is served without the model. When the cache
    holds an entry for the place id of the request that is younger than
    thirty days, the answer carries its description and its fun fact and
    the cache stays as it is, whatever the call of the model would
    give. *)
Theorem fresh_enrichment_is_served_without_the_model
    (JSON_parse : string -> result value) (less_than_10 : value -> bool)
    (rq : enrich_request) (reply : result string) (now later : Z)
    (enrichmentCache settled : gmap string enrichment) (p : string) (entry : enrichment) :
  non_empty (name rq) = true -> non_empty (city rq) = true ->
  placeId rq = Some p -> p <> EmptyString ->
  enrichmentCache !! p = Some entry ->
  now - enriched_at entry < ENRICHMENT_CACHE_TTL ->
  enrich JSON_parse less_than_10 rq reply now later enrichmentCache settled
  = (enriched_json rq (description entry) (funFact entry), enrichmentCache).
Proof.
  intros Hname Hcity Hp Hne Hget Hfresh.
  unfold enrich, enrich_try. rewrite Hname, Hcity, Hp. cbn [negb orb or_default].
  assert (Hkey : non_empty p = true).
  { unfold non_empty. destruct (String.eqb_spec p EmptyString); [contradiction | reflexivity]. }
  cbv zeta. repeat (rewrite Hkey; cbv iota). rewrite Hget. cbv iota.
  apply Z.ltb_lt in Hfresh. rewrite Hfresh. reflexivity.
Qed.

(** X20: an enrichment reaches the suggestions. After the [try] block of
    the enrichment answered for a place id, the cache it leaves holds an
    entry for this id with the description and the fun fact of the answer;
    and a suggestion made for a place with this id on a later cache that
    still holds this entry, while the entry is fresh, is marked [enriched]
    and carries that description and that fun fact. The later cache holds
    the entry unless another enrichment of the same place, which was
    waiting for the model, has stored its own answer since. *)
Theorem enrichment_reaches_the_suggestions
    (JSON_parse : string -> result value) (less_than_10 : value -> bool)
    (rq : enrich_request) (reply : result string) (now later : Z)
    (enrichmentCache settled cache' laterCache : gmap string enrichment)
    (answer : response) (p : string) (suggested : Ranked) (now' : Z) :
  non_empty (name rq) = true -> non_empty (city rq) = true ->
  placeId rq = Some p -> p <> EmptyString ->
  enrich_try JSON_parse less_than_10 rq reply now later enrichmentCache settled
  = Return (answer, cache') ->
  Suggestions.placeId (place suggested) = p ->
  laterCache !! p = cache' !! p ->
  (forall entry, laterCache !! p = Some entry ->
                 now' - enriched_at entry < ENRICHMENT_CACHE_TTL) ->
  exists d f,
    answer = enriched_json rq d f
    /\ (exists ts, cache' !! p = Some {| description := d; funFact := f; enriched_at := ts |})
    /\ get_prop (suggestion_of laterCache now' suggested) "description" = Return d
    /\ get_prop (suggestion_of laterCache now' suggested) "funFact" = Return f
    /\ get_prop (suggestion_of laterCache now' suggested) "enriched" = Return (VBool true).
Proof.
  intros Hname Hcity Hp Hne Htry Hplace Hsame Hfresh.
  assert (Hkey : non_empty p = true).
  { unfold non_empty. destruct (String.eqb_spec p EmptyString); [contradiction | reflexivity]. }
  apply enrich_try_inv in Htry; [| assumption | assumption].
  rewrite Hp in Htry. cbn [or_default] in Htry. cbv zeta in Htry.
  repeat (rewrite Hkey in Htry; cbv iota in Htry).
  assert (Hentry : exists entry,
            cache' !! p = Some entry
            /\ answer = enriched_json rq (description entry) (funFact entry)).
  { destruct Htry as [(entry & _ & Hget & _ & -> & ->) | (d & f & -> & _ & _ & ->)].
    - exists entry. auto.
    - eexists. rewrite lookup_insert_eq. split; reflexivity. }
  destruct Hentry as (entry & Hget & ->).
  exists (description entry), (funFact entry). split; [reflexivity |].
  split; [exists (enriched_at entry); rewrite Hget; destruct entry; reflexivity |].
  rewrite <- Hsame in Hget.
  specialize (Hfresh entry Hget). apply Z.ltb_lt in Hfresh.
  unfold suggestion_of. rewrite Hplace, Hget, Hfresh. cbn. auto.
Qed.

(** Two enrichments of one place that both arrive before the model has
    answered both call the model, and the later store wins: suggestions
    made afterwards carry the description of the second answer. *)
Example overlapping_enrichments :
  let first := enrich EnrichSamples.parse_louvre EnrichSamples.never_less
                 EnrichSamples.louvre_request (Return EnrichSamples.louvre_reply)
                 2000 3000 ∅ ∅ in
  let second := enrich EnrichSamples.parse_louvre EnrichSamples.never_less
                  EnrichSamples.louvre_request (Return "{}") 2001 3001 ∅ (snd first) in
  let suggested := {| Suggestions.place := PlaceSamples.louvre; distanceKm := None;
                      popularityScore := 47 |} in
  get_prop (suggestion_of (snd first) 9000 suggested) "description"
  = Return (VStr EnrichSamples.louvre_description)
  /\ get_prop (suggestion_of (snd second) 9000 suggested) "description"
     = Return (VStr "A culture in Paris.").
Proof. vm_compute. split; reflexivity. Qed.

End EnrichFacts.

(** ** The geocoder of the suggestions, and the spots of a trip *)

Module GeocodeInternalFacts.
Import Str JS Geocode GeocodeInternal.

Section CachedFacts.

Variable parseFloat : value -> option Q.

Lemma segment_keeps cache seg key entry :
  cache !! key = Some entry ->
  exists entry', segment_step parseFloat cache seg !! key = Some entry'.
Proof.
  intros Hk. destruct seg as [address | address outcome]; cbn [segment_step]; [eauto |].
  unfold geocodeCached_store. cbn [snd].
  destruct (decide (trim (toLowerCase address) = key)) as [-> | Hne].
  - rewrite lookup_insert_eq. eauto.
  - rewrite lookup_insert_ne by exact Hne. eauto.
Qed.

Lemma segments_keep segs : forall cache key entry,
  cache !! key = Some entry ->
  exists entry', run_segments parseFloat cache segs !! key = Some entry'.
Proof.
  induction segs as [| seg segs IH]; intros cache key entry Hk; [eauto |].
  destruct (segment_keeps cache seg key entry Hk) as (entry1 & H1).
  exact (IH _ key entry1 H1).
Qed.

Lemma segments_frame segs : forall cache key,
  stores_not key segs -> run_segments parseFloat cache segs !! key = cache !! key.
Proof.
  induction segs as [| seg segs IH]; intros cache key Hnot; [reflexivity |].
  inversion Hnot as [| ? ? Hseg Hrest]; subst.
  cbn [run_segments fold_left]. change (fold_left (segment_step parseFloat) segs ?c)
    with (run_segments parseFloat c segs).
  rewrite (IH _ key Hrest).
  destruct seg as [address | address outcome]; cbn [segment_step]; [reflexivity |].
  unfold geocodeCached_store. cbn [snd]. apply lookup_insert_ne. exact Hseg.
Qed.

End CachedFacts.

(** X21: [geocodeCached] stores what it returns, failures included, and a
    stored address is never asked again. A call leaves what it returns in
    the cache under the lowered and trimmed address; when the provider was
    asked and the fetch threw, that is null. Once a key is stored, then
    after any pieces of overlapping calls (calls that start, calls that
    waited and store) the key is still stored, and a call for an address
    with this key returns the entry it finds, leaves the cache as it is and
    does not ask the provider. The entry is the one that was stored unless
    a call for the same key that was waiting has stored since: two calls
    that both missed both ask the provider, and the later store wins. *)
Theorem geocodeCached_never_asks_again
    (parseFloat : value -> option Q) (address : string) (outcome : result value)
    (geocodeInternalCache settled : gmap string (option coords)) (segs : list segment) :
  let '(found, cache, asked) :=
    geocodeCached parseFloat address outcome geocodeInternalCache settled in
  cache !! normalize address = Some found
  /\ (asked = true -> forall e, outcome = Throw e -> found = None)
  /\ (asked = true <-> geocodeInternalCache !! normalize address = None)
  /\ exists entry,
       run_segments parseFloat cache segs !! normalize address = Some entry
       /\ (stores_not (normalize address) segs -> entry = found)
       /\ forall address' outcome' settled',
            normalize address' = normalize address ->
            geocodeCached parseFloat address' outcome'
              (run_segments parseFloat cache segs) settled'
            = (entry, run_segments parseFloat cache segs, false).
Proof.
  unfold geocodeCached. fold (normalize address).
  assert (Hlater : forall cache found,
            cache !! normalize address = Some found ->
            exists entry,
              run_segments parseFloat cache segs !! normalize address = Some entry
              /\ (stores_not (normalize address) segs -> entry = found)
              /\ forall address' outcome' settled',
                   normalize address' = normalize address ->
                   match run_segments parseFloat cache segs !! trim (toLowerCase address') with
                   | Some entry0 => (entry0, run_segments parseFloat cache segs, false)
                   | None =>
                       let '(found0, cache0) :=
                         geocodeCached_store parseFloat (trim (toLowerCase address'))
                           outcome' settled' in
                       (found0, cache0, true)
                   end
                   = (entry, run_segments parseFloat cache segs, false)).
  { intros cache found Hk.
    destruct (segments_keep parseFloat segs cache _ found Hk) as (entry & He).
    exists entry. split; [exact He |]. split.
    - intros Hnot. rewrite (segments_frame parseFloat segs cache _ Hnot) in He. congruence.
    - intros address' outcome' settled' Hkey. fold (normalize address').
      rewrite Hkey, He. reflexivity. }
  destruct (geocodeInternalCache !! normalize address) as [entry |] eqn:Hget.
  - split; [exact Hget |]. split; [discriminate |].
    split; [split; discriminate |]. apply Hlater. exact Hget.
  - unfold geocodeCached_store at 1. cbv iota beta zeta.
    split; [apply lookup_insert_eq |].
    split; [intros _ e ->; reflexivity |].
    split; [split; reflexivity |]. apply Hlater. apply lookup_insert_eq.
Qed.

(** Two calls for one address that both start before the provider has
    answered both ask it, and the later store wins. *)
Example overlapping_calls_both_ask :
  let first := geocodeCached Samples.number_parseFloat "Atlantis"
                 (Return (VArr [])) ∅ ∅ in
  let second := geocodeCached Samples.number_parseFloat "Atlantis"
                  (Return (VArr [VObj [("lat", VNum 31); ("lon", VNum (-24))]]))
                  ∅ (snd (fst first)) in
  let found := Some {| lat := Some 31%Q; lng := Some (-24)%Q |} in
  fst first = (None, {[ "atlantis" := None ]})
  /\ snd first = true
  /\ fst (fst second) = found
  /\ snd second = true
  /\ snd (fst second) !! "atlantis" = Some found.
Proof. vm_compute. repeat split; reflexivity. Qed.

End GeocodeInternalFacts.

Module SpotsFacts.
Import Str JS Spots.

Lemma maxOrder_fold (existingSpots : list TripSpot) : forall start,
  start <= fold_left (fun max s => Z.max max (sortOrder s)) existingSpots start
  /\ Forall (fun s => sortOrder s
                      <= fold_left (fun max s => Z.max max (sortOrder s)) existingSpots start)
            existingSpots.
Proof.
  induction existingSpots as [| s rest IH]; intros start; cbn [fold_left].
  - split; [lia | constructor].
  - destruct (IH (Z.max start (sortOrder s))) as [Hle Hall].
    split; [lia |]. constructor; [lia | exact Hall].
Qed.

Lemma map_indexed_lookup {A B} (f : Z -> A -> B) (arr : list A) : forall idx i y,
  map_indexed f idx arr !! i = Some y ->
  exists x, arr !! i = Some x /\ y = f (idx + Z.of_nat i) x.
Proof.
  induction arr as [| a rest IH]; intros idx i y; cbn [map_indexed].
  - intros H. discriminate H.
  - destruct i as [| i]; cbn.
    + intros [= <-]. exists a. split; [reflexivity |]. f_equal. lia.
    + intros H. destruct (IH _ _ _ H) as (x & Hx & ->).
      exists x. split; [exact Hx |]. f_equal. lia.
Qed.

Lemma map_indexed_length {A B} (f : Z -> A -> B) (arr : list A) : forall idx,
  length (map_indexed f idx arr) = length arr.
Proof. induction arr; intros idx; cbn; [reflexivity | f_equal; auto]. Qed.

Lemma rfilter_sublist {A} (p : A -> result bool) (arr : list A) : forall kept,
  QuizAnswer.rfilter p arr = Return kept ->
  sublist kept arr /\ Forall (fun x => p x = Return true) kept
  /\ (forall x, In x arr -> p x = Return true -> In x kept).
Proof.
  induction arr as [| x rest IH]; intros kept; cbn [QuizAnswer.rfilter].
  - intros [= <-]. split; [constructor |]. split; [constructor |]. intros x [].
  - destruct (p x) as [keep |] eqn:Hx; [| discriminate].
    destruct (QuizAnswer.rfilter p rest) as [kept' |]; [| discriminate].
    cbn [rbind]. intros [= <-].
    destruct (IH kept' eq_refl) as (Hsub & Hall & Hin).
    destruct keep.
    + split; [apply sublist_skip; exact Hsub |]. split; [constructor; assumption |].
      intros y [<- | Hy] Hp; [left; reflexivity | right; auto].
    + split; [apply sublist_cons; exact Hsub |]. split; [exact Hall |].
      intros y [<- | Hy] Hp; [congruence | auto].
Qed.

(** X22: the spots [POST /api/trips/:id/spots] adds are numbered after
    the existing ones. There are at most as many as were posted; the
    [i]-th has the id of the trip and the sort order [maxOrder + 1 + i],
    which is not negative and greater than the sort order of every
    existing spot. *)
Theorem new_spots_are_numbered_after_the_existing
    (tripId : Z) (existingSpots : list TripSpot) (spots : list value)
    (newSpots : list NewSpot) :
  newSpots_of tripId existingSpots spots = Return newSpots ->
  (length newSpots <= length spots)%nat
  /\ (forall i s, newSpots !! i = Some s ->
        new_tripId s = tripId
        /\ new_sortOrder s = maxOrder_of existingSpots + 1 + Z.of_nat i
        /\ 0 <= new_sortOrder s
        /\ Forall (fun row => sortOrder row < new_sortOrder s) existingSpots).
Proof.
  unfold newSpots_of.
  destruct (QuizAnswer.rfilter _ spots) as [kept |] eqn:Hkept; [| discriminate].
  cbn [rbind]. intros [= <-].
  apply rfilter_sublist in Hkept as (Hsub & _ & _).
  split; [rewrite map_indexed_length; apply sublist_length; exact Hsub |].
  intros i s Hi. apply map_indexed_lookup in Hi as (x & _ & ->).
  cbn [new_tripId new_sortOrder new_spot].
  destruct (maxOrder_fold existingSpots (-1)) as [Hmin Hall].
  fold (maxOrder_of existingSpots) in Hmin, Hall.
  split; [reflexivity |]. split; [lia |]. split; [lia |].
  eapply Forall_impl; [exact Hall |]. cbn beta. intros row Hrow. lia.
Qed.

Lemma existingTitles_spec (existingSpots : list TripSpot) (k : string) :
  k ∈ existingTitles_of existingSpots
  <-> exists row, In row existingSpots /\ normalize (title row) = k.
Proof.
  unfold existingTitles_of. rewrite elem_of_list_to_set, list_elem_of_In, in_map_iff.
  split; intros (row & H1 & H2); exists row; (split; assumption).
Qed.

Lemma rfilter_none {A} (p : A -> result bool) (arr : list A) :
  Forall (fun x => p x = Return false) arr -> QuizAnswer.rfilter p arr = Return [].
Proof.
  induction 1 as [| x rest Hx _ IH]; cbn [QuizAnswer.rfilter]; [reflexivity |].
  rewrite Hx, IH. reflexivity.
Qed.

(** X23: spots that are stored are not added again. If a request whose
    spots all have a text as title added [newSpots], then for every later
    state of the trip that still holds the titles of the existing spots
    and holds the titles of [newSpots], the same request adds nothing. *)
Theorem stored_spots_are_not_added_again
    (tripId : Z) (existingSpots stored : list TripSpot) (spots : list value)
    (newSpots : list NewSpot) :
  Forall (fun s => exists text, get_prop s "title" = Return (VStr text)) spots ->
  newSpots_of tripId existingSpots spots = Return newSpots ->
  (forall row, In row existingSpots ->
     exists row', In row' stored /\ title row' = title row) ->
  (forall s, In s newSpots ->
     exists row', In row' stored /\ new_title s = VStr (title row')) ->
  newSpots_of tripId stored spots = Return [].
Proof.
  intros Htexts Hnew Hkept Hadded. unfold newSpots_of in *.
  destruct (QuizAnswer.rfilter _ spots) as [kept |] eqn:Hfilter; [| discriminate].
  cbn [rbind] in Hnew. injection Hnew as <-.
  apply rfilter_sublist in Hfilter as (_ & _ & Hin).
  rewrite rfilter_none; [reflexivity |].
  apply Forall_forall. intros s Hs. apply list_elem_of_In in Hs.
  destruct (QuizAnswerFacts.Forall_In _ _ Htexts s Hs) as (text & Htitle).
  unfold is_new, title_key. rewrite Htitle. cbn [rbind]. fold (normalize text).
  f_equal. apply negb_false_iff, bool_decide_eq_true_2, existingTitles_spec.
  destruct (decide (normalize text ∈ existingTitles_of existingSpots)) as [Hold | Hfresh].
  - apply existingTitles_spec in Hold as (row & Hrow & Hk).
    destruct (Hkept row Hrow) as (row' & Hrow' & Ht).
    exists row'. split; [exact Hrow' |]. rewrite Ht. exact Hk.
  - assert (Hnew : In s kept).
    { apply Hin; [exact Hs |]. unfold is_new, title_key. rewrite Htitle. cbn [rbind].
      fold (normalize text). rewrite (bool_decide_eq_false_2 _ Hfresh). reflexivity. }
    apply list_elem_of_In, list_elem_of_lookup in Hnew as (i & Hi).
    assert (Hsome : exists n, map_indexed (new_spot tripId (maxOrder_of existingSpots)) 0 kept
                              !! i = Some n /\ new_title n = VStr text).
    { clear - Hi Htitle. revert i Hi. generalize 0.
      induction kept as [| a rest IH]; intros idx i Hi; [discriminate Hi |].
      destruct i as [| i]; cbn in Hi.
      - injection Hi as ->. eexists. split; [reflexivity |].
        cbn [new_title new_spot]. unfold get_prop_opt. rewrite Htitle. reflexivity.
      - destruct (IH (idx + 1) i Hi) as (n & Hn & Ht). exists n. split; assumption. }
    destruct Hsome as (n & Hn & Ht).
    destruct (Hadded n) as (row' & Hrow' & Hrow't).
    { apply list_elem_of_In, list_elem_of_lookup. exists i. exact Hn. }
    exists row'. split; [exact Hrow' |]. rewrite Ht in Hrow't. injection Hrow't as ->.
    reflexivity.
Qed.

End SpotsFacts.

(** ** The label of a resolved city *)

Module ResolveFacts.
Import Str JS Places Resolve.

Lemma trimStart_idem s : trimStart (trimStart s) = trimStart s.
Proof.
  induction s as [| c r IH]; cbn [trimStart]; [reflexivity |].
  destruct (is_space c) eqn:Hc; [exact IH |].
  cbn [trimStart]. rewrite Hc. reflexivity.
Qed.

Lemma trimEnd_idem s : trimEnd (trimEnd s) = trimEnd s.
Proof.
  induction s as [| c r IH]; cbn [trimEnd]; [reflexivity |].
  destruct (trimEnd r) as [| c' r'] eqn:Hr.
  - destruct (is_space c) eqn:Hc; [reflexivity |].
    cbn [trimEnd]. rewrite Hc. reflexivity.
  - change (trimEnd (String c (String c' r'))) with
      (match trimEnd (String c' r') with
       | EmptyString => if is_space c then EmptyString else String c EmptyString
       | r'' => String c r''
       end).
    rewrite IH. reflexivity.
Qed.

(** A text that does not start with white space keeps its start when it
    is trimmed at the end. *)
Lemma trimStart_trimEnd s : trimStart s = s -> trimStart (trimEnd s) = trimEnd s.
Proof.
  destruct s as [| c r]; [reflexivity |].
  cbn [trimStart]. destruct (is_space c) eqn:Hc.
  - intros H. exfalso.
    assert (Hlen : (String.length (trimStart r) <= String.length r)%nat).
    { clear. induction r as [| a r IH]; cbn [trimStart]; [lia |].
      destruct (is_space a); cbn [String.length]; lia. }
    rewrite H in Hlen. cbn [String.length] in Hlen. lia.
  - intros _. cbn [trimEnd].
    destruct (trimEnd r); [rewrite Hc |]; cbn [trimStart]; rewrite Hc; reflexivity.
Qed.

Lemma trim_idem s : trim (trim s) = trim s.
Proof.
  unfold trim.
  rewrite (trimStart_trimEnd (trimStart s) (trimStart_idem s)).
  apply trimEnd_idem.
Qed.

Lemma split_on_String sep c rest :
  split_on sep (String c rest)
  = if Ascii.eqb c sep then EmptyString :: split_on sep rest
    else match split_on sep rest with
         | first :: others => String c first :: others
         | [] => [String c EmptyString]
         end.
Proof. reflexivity. Qed.

Lemma split_on_cons sep s : exists first others, split_on sep s = first :: others.
Proof.
  induction s as [| c r (first & others & IH)]; [cbn; eauto |].
  rewrite split_on_String.
  destruct (Ascii.eqb c sep); [eauto |]. rewrite IH. eauto.
Qed.

Lemma split_on_free sep s : free_of sep s = true -> split_on sep s = [s].
Proof.
  induction s as [| c r IH]; [reflexivity |].
  rewrite split_on_String. cbn [free_of].
  intros H. apply andb_true_iff in H as [Hc Hr].
  apply negb_true_iff in Hc. rewrite Hc, (IH Hr). reflexivity.
Qed.

Lemma split_on_app sep p rest :
  free_of sep p = true ->
  split_on sep (p ++ String sep rest) = p :: split_on sep rest.
Proof.
  induction p as [| c r IH]; cbn [free_of].
  - intros _. change (EmptyString ++ String sep rest)%string with (String sep rest).
    rewrite split_on_String, Ascii.eqb_refl. reflexivity.
  - change (String c r ++ String sep rest)%string with (String c (r ++ String sep rest)).
    rewrite split_on_String.
    intros H. apply andb_true_iff in H as [Hc Hr].
    apply negb_true_iff in Hc. rewrite Hc, (IH Hr). reflexivity.
Qed.

Lemma split_on_parts_free sep s : Forall (fun part => free_of sep part = true) (split_on sep s).
Proof.
  induction s as [| c r IH]; [repeat constructor |].
  rewrite split_on_String.
  destruct (Ascii.eqb c sep) eqn:Hc; [constructor; [reflexivity | exact IH] |].
  destruct (split_on sep r) as [| first others]; [repeat constructor; cbn; rewrite Hc; reflexivity |].
  inversion IH as [| ? ? Hfirst Hothers]; subst.
  constructor; [| exact Hothers]. cbn [free_of]. rewrite Hc, Hfirst. reflexivity.
Qed.

Lemma trimStart_free sep s : free_of sep s = true -> free_of sep (trimStart s) = true.
Proof.
  induction s as [| c r IH]; cbn [trimStart]; [reflexivity |].
  intros H. destruct (is_space c); [| exact H].
  cbn [free_of] in H. apply andb_true_iff in H as [_ Hr]. exact (IH Hr).
Qed.

Lemma trimEnd_free sep s : free_of sep s = true -> free_of sep (trimEnd s) = true.
Proof.
  induction s as [| c r IH]; cbn [trimEnd free_of]; [reflexivity |].
  intros H. apply andb_true_iff in H as [Hc Hr]. specialize (IH Hr).
  destruct (trimEnd r).
  - destruct (is_space c); [reflexivity |]. cbn [free_of]. rewrite Hc. reflexivity.
  - cbn [free_of] in *. rewrite Hc, IH. reflexivity.
Qed.

Lemma trim_free sep s : free_of sep s = true -> free_of sep (trim s) = true.
Proof. intros H. apply trimEnd_free, trimStart_free, H. Qed.

Lemma parts_free addr : Forall (fun part => free_of "," part = true) (parts_of addr).
Proof.
  unfold parts_of. apply Forall_map.
  eapply Forall_impl; [apply split_on_parts_free |].
  intros part. apply trim_free.
Qed.

(** The parts of a joined list, for parts without a comma: the parts
    themselves, each but the first behind a space. *)
Lemma split_on_join part parts :
  Forall (fun p => free_of "," p = true) (part :: parts) ->
  split_on "," (join ", " (part :: parts))
  = part :: map (fun p => (" " ++ p)%string) parts.
Proof.
  revert part. induction parts as [| q rest IH]; intros part Hall.
  - cbn [join map]. apply split_on_free.
    inversion Hall; assumption.
  - inversion Hall as [| ? ? Hpart Hrest]; subst.
    change (join ", " (part :: q :: rest))
      with (part ++ String "," (String " " (join ", " (q :: rest))))%string.
    rewrite split_on_app by exact Hpart. f_equal.
    rewrite split_on_String. cbn [Ascii.eqb Bool.eqb].
    rewrite (IH q Hrest). reflexivity.
Qed.

(** X24: the label [resolveCity] makes of an address keeps its short
    name. The first part of the label, trimmed, is the first part of the
    address, trimmed, so the queries [getCityContext] builds from the label
    are those of the address; and the label has at most three parts
    (for any address with a comma; an address without one is its own
    label). *)
Theorem the_label_keeps_the_short_name (addr : string) :
  shortName_of (cityLabel_of addr) = shortName_of addr
  /\ context_queries (cityLabel_of addr) = context_queries addr
  /\ (length (split_on "," (cityLabel_of addr)) <= 3)%nat.
Proof.
  assert (Hshort : shortName_of (cityLabel_of addr) = shortName_of addr
                   /\ (length (split_on "," (cityLabel_of addr)) <= 3)%nat).
  { unfold cityLabel_of.
    pose proof (parts_free addr) as Hfree.
    unfold shortName_of.
    destruct (split_on_cons "," addr) as (first & others & Hsplit).
    assert (Hparts : parts_of addr = trim first :: map trim others)
      by (unfold parts_of; rewrite Hsplit; reflexivity).
    rewrite Hparts in *. cbn [length].
    destruct others as [| second others]; cbn [map length Nat.leb].
    - rewrite Hsplit. cbn [length]. split; [reflexivity | lia].
    - set (kept := firstn (Nat.min (S (S (length (map trim others)))) 3)
                     (trim first :: trim second :: map trim others)).
      assert (Hkept : exists rest, kept = trim first :: rest /\ (length rest <= 2)%nat).
      { subst kept. destruct (map trim others) as [| third more];
          cbn [length Nat.min firstn]; rewrite ?Nat.min_0_r; cbn [firstn].
        - exists [trim second]. split; [reflexivity | cbn [length]; lia].
        - exists [trim second; third]. split; [reflexivity | cbn [length]; lia]. }
      destruct Hkept as (rest & Hk & Hlen).
      assert (Hall : Forall (fun p => free_of "," p = true) kept)
        by (subst kept; apply Forall_take; exact Hfree).
      rewrite Hk in *. rewrite split_on_join by exact Hall.
      cbn [nth length]. rewrite length_map, Hsplit. cbn [nth].
      split; [apply trim_idem | lia]. }
  destruct Hshort as [Hname Hlen].
  split; [exact Hname |]. split; [| exact Hlen].
  unfold context_queries. unfold shortName_of in Hname. rewrite Hname. reflexivity.
Qed.

End ResolveFacts.

(** ** The places of a text search *)

Module TextSearchFacts.
Import Str JS Suggestions Places Suggest TextSearch.
Import PlacesFacts SuggestFacts SuggestionsFacts.

Lemma places_of_named (places : list RawPlace) : Forall named (places_of places).
Proof.
  unfold places_of. apply Forall_map, Forall_forall. intros p Hp.
  apply list_elem_of_In, filter_In in Hp as [_ Hp].
  unfold is_named in Hp. unfold named, place_of. cbn [title category].
  destruct (displayName_text p) as [text |]; [| discriminate Hp].
  destruct (negb (non_empty text) || (len text <? 3)) eqn:Hshort; [discriminate Hp |].
  destruct (existsb _ GENERIC_NAMES) eqn:Hgeneric; [discriminate Hp |].
  apply orb_false_elim in Hshort as [_ Hlen]. apply Z.ltb_ge in Hlen.
  cbn [text_or_empty]. split; [exact Hlen |]. split.
  - intros Hin. apply not_true_iff_false in Hgeneric. apply Hgeneric.
    apply existsb_exists. exists (normalize text). split; [exact Hin |].
    apply String.eqb_refl.
  - apply mapGoogleCategory_in_categories.
Qed.

Lemma pool_named (answers : list (list RawPlace)) :
  Forall named (dedupe_by placeId (fun _ => true) (concat (map places_of answers))).
Proof.
  rewrite dedupe_by_firsts.
  assert (Hall : Forall named (concat (map places_of answers))).
  { apply Forall_concat, Forall_map, Forall_forall. intros places _. apply places_of_named. }
  apply Forall_forall. intros p Hp.
  rewrite Forall_forall in Hall. apply Hall.
  eapply elem_of_sublist; [exact Hp | apply firsts_sublist].
Qed.

Lemma named_truthy (p : GooglePlaceResult) :
  named p -> truthy (VStr (title p)) = true /\ truthy (VStr (category p)) = true.
Proof.
  intros (Hlen & _ & Hcat). split.
  - cbn [truthy]. revert Hlen. destruct (title p); [unfold len; cbn; lia | reflexivity].
  - cbn [In CATEGORIES] in Hcat.
    repeat (destruct Hcat as [<- | Hcat]; [reflexivity |]). destruct Hcat.
Qed.

(** X25: the best available place is suggested first. For a pool made
    of answers of the text search, and a cache of enrichments with
    descriptions that are not empty, the first suggestion of the answer is
    the first available place of the ranking: the second validation never
    drops it, so the answer is not empty when a place is available. *)
Theorem the_best_available_place_is_suggested
    (haversineKm : Q -> Q -> Q -> Q -> option Q) (popularity : GooglePlaceResult -> Q)
    (city : string) (hotelCoords : option Geocode.coords)
    (answers : list (list RawPlace)) (excludeTitles excludePids : list string)
    (enrichmentCache : gmap string enrichment) (now : Z)
    (best : Ranked) (others : list Ranked) :
  let pool := dedupe_by placeId (fun _ => true) (concat (map places_of answers)) in
  (forall key entry, enrichmentCache !! key = Some entry -> Enrich.enrichment_ok entry) ->
  available haversineKm popularity hotelCoords pool excludeTitles excludePids
  = best :: others ->
  exists rest,
    suggest haversineKm popularity city hotelCoords pool excludeTitles excludePids
      enrichmentCache now
    = suggestions_json (suggestion_of enrichmentCache now best :: rest).
Proof.
  intros pool Hcache Havail.
  assert (Hin : In best (available haversineKm popularity hotelCoords pool
                           excludeTitles excludePids))
    by (rewrite Havail; left; reflexivity).
  pose proof (available_served haversineKm popularity _ _ _ _ _ Hin) as (Hpool & _).
  assert (Hnamed : named (place best)).
  { pose proof (pool_named answers) as Hall. rewrite Forall_forall in Hall.
    apply Hall, list_elem_of_In. exact Hpool. }
  apply named_truthy in Hnamed as [Htitle Hcategory].
  unfold available in Hin. apply filter_In in Hin as [_ Hav].
  unfold suggest.
  assert (Hsome : (length pool =? 0)%nat = false).
  { destruct pool; [destruct Hpool | reflexivity]. }
  rewrite Hsome, Havail. cbn [firstn length Nat.eqb map].
  unfold validateSuggestions. cbn [filter_seen].
  assert (Hcheck :
    catch (suggestion_checks (titleSet_of excludeTitles) (placeIdSet_of excludePids) ∅
             (suggestion_of enrichmentCache now best)) (false, ∅)
    = (true, {[normalize (title (place best))]} ∪ ∅)).
  { unfold is_available in Hav.
    destruct (bool_decide (normalize (title (place best)) ∈ titleSet_of excludeTitles))
      eqn:Ht; [discriminate Hav |].
    destruct (non_empty (placeId (place best))
              && bool_decide (placeId (place best) ∈ placeIdSet_of excludePids))
      eqn:Hp; [discriminate Hav |].
    assert (Hloading : truthy (VStr LOADING_DETAILS) = true) by reflexivity.
    unfold suggestion_checks, suggestion_of. cbv zeta.
    destruct (enrichmentCache !! placeId (place best)) as [entry |] eqn:Hget;
      [pose proof (proj1 (Hcache _ _ Hget)) as Hdesc;
       destruct (now - enriched_at entry <? ENRICHMENT_CACHE_TTL) |];
      cbn [get_prop lookup_field String.eqb Ascii.eqb Bool.eqb rbind];
      rewrite Htitle, Hcategory, ?Hdesc, ?Hloading;
      cbn [negb orb call_toLowerCase rbind];
      fold (normalize (title (place best))); rewrite Ht;
      rewrite bool_decide_eq_false_2 by set_solver;
      cbn [orb truthy has]; fold (non_empty (placeId (place best)));
      rewrite Hp; reflexivity. }
  rewrite Hcheck. eexists. reflexivity.
Qed.

End TextSearchFacts.

(** ** References to places in questions *)

Module ReferenceFacts.
Import Str JS Validators StrFacts.

Lemma count_references_bounds (names : list string) (questions : list value) :
  forall count n,
    count_references names questions count = Return n ->
    count <= n <= count + Z.of_nat (length questions)
    /\ (names = [] -> n = count)
    /\ (In EmptyString names -> n = count + Z.of_nat (length questions)).
Proof.
  induction questions as [| q rest IH]; intros count n; cbn [count_references length].
  - intros [= <-]. repeat split; lia.
  - destruct (all_text q) as [allText |]; [| discriminate]. cbn [rbind].
    destruct (existsb _ names) eqn:Hany; intros Hrest;
      destruct (IH _ _ Hrest) as (Hbounds & Hnone & Hall).
    + split; [lia |]. split.
      * intros ->. discriminate Hany.
      * intros Hin. rewrite (Hall Hin). lia.
    + split; [lia |]. split.
      * intros Hnil. rewrite (Hnone Hnil). reflexivity.
      * intros Hin. exfalso. apply not_true_iff_false in Hany. apply Hany.
        apply existsb_exists. exists EmptyString. split; [exact Hin |].
        apply includes_empty.
Qed.

(** X26: [countPOIReferences] counts questions. When it returns, the
    count is between 0 and the number of questions; it is 0 without names,
    and the number of questions when one of the names is the empty
    text, which every question holds. *)
Theorem countPOIReferences_counts_questions
    (questions : list value) (poiNames : list string) (n : Z) :
  countPOIReferences questions poiNames = Return n ->
  0 <= n <= Z.of_nat (length questions)
  /\ (poiNames = [] -> n = 0)
  /\ (In EmptyString poiNames -> n = Z.of_nat (length questions)).
Proof.
  unfold countPOIReferences. intros H.
  destruct (count_references_bounds _ _ _ _ H) as (Hbounds & Hnone & Hall).
  split; [lia |]. split.
  - intros ->. apply Hnone. reflexivity.
  - intros Hin. rewrite Hall; [lia |].
    apply in_map_iff. exists EmptyString. split; [reflexivity | exact Hin].
Qed.

End ReferenceFacts.

(** ** The theorems above, on the sample inputs *)

Module PlaceWitnesses.
Import Str JS Suggestions Places Suggest.
Import Samples PlaceSamples.
Import PlacesFacts SuggestFacts.

Lemma no_fresh_pool (city : string) :
  forall places ts,
    poolCache no_pools !! normalize city = Some (places, ts) ->
    POOL_CACHE_TTL <= time no_pools - ts.
Proof. intros places ts H. cbn in H. rewrite lookup_empty in H. discriminate H. Qed.

Lemma mapGoogleCategory_reads_the_set_of_tags_witness :
  mapGoogleCategory ["park"; "museum"] = mapGoogleCategory ["museum"; "park"; "museum"]
  /\ In (mapGoogleCategory ["park"; "museum"]) CATEGORIES.
Proof.
  apply (mapGoogleCategory_reads_the_set_of_tags ["park"; "museum"]
           ["museum"; "park"; "museum"]).
  intros t. cbn [In]. tauto.
Defined.

Lemma fetched_pool_is_deduplicated_witness :
  let all := concat (map sample_search (pool_queries "Paris")) in
  let places := fst (fetchGooglePlacesPool sample_search "Paris" no_pools busy_pools) in
  NoDup (map placeId places)
  /\ sublist places all
  /\ (forall p, In p all -> In (placeId p) (map placeId places))
  /\ (forall before p after,
        all = (before ++ p :: after)%list ->
        (forall q, In q before -> placeId q <> placeId p) ->
        In p places).
Proof.
  exact (fetched_pool_is_deduplicated sample_search "Paris" no_pools busy_pools
           (no_fresh_pool "Paris")).
Defined.


Lemma no_contexts_ok :
  forall key data ts, cityContextCache no_contexts !! key = Some (data, ts) -> context_ok data.
Proof. intros key data ts H. cbn in H. rewrite lookup_empty in H. discriminate H. Qed.

Lemma busy_contexts_ok :
  forall key data ts,
    cityContextCache busy_contexts !! key = Some (data, ts) -> context_ok data.
Proof.
  intros key data ts H. cbn [cityContextCache busy_contexts] in H.
  apply lookup_singleton_Some in H as [_ [= <- _]].
  unfold context_ok, lyon_context. cbn [pois length map].
  split; [lia |]. split.
  - apply NoDup_singleton.
  - constructor; [vm_compute; discriminate | constructor].
Qed.

Lemma city_contexts_are_bounded_witness :
  context_ok (fst (getCityContext true sample_context_search
                     "ChIJD7fiBh9u5kcRYJSMaMOCCwQ" "Paris, France"
                     no_contexts busy_contexts))
  /\ (forall key data ts,
        cityContextCache
          (snd (getCityContext true sample_context_search
                  "ChIJD7fiBh9u5kcRYJSMaMOCCwQ" "Paris, France"
                  no_contexts busy_contexts))
          !! key = Some (data, ts) ->
        context_ok data).
Proof.
  exact (city_contexts_are_bounded true sample_context_search
           "ChIJD7fiBh9u5kcRYJSMaMOCCwQ" "Paris, France" no_contexts busy_contexts
           no_contexts_ok busy_contexts_ok).
Defined.

Lemma paris_available :
  available flat_distance by_rating None paris_pool ["Eiffel Tower"] [] <> [].
Proof. vm_compute. discriminate. Qed.

Lemma suggestions_come_from_the_pool_witness :
  exists served,
    suggest flat_distance by_rating "Paris" None paris_pool ["Eiffel Tower"] [] ∅ 5000
    = suggestions_json (map (suggestion_of ∅ 5000) served)
    /\ (length served <= 5)%nat
    /\ sublist served (rank (scored flat_distance by_rating None paris_pool))
    /\ Forall (served_from None paris_pool ["Eiffel Tower"] []) served
    /\ NoDup (map (fun p => normalize (title (Suggestions.place p))) served).
Proof.
  exact (suggestions_come_from_the_pool flat_distance by_rating "Paris" None paris_pool
           ["Eiffel Tower"] [] ∅ 5000 paris_available).
Defined.

Lemma suggestions_fall_back_to_the_curated_places_witness :
  exists suggestions,
    suggest flat_distance by_rating "Paris" None [] ["Eiffel Tower"] [] ∅ 5000
    = suggestions_json suggestions
    /\ (length suggestions <= 5)%nat
    /\ sublist suggestions (getCuratedFallback "Paris")
    /\ (forall s t, In s suggestions -> get_prop s "title" = Return (VStr t) ->
        forall x, In x ["Eiffel Tower"] -> normalize x <> normalize t).
Proof.
  exact (suggestions_fall_back_to_the_curated_places flat_distance by_rating "Paris" None []
           ["Eiffel Tower"] [] ∅ 5000 eq_refl).
Defined.

End PlaceWitnesses.

Module EnrichWitnesses.
Import Str JS Suggestions Suggest Enrich Parse.
Import PlaceSamples EnrichSamples.
Import EnrichFacts.

Lemma louvre_cache_ok :
  forall key entry, louvre_cache !! key = Some entry -> enrichment_ok entry.
Proof.
  intros key entry H. unfold louvre_cache in H.
  apply lookup_singleton_Some in H as [_ <-].
  split; [reflexivity |]. exists EmptyString. auto.
Qed.



Lemma fresh_enrichment_is_served_without_the_model_witness :
  enrich parse_empty_only never_less louvre_request (Throw AbortError) 2000 3000
    louvre_cache tuileries_cache
  = (enriched_json louvre_request (description louvre_entry) (funFact louvre_entry),
     louvre_cache).
Proof.
  apply (fresh_enrichment_is_served_without_the_model parse_empty_only never_less
           louvre_request (Throw AbortError) 2000 3000 louvre_cache tuileries_cache
           "ChIJD3uTd9hx5kcR1IQvGfr8dbk" louvre_entry);
    try reflexivity.
  discriminate.
Defined.

Lemma louvre_run_answers :
  louvre_run
  = Return (enriched_json louvre_request (VStr louvre_description) (VStr louvre_fact),
            cache_after louvre_run).
Proof. vm_compute. reflexivity. Qed.

Lemma enrichment_reaches_the_suggestions_witness :
  let suggested := {| Suggestions.place := louvre; distanceKm := None;
                      popularityScore := 47 |} in
  FunFact.isValidFunFact louvre_fact = true
  /\ exists d f,
       enriched_json louvre_request (VStr louvre_description) (VStr louvre_fact)
       = enriched_json louvre_request d f
       /\ (exists ts,
             cache_after louvre_run !! "ChIJD3uTd9hx5kcR1IQvGfr8dbk"
             = Some {| description := d; funFact := f; enriched_at := ts |})
       /\ get_prop (suggestion_of hour_later_cache 3600000 suggested) "description"
          = Return d
       /\ get_prop (suggestion_of hour_later_cache 3600000 suggested) "funFact" = Return f
       /\ get_prop (suggestion_of hour_later_cache 3600000 suggested) "enriched"
          = Return (VBool true).
Proof.
  intros suggested. split; [vm_compute; reflexivity |].
  assert (Hsame : hour_later_cache !! "ChIJD3uTd9hx5kcR1IQvGfr8dbk"
                  = cache_after louvre_run !! "ChIJD3uTd9hx5kcR1IQvGfr8dbk")
    by (vm_compute; reflexivity).
  assert (Hfresh : forall entry,
            hour_later_cache !! "ChIJD3uTd9hx5kcR1IQvGfr8dbk" = Some entry ->
            3600000 - enriched_at entry < ENRICHMENT_CACHE_TTL).
  { intros entry H. vm_compute in H. injection H as <-. reflexivity. }
  exact (enrichment_reaches_the_suggestions parse_louvre never_less louvre_request
           (Return louvre_reply) 2000 3000 ∅ tuileries_cache (cache_after louvre_run)
           hour_later_cache
           (enriched_json louvre_request (VStr louvre_description) (VStr louvre_fact))
           "ChIJD3uTd9hx5kcR1IQvGfr8dbk" suggested 3600000
           eq_refl eq_refl eq_refl ltac:(discriminate) louvre_run_answers eq_refl
           Hsame Hfresh).
Defined.

End EnrichWitnesses.

Module SpotWitnesses.
Import Str JS Spots.
Import SpotSamples.
Import SpotsFacts.

Lemma new_spots_are_numbered_after_the_existing_witness :
  newSpots_of 7 stored_before posted
  = Return [new_spot 7 4 0 (VObj [("title", VStr "Pantheon"); ("category", VStr "Landmark")])]
  /\ (length [new_spot 7 4 0 (VObj [("title", VStr "Pantheon");
                                    ("category", VStr "Landmark")])]
      <= length posted)%nat
  /\ (forall i s,
        [new_spot 7 4 0 (VObj [("title", VStr "Pantheon"); ("category", VStr "Landmark")])]
          !! i = Some s ->
        new_tripId s = 7
        /\ new_sortOrder s = maxOrder_of stored_before + 1 + Z.of_nat i
        /\ 0 <= new_sortOrder s
        /\ Forall (fun row => sortOrder row < new_sortOrder s) stored_before).
Proof.
  assert (H : newSpots_of 7 stored_before posted
              = Return [new_spot 7 4 0 (VObj [("title", VStr "Pantheon");
                                              ("category", VStr "Landmark")])])
    by (vm_compute; reflexivity).
  split; [exact H |].
  exact (new_spots_are_numbered_after_the_existing 7 stored_before posted _ H).
Defined.

Lemma posted_titles :
  Forall (fun s => exists text, get_prop s "title" = Return (VStr text)) posted.
Proof. repeat constructor; eexists; reflexivity. Qed.

Lemma stored_spots_are_not_added_again_witness :
  newSpots_of 7 stored_after posted = Return [].
Proof.
  apply (stored_spots_are_not_added_again 7 stored_before stored_after posted
           [new_spot 7 4 0 (VObj [("title", VStr "Pantheon"); ("category", VStr "Landmark")])]
           posted_titles).
  - vm_compute. reflexivity.
  - intros r [<- | [<- | []]]; eexists; (split; [| reflexivity]); cbn; auto.
  - intros s [<- | []]. exists (row 3 "Pantheon" 5). split; [cbn; auto | reflexivity].
Defined.

End SpotWitnesses.

Module SearchWitnesses.
Import Str JS Suggestions Places Suggest TextSearch.
Import PlaceSamples SearchSamples.
Import TextSearchFacts.

Lemma no_enrichment_ok :
  forall key entry, (∅ : gmap string enrichment) !! key = Some entry ->
                    Enrich.enrichment_ok entry.
Proof. intros key entry H. rewrite lookup_empty in H. discriminate H. Qed.

Lemma the_best_available_place_is_suggested_witness :
  exists rest,
    suggest flat_distance by_rating "Paris" None
      (dedupe_by placeId (fun _ => true) (concat (map places_of raw_answers)))
      ["Eiffel Tower"] [] ∅ 5000
    = suggestions_json
        (suggestion_of ∅ 5000 (ranked_of (place_of raw_louvre)) :: rest).
Proof.
  apply (the_best_available_place_is_suggested flat_distance by_rating "Paris" None
           raw_answers ["Eiffel Tower"] [] ∅ 5000
           (ranked_of (place_of raw_louvre)) [ranked_of (place_of raw_tuileries)]
           no_enrichment_ok).
  vm_compute. reflexivity.
Defined.

End SearchWitnesses.

Module ReferenceWitnesses.
Import Str JS Validators Samples.
Import ReferenceFacts.

Lemma countPOIReferences_counts_questions_witness :
  countPOIReferences [VObj tower_fields; first_is_right] ["Eiffel Tower"] = Return 1
  /\ 0 <= 1 <= Z.of_nat (length [VObj tower_fields; first_is_right])
  /\ (["Eiffel Tower"] = [] -> 1 = 0)
  /\ (In EmptyString ["Eiffel Tower"] ->
      1 = Z.of_nat (length [VObj tower_fields; first_is_right])).
Proof.
  assert (H : countPOIReferences [VObj tower_fields; first_is_right] ["Eiffel Tower"]
              = Return 1) by (vm_compute; reflexivity).
  split; [exact H |].
  exact (countPOIReferences_counts_questions _ _ _ H).
Defined.

End ReferenceWitnesses.

(** ** The fallbacks *)

Module FallbackFacts.
Import Str JS Quiz Suggestions Suggest Curated SuggestionsFacts.

Lemma filter_seen_idem titleSet placeIdSet (suggestions : list value) : forall seen,
  filter_seen titleSet placeIdSet seen (filter_seen titleSet placeIdSet seen suggestions)
  = filter_seen titleSet placeIdSet seen suggestions.
Proof.
  induction suggestions as [| s rest IH]; intros seen; cbn [filter_seen]; [reflexivity |].
  destruct (catch (suggestion_checks titleSet placeIdSet seen s) (false, seen))
    as [keep seen'] eqn:Hcheck.
  destruct keep.
  - cbn [filter_seen]. rewrite Hcheck, IH. reflexivity.
  - apply suggestion_dropped in Hcheck. subst seen'. apply IH.
Qed.

(** X27: [validateSuggestions] is idempotent: validating its result
    again, with the same exclusions, changes nothing. *)
Theorem validateSuggestions_is_idempotent
    (suggestions : list value) (excludeTitles excludePlaceIds : list string) :
  validateSuggestions (validateSuggestions suggestions excludeTitles excludePlaceIds)
    excludeTitles excludePlaceIds
  = validateSuggestions suggestions excludeTitles excludePlaceIds.
Proof. unfold validateSuggestions. apply filter_seen_idem. Qed.

(** X28: the two fallbacks agree on the city when one curated city
    matches. [CURATED_QUESTIONS] and [CURATED_PLACES] hold the same five
    cities in different orders, and each fallback takes the first city,
    in the order of its table, whose name holds the lowered and trimmed
    request or is held by it. When exactly one of the five names matches,
    [getFallbackQuestions] gives the questions and [getCuratedFallback]
    the places of that city. *)
Theorem the_fallbacks_agree_on_the_city (city name : string) :
  In name CURATED_CITIES ->
  matches_city (normalize city) name = true ->
  (forall other, In other CURATED_CITIES -> other <> name ->
     matches_city (normalize city) other = false) ->
  first_curated (normalize city) CURATED_QUESTIONS = Some (getFallbackQuestions city)
  /\ first_curated (normalize city) CURATED_PLACES = Some (getCuratedFallback city)
  /\ In (name, getFallbackQuestions city) CURATED_QUESTIONS
  /\ In (name, getCuratedFallback city) CURATED_PLACES.
Proof.
  intros Hname Hmatch Hothers.
  unfold getFallbackQuestions, getCuratedFallback. fold (normalize city).
  unfold matches_city in *.
  assert (Hno : forall other, In other CURATED_CITIES -> other <> name ->
            includes (normalize city) other || includes other (normalize city) = false)
    by exact Hothers.
  cbn [In CURATED_CITIES] in Hname.
  destruct Hname as [<- | [<- | [<- | [<- | [<- | []]]]]];
    unfold CURATED_QUESTIONS, CURATED_PLACES; cbn [first_curated];
    rewrite ?Hmatch;
    repeat (rewrite Hno by (first [discriminate | cbn; tauto]); rewrite ?Hmatch);
    cbn [In]; auto 12.
Qed.

End FallbackFacts.

Module FallbackWitnesses.
Import Str JS Quiz Suggest Curated.
Import FallbackFacts.

Lemma the_fallbacks_agree_on_the_city_witness :
  first_curated (normalize "Paris, France") CURATED_QUESTIONS
  = Some (getFallbackQuestions "Paris, France")
  /\ first_curated (normalize "Paris, France") CURATED_PLACES
     = Some (getCuratedFallback "Paris, France")
  /\ In ("paris", getFallbackQuestions "Paris, France") CURATED_QUESTIONS
  /\ In ("paris", getCuratedFallback "Paris, France") CURATED_PLACES.
Proof.
  apply (the_fallbacks_agree_on_the_city "Paris, France" "paris").
  - right. left. reflexivity.
  - reflexivity.
  - intros other [<- | [<- | [<- | [<- | [<- | []]]]]] Hne;
      first [reflexivity | contradiction].
Defined.

End FallbackWitnesses.

(** ** Valid questions, from the model to the answer *)

Module QuizValidityFacts.
Import Str Regex JS Quiz Parse QuestionId QuizAnswer QuizValidity QuizFacts QuizAnswerFacts.

Lemma shuffle_valid q (g g' : Rand) r :
  valid_question q -> shuffleOptions q g = (Return r, g') -> valid_question r.
Proof.
  intros (texts & k & funFact & Hopts & Hlen & Hnd & Hci & Hk & Hff & Hfive) Hrun.
  destruct q as [| | b | n | s | elems | fields]; try discriminate Hopts.
  cbn [get_prop] in Hopts, Hci, Hff.
  injection Hopts as Hopts. injection Hci as Hci. injection Hff as Hff.
  assert (Hx : (0 <= inject_Z k <= 3)%Q).
  { split; [change 0%Q with (inject_Z 0) | change 3%Q with (inject_Z 3)];
      apply Qle_inject; lia. }
  destruct (shuffle_shaped fields texts (inject_Z k) funFact g Hopts Hlen Hnd Hci Hx Hff Hfive)
    as (r0 & g0 & Hrun0 & Hvalid & _).
  rewrite is_integer_inject in Hvalid.
  rewrite Hrun0 in Hrun. injection Hrun as <- _. exact Hvalid.
Qed.

Lemma shuffles_valid qs : forall (g g' : Rand) rs,
  Forall valid_question qs ->
  mapM shuffleOptions qs g = (Return rs, g') ->
  Forall valid_question rs.
Proof.
  induction qs as [| q qs IH]; intros g g' rs Hall; cbn [mapM]; unfold bind, ret.
  - intros [= <- _]. constructor.
  - inversion Hall as [| ? ? Hq Hrest]; subst.
    destruct (shuffleOptions q g) as [[r | e] g1] eqn:Hr; [| discriminate].
    destruct (mapM shuffleOptions qs g1) as [[rs' | e] g2] eqn:Hrs; [| discriminate].
    intros [= <- _]. constructor.
    + exact (shuffle_valid _ _ _ _ Hq Hr).
    + exact (IH _ _ _ Hrest Hrs).
Qed.

Lemma guard_valid qs (g g' : Rand) rs :
  Forall valid_question qs ->
  distribution_guard qs g = (Return rs, g') ->
  Forall valid_question rs.
Proof.
  intros Hall. unfold distribution_guard, bind, lift.
  destruct (checkAnswerDistribution qs) as [ok | e]; [| discriminate].
  destruct ok; cbn [negb].
  - unfold ret. intros [= <- _]. exact Hall.
  - apply shuffles_valid. exact Hall.
Qed.

Lemma cache_valid_insert cache key questions ts :
  cache_valid cache -> (4 <= length questions)%nat -> Forall valid_question questions ->
  cache_valid (<[key := {| pool_questions := questions; pool_ts := ts |}]> cache).
Proof.
  intros Hok Hlen Hall k entry Hk.
  destruct (decide (key = k)) as [-> | Hne].
  - rewrite lookup_insert_eq in Hk. injection Hk as <-. cbn. auto.
  - rewrite lookup_insert_ne in Hk by exact Hne. eauto.
Qed.

Lemma cache_valid_delete cache key : cache_valid cache -> cache_valid (delete key cache).
Proof.
  intros Hok k entry Hk.
  apply lookup_delete_Some in Hk as [_ Hk]. eauto.
Qed.

Lemma sublist_valid (kept qs : list value) :
  sublist kept qs -> Forall valid_question qs -> Forall valid_question kept.
Proof.
  intros Hsub Hall. apply Forall_forall. intros q Hq.
  rewrite Forall_forall in Hall. apply Hall.
  exact (elem_of_sublist _ _ _ Hq Hsub).
Qed.

Section HandlerFacts.

Variable JSON_parse : string -> result value.
Variable replies : nat -> result string * Z.
Variable rq : quiz_request.
Hypothesis Hintegral : integral_answers JSON_parse replies.

Lemma generate_valid w questions w' :
  generate JSON_parse replies rq w = (Return questions, w') ->
  Forall valid_question questions
  /\ (cache_valid (triviaPoolCache w) -> cache_valid (triviaPoolCache w')).
Proof.
  unfold generate, wbind, ask, of_result, of_M, wret.
  destruct (replies (model_calls w)) as [[content | e] t] eqn:Hreply; [| discriminate].
  destruct (parsed_questions JSON_parse content) as [parsed | e] eqn:Hparse;
    [| discriminate].
  cbn [rand triviaPoolCache now model_calls].
  destruct (validateTriviaQuestions_returns parsed (poiNames rq) (rand w))
    as (out & g' & Hrun & _ & Hvalid).
  rewrite Hrun.
  assert (Hout : Forall valid_question out).
  { apply Hvalid. intros q x Hq Hx.
    exact (Hintegral (model_calls w) content parsed
             ltac:(rewrite Hreply; reflexivity) Hparse q x Hq Hx). }
  destruct (Z.leb_spec 4 (Z.of_nat (length out))) as [Hfour | _];
    unfold cache_set; cbn; intros [= <- <-]; cbn; (split; [exact Hout | intros Hok]).
  - apply cache_valid_insert; auto. lia.
  - exact Hok.
Qed.

Lemma load_valid w allQuestions triviaSource w' :
  cache_valid (triviaPoolCache w) ->
  load JSON_parse replies rq w = (Return (allQuestions, triviaSource), w') ->
  Forall valid_question allQuestions /\ cache_valid (triviaPoolCache w').
Proof.
  intros Hok. unfold load.
  assert (Hgen : forall w0,
            cache_valid (triviaPoolCache w0) ->
            wbind (generate JSON_parse replies rq)
                  (fun questions => wret (questions, "openai")) w0
            = (Return (allQuestions, triviaSource), w') ->
            Forall valid_question allQuestions /\ cache_valid (triviaPoolCache w')).
  { intros w0 Hok0. unfold wbind, wret.
    destruct (generate JSON_parse replies rq w0) as [[questions | e] w1] eqn:Hg;
      [| discriminate].
    apply generate_valid in Hg as [Hq Hc]. intros [= <- _ <-]. auto. }
  destruct (triviaPoolCache w !! triviaCacheKey rq) as [cachedTrivia |] eqn:Hget.
  - destruct ((now w - pool_ts cachedTrivia <? TRIVIA_POOL_TTL)
              && (0 <? Z.of_nat (length (pool_questions cachedTrivia)))).
    + intros [= <- _ <-]. split; [exact (proj2 (Hok _ _ Hget)) | exact Hok].
    + unfold wbind at 1.
      destruct (Z.of_nat (length (pool_questions cachedTrivia)) =? 0).
      * unfold cache_delete at 1. apply Hgen. apply cache_valid_delete. exact Hok.
      * unfold wret at 1. apply Hgen. exact Hok.
  - apply Hgen. exact Hok.
Qed.

Lemma not_excluded_valid questions kept :
  Forall valid_question questions ->
  not_excluded rq questions = Return kept ->
  Forall valid_question kept.
Proof.
  intros Hall Hkept. unfold not_excluded in Hkept.
  apply SpotsFacts.rfilter_sublist in Hkept as (Hsub & _).
  exact (sublist_valid _ _ Hsub Hall).
Qed.

Lemma recover_valid questions triviaSource w kept source w' :
  cache_valid (triviaPoolCache w) ->
  Forall valid_question questions ->
  recover JSON_parse replies rq questions triviaSource w = (Return (kept, source), w') ->
  Forall valid_question kept /\ cache_valid (triviaPoolCache w').
Proof.
  intros Hok Hall. unfold recover.
  destruct ((Z.of_nat (length questions) <? Z.min (count rq) 4)
            && String.eqb triviaSource "cache" && non_empty (cityPlaceId rq)).
  2: { intros [= <- _ <-]. auto. }
  unfold wbind at 1, cache_delete at 1. unfold wbind at 1.
  match goal with
  | |- context [generate JSON_parse replies rq ?w0] =>
      destruct (generate JSON_parse replies rq w0) as [[fresh | e] w1] eqn:Hg;
      [apply generate_valid in Hg as [Hfresh Hc];
       cbn [triviaPoolCache] in Hc;
       specialize (Hc (cache_valid_delete _ _ Hok))
      | discriminate]
  end.
  unfold wbind, of_result, wret.
  destruct (not_excluded rq fresh) as [unseenQuestions | e] eqn:Hne; [| discriminate].
  pose proof (not_excluded_valid _ _ Hfresh Hne) as Hunseen.
  intros [= <- _ <-]. split; [| exact Hc].
  destruct (Z.of_nat (length unseenQuestions) =? 0); assumption.
Qed.

Lemma fall_back_valid questions triviaSource w kept source w' :
  Forall valid_question questions ->
  fall_back rq questions triviaSource w = (Return (kept, source), w') ->
  Forall valid_question kept /\ triviaPoolCache w' = triviaPoolCache w.
Proof.
  intros Hall. unfold fall_back.
  destruct (Z.of_nat (length questions) <? Z.min (count rq) 4).
  2: { intros [= <- _ <-]. auto. }
  destruct (non_empty (cityPlaceId rq)); cbn [negb].
  { intros [= <- _ <-]. auto. }
  destruct (Z.of_nat (length questions) <? Z.of_nat (length (getFallbackQuestions (city rq)))).
  2: { intros [= <- _ <-]. auto. }
  unfold wbind, of_M, wret.
  destruct (shuffle_fallbacks (city rq) (rand w)) as (shuffled & g' & -> & Hvalid & _).
  intros [= <- _ <-]. cbn. auto.
Qed.

Lemma respond_valid questions triviaSource w answer w' :
  Forall valid_question questions ->
  respond rq questions triviaSource w = (Return answer, w') ->
  triviaPoolCache w' = triviaPoolCache w
  /\ exists final questionIds poolExhausted,
       answer = json (quiz_body rq final questionIds poolExhausted triviaSource)
       /\ Forall valid_question final.
Proof.
  intros Hall. unfold respond, wbind, of_M, of_result, wret.
  destruct (distribution_guard questions (rand w)) as [[guarded | e] g'] eqn:Hguard;
    [| discriminate].
  apply guard_valid in Hguard; [| exact Hall].
  cbn [rand triviaPoolCache now model_calls].
  destruct (if non_empty (cityPlaceId rq) then _ else _) as [questionIds | e];
    [| discriminate].
  intros [= <- <-]. cbn. split; [reflexivity |].
  eexists _, _, _. split; [reflexivity |].
  unfold slice_to. apply Forall_take. exact Hguard.
Qed.

End HandlerFacts.

(** X29: the questions of a quiz answer are valid when the indices of
    the model are integers. If every candidate the model sends has an
    integer as [correctIndex] and every cached batch has four questions or
    more, all valid, then every question of the answer of the quiz handler
    has four options that differ after lowering and trimming, a
    [correctIndex] among 0..3 and a fun fact of five characters or more,
    whether it comes from the cache, the model or the fallback; and the
    cache keeps such batches only. *)
Theorem served_questions_are_valid
    (JSON_parse : string -> result value) (replies : nat -> result string * Z)
    (rq : quiz_request) (w w' : world) (answer : response) :
  integral_answers JSON_parse replies ->
  cache_valid (triviaPoolCache w) ->
  quiz_answer JSON_parse replies rq w = (Return answer, w') ->
  (exists final questionIds poolExhausted source,
     answer = json (quiz_body rq final questionIds poolExhausted source)
     /\ Forall valid_question final)
  /\ cache_valid (triviaPoolCache w').
Proof.
  intros Hintegral Hok. unfold quiz_answer, wbind.
  destruct (load JSON_parse replies rq w) as [[[allQuestions triviaSource] | e] w1] eqn:Hload;
    [| discriminate].
  apply load_valid in Hload as [Hall Hok1]; try assumption.
  cbn [fst snd]. unfold select. unfold wbind at 1, of_result at 1.
  destruct (if non_empty (cityPlaceId rq) then _ else _) as [questions | e] eqn:Hfirst;
    [| discriminate].
  assert (Hq : Forall valid_question questions).
  { destruct (non_empty (cityPlaceId rq)).
    - exact (not_excluded_valid rq _ _ Hall Hfirst).
    - injection Hfirst as <-. exact Hall. }
  unfold wbind.
  destruct (recover JSON_parse replies rq questions triviaSource w1)
    as [[[recovered source] | e] w2] eqn:Hrec; [| discriminate].
  apply recover_valid in Hrec as [Hr Hok2]; try assumption.
  cbn [fst snd].
  destruct (fall_back rq recovered source w2) as [[[kept final_source] | e] w3] eqn:Hfall;
    [| discriminate].
  apply fall_back_valid in Hfall as [Hk Hcache3]; [| exact Hr].
  cbn [fst snd]. intros Hresp.
  apply respond_valid in Hresp as (Hcache & final & ids & pe & -> & Hfinal); [| exact Hk].
  split; [eauto 6 |]. rewrite Hcache, Hcache3. exact Hok2.
Qed.

End QuizValidityFacts.

Module QuizValidityWitnesses.
Import Str JS Quiz Parse QuestionId QuizAnswer QuizValidity Samples QuizSamples.
Import QuizValidityFacts.

Lemma empty_replies_integral : integral_answers parse_empty_only empty_replies.
Proof.
  intros n content parsed Hreply Hparse q x Hin.
  cbn in Hreply. injection Hreply as <-.
  vm_compute in Hparse. injection Hparse as <-. destruct Hin.
Qed.

Lemma cache_valid_empty : cache_valid (triviaPoolCache cold_world).
Proof. intros key entry H. cbn in H. rewrite lookup_empty in H. discriminate H. Qed.

Ltac sample_valid :=
  exists_texts;
  cbn [get_prop]; split; [reflexivity |];
  split; [reflexivity |];
  split; [apply (bool_decide_unpack _); vm_compute; reflexivity |];
  split; [reflexivity |];
  split; [lia |];
  split; [reflexivity | vm_compute; discriminate]
with exists_texts := eexists [_; _; _; _], _, _.

Lemma paris_pool_valid : Forall valid_question (pool_questions paris_pool).
Proof.
  unfold paris_pool. cbn [pool_questions firstn generic_questions].
  repeat (constructor; [sample_valid |]). constructor.
Qed.

Lemma warm_cache_valid : cache_valid (triviaPoolCache warm_world).
Proof.
  intros key entry H. cbn [triviaPoolCache warm_world] in H.
  apply lookup_singleton_Some in H as [_ <-].
  split; [cbn; lia | exact paris_pool_valid].
Qed.

Lemma model_replies_integral : integral_answers parse_model model_replies.
Proof.
  intros n content parsed Hreply Hparse q x Hin Hindex.
  unfold model_replies in Hreply. cbn [fst] in Hreply. injection Hreply as <-.
  assert (Hparsed : parsed_questions parse_model model_reply = Return model_questions)
    by (vm_compute; reflexivity).
  rewrite Hparsed in Hparse. injection Hparse as <-.
  repeat (destruct Hin as [<- | Hin];
          [cbn in Hindex; injection Hindex as <-; reflexivity |]).
  destruct Hin.
Qed.

Lemma model_run_returns : model_run = (Return (answer_of model_run), snd model_run).
Proof. vm_compute. reflexivity. Qed.


Lemma served_questions_are_valid_witness :
  (model_run = (Return (answer_of model_run), snd model_run)
   /\ model_calls (snd model_run) = 1%nat
   /\ (exists final questionIds poolExhausted source,
         answer_of model_run
         = json (quiz_body paris_seen final questionIds poolExhausted source)
         /\ Forall valid_question final)
   /\ cache_valid (triviaPoolCache (snd model_run)))
  /\ (lyon_run = (Return (answer_of lyon_run), snd lyon_run)
      /\ (exists final questionIds poolExhausted source,
            answer_of lyon_run = json (quiz_body lyon final questionIds poolExhausted source)
            /\ Forall valid_question final)
      /\ cache_valid (triviaPoolCache (snd lyon_run))).
Proof.
  assert (Hrun : lyon_run = (Return (answer_of lyon_run), snd lyon_run))
    by (vm_compute; reflexivity).
  split.
  - split; [exact model_run_returns |]. split; [vm_compute; reflexivity |].
    exact (served_questions_are_valid parse_model model_replies paris_seen warm_world
             (snd model_run) (answer_of model_run) model_replies_integral
             warm_cache_valid model_run_returns).
  - split; [exact Hrun |].
    exact (served_questions_are_valid parse_empty_only empty_replies lyon cold_world
             (snd lyon_run) (answer_of lyon_run) empty_replies_integral cache_valid_empty
             Hrun).
Defined.

End QuizValidityWitnesses.
